(** * tbsh: the directory history, the path searches and the directive
    transformer of [src/main.cpp], embedded in Rocq.

    Conventions of the embedding.
    - [size_t] is a 64-bit unsigned integer: a [Z] in [0, 2^64) whose
      arithmetic is reduced by [wrap].
    - [std::string] is [string]; a position inside a string is a [nat].
    - A C++ call that may throw returns a [result]: the value or the
      exception.  Where the C++ standard gives a call no meaning (indexing
      a deque out of range) the model returns [None]; [None] is also what
      a loop returns when the fuel that bounds its iterations runs out,
      and each loop comes with the proof that its fuel is enough. *)

From Stdlib Require Import ZArith List String Ascii Bool Lia Arith Sorted.
Import ListNotations.

Open Scope string_scope.
Open Scope Z_scope.

Set Warnings "-register-all".

(** ** Machine integers and outcomes *)

Definition size_t_modulus : Z := 2 ^ 64.

Definition wrap (z : Z) : Z := z mod size_t_modulus.

Inductive exn : Type :=
| runtime_error (what : string)
| filesystem_error (what : string).

Definition what (e : exn) : string :=
  match e with
  | runtime_error w => w
  | filesystem_error w => w
  end.

Inductive result (A : Type) : Type :=
| Ret (a : A)
| Throw (e : exn).

Arguments Ret {A} a.
Arguments Throw {A} e.

(** ** class DirectoryHistory *)

Module DirectoryHistory.

Record t : Type := mk {
  history : list string;        (* std::deque<std::string> history *)
  current_index : Z             (* size_t current_index = 0 *)
}.

(** A default-constructed object. *)
Definition empty : t := {| history := []; current_index := 0 |}.

(** [history.size()] *)
Definition size (l : list string) : Z := wrap (Z.of_nat (List.length l)).

(** [history[i]]; [None] when [i] is out of range, where the deque's
    [operator[]] has no defined behaviour. *)
Definition at_index (l : list string) (i : Z) : option string :=
  nth_error l (Z.to_nat i).

(** [history.empty() || history.back() != path] *)
Definition differs_from_back (l : list string) (path : string) : bool :=
  match l with
  | [] => true
  | _ :: _ => negb (String.eqb (List.last l "") path)
  end.

Definition add (path : string) (h : t) : t :=
  if differs_from_back (history h) path then
    let history' := (history h ++ [path])%list in
    {| history := history'; current_index := wrap (size history' - 1) |}
  else h.

Definition back (h : t) : option (result string * t) :=
  if 0 <? current_index h then
    let h' := {| history := history h;
                 current_index := wrap (current_index h - 1) |} in
    match at_index (history h') (current_index h') with
    | Some s => Some (Ret s, h')
    | None => None
    end
  else Some (Throw (runtime_error "No previous directory in history"), h).

Definition forward (h : t) : option (result string * t) :=
  if current_index h <? wrap (size (history h) - 1) then
    let h' := {| history := history h;
                 current_index := wrap (current_index h + 1) |} in
    match at_index (history h') (current_index h') with
    | Some s => Some (Ret s, h')
    | None => None
    end
  else Some (Throw (runtime_error "No next directory in history"), h).

(** [current()] *)
Definition current (h : t) : option string :=
  at_index (history h) (current_index h).

(** The object as [Shell::Shell()] leaves it: the initial directory
    added to a default-constructed history. *)
Definition seeded (p0 : string) : t := add p0 empty.

(** The states a session can reach: the seeded state, then any sequence
    of [add], [back] and [forward], whether the call returns or throws. *)
Inductive reachable (p0 : string) : t -> Prop :=
| reach_seeded : reachable p0 (seeded p0)
| reach_add p h : reachable p0 h -> reachable p0 (add p h)
| reach_back h r h' :
    reachable p0 h -> back h = Some (r, h') -> reachable p0 h'
| reach_forward h r h' :
    reachable p0 h -> forward h = Some (r, h') -> reachable p0 h'.

(** The cursor is an index into the entries. *)
Definition valid (h : t) : Prop :=
  (history h <> []) /\
  (0 <= current_index h < Z.of_nat (List.length (history h))).

(** No two neighbouring entries are equal. *)
Fixpoint no_consecutive_duplicates (l : list string) : Prop :=
  match l with
  | [] => True
  | x :: l' =>
      match l' with
      | [] => True
      | y :: _ => x <> y /\ no_consecutive_duplicates l'
      end
  end.

End DirectoryHistory.

(** ** std::filesystem

    The shell only ever starts a search from [fs::current_path()].  Such a
    path is absolute and in normal form, so an [fs::path] held in a
    variable is the list of its file names below the root, root first:
    [["home"; "u"]] is [/home/u] and [[]] is [/].  Symbolic links are not
    modelled. *)

Definition path : Type := list string.

Definition root_path (p : path) : path := [].

Definition parent_path (p : path) : path := removelast p.

Definition path_eqb (p q : path) : bool :=
  if list_eq_dec string_dec p q then true else false.

(** [p.string()] *)
Definition path_string (p : path) : string := "/" ++ String.concat "/" p.

(** [fs::absolute(p)]: the paths of the model are absolute already. *)
Definition absolute (p : path) : path := p.

Definition has_root_directory (name : string) : bool :=
  match name with
  | String "/" _ => true
  | _ => false
  end.

(** [(current / name).string()] for a [std::string] name, which need not
    be a single file name: an absolute [name] replaces [current], and no
    separator is added after the root. *)
Definition slash (current : path) (name : string) : string :=
  if has_root_directory name then name
  else match current with
       | [] => "/" ++ name
       | _ :: _ => path_string current ++ "/" ++ name
       end.

(** [a.lexically_relative(base)], on paths in normal form. *)
Fixpoint lexically_relative (a base : path) : list string :=
  match a, base with
  | x :: a', y :: base' =>
      if String.eqb x y then lexically_relative a' base'
      else (repeat ".." (List.length base) ++ a)%list
  | _, _ => (repeat ".." (List.length base) ++ a)%list
  end.

(** [fs::relative(p, base).string()] *)
Definition relative_string (p base : path) : string :=
  match lexically_relative p base with
  | [] => "."
  | names => String.concat "/" names
  end.

(** What [fs::directory_iterator] yields: [entry.path()] and
    [entry.is_directory()]. *)
Record directory_entry : Type := mk_entry {
  entry_path : path;
  entry_is_directory : bool
}.

(** The file system as the program queries it.  [fs_exists] and
    [fs_is_directory] are the throwing overloads [fs::exists(p)] and
    [fs::is_directory(p)]: they take the text of a path and give the
    answer, or the [what()] of the [filesystem_error] they throw when the
    status of the path cannot be read (a file name that is too long, a
    directory on the way that may not be searched); [fs_readdir] lists a
    directory as file names with their is-directory flags, in the order
    the operating system yields them, or gives the message of the
    [filesystem_error] raised when the directory cannot be opened;
    [fs_chdir cwd target] is [chdir(2)]: the new working directory, or the
    [strerror] text of a failure, which leaves the working directory as it
    was. *)
Record filesystem : Type := mk_fs {
  fs_exists : string -> string + bool;
  fs_is_directory : string -> string + bool;
  fs_readdir : string -> string + list (string * bool);
  fs_chdir : path -> string -> string + path
}.

(** [fs::directory_iterator(dir)]: the entries of [dir], each with the
    path [dir / name]. *)
Definition directory_iterator (fs : filesystem) (dir : path)
  : string + list directory_entry :=
  match fs_readdir fs (path_string dir) with
  | inl msg => inl msg
  | inr names =>
      inr (map (fun d => {| entry_path := (dir ++ [fst d])%list;
                            entry_is_directory := snd d |}) names)
  end.

(** [fs::exists(candidate) && fs::is_directory(candidate)]: the second
    query is made only when the first answers yes, and either may throw. *)
Definition exists_and_is_directory (fs : filesystem) (candidate : string)
  : string + bool :=
  match fs_exists fs candidate with
  | inl msg => inl msg
  | inr false => inr false
  | inr true => fs_is_directory fs candidate
  end.

(** ** Shell::upfind *)

Section Upfind.

Variable fs : filesystem.
Variable dir_name : string.
Variable start : path.

Definition upfind_not_found : exn :=
  runtime_error ("Directory '" ++ dir_name ++
                 "' not found upwards from " ++ path_string start).

(** The [while (true)] loop; one unit of fuel per iteration.  A status
    query that throws ends the loop: nothing in [upfind] catches it. *)
Fixpoint upfind_loop (fuel : nat) (current : path)
  : option (result string) :=
  match fuel with
  | O => None
  | S fuel' =>
      let candidate := slash current dir_name in
      match exists_and_is_directory fs candidate with
      | inl msg => Some (Throw (filesystem_error msg))
      | inr true => Some (Ret candidate)
      | inr false =>
          if path_eqb current (root_path current) then
            Some (Throw upfind_not_found)
          else upfind_loop fuel' (parent_path current)
      end
  end.

Definition upfind : option (result string) :=
  upfind_loop (S (List.length start)) (absolute start).

End Upfind.

(** The directories [upfind] is specified over: [d] and its ancestors,
    nearest first, the root last. *)
Definition ancestors (d : path) : list path :=
  map (fun n => firstn n d) (rev (seq 0 (S (List.length d)))).

(** What the program learns about [name] at [a]: [inr true] when the
    queries report that it exists there as a directory, [inr false] when
    they report that it does not, [inl msg] when a query throws. *)
Definition directory_at (fs : filesystem) (a : path) (name : string)
  : string + bool :=
  exists_and_is_directory fs (slash a name).

(** The outcome of asking for [name] at each directory of a list in turn,
    up to the first answer that is not "no". *)
Fixpoint first_answer (fs : filesystem) (name : string) (start : path)
    (l : list path) : result string :=
  match l with
  | [] => Throw (upfind_not_found name start)
  | a :: l' =>
      match directory_at fs a name with
      | inl msg => Throw (filesystem_error msg)
      | inr true => Ret (slash a name)
      | inr false => first_answer fs name start l'
      end
  end.

(** ** Shell::downfind *)

(** [rel.size() >= pattern.size() &&
     rel.compare(rel.size() - pattern.size(), pattern.size(), pattern) == 0] *)
Definition ends_with (rel_path_str target_pattern : string) : bool :=
  (String.length target_pattern <=? String.length rel_path_str)%nat &&
  String.eqb
    (substring (String.length rel_path_str - String.length target_pattern)
               (String.length target_pattern) rel_path_str)
    target_pattern.

(** How a call of [downfind] ends: what it returns or throws, the value of
    [search_count] at that point, and the lines written to [std::cout]. *)
Record downfind_result : Type := mk_downfind_result {
  found : result string;
  search_count : Z;
  printed : list string
}.

Inductive for_result : Type :=
| Completed (search_count : Z) (directories : list path) (out : list string)
| Exited (r : downfind_result).

Definition search_limit_reached : exn :=
  runtime_error "Search limit reached, target not found.".

Definition target_not_found (target_pattern : string) : exn :=
  runtime_error ("Target '" ++ target_pattern ++ "' not found.").

Section Downfind.

Variable fs : filesystem.
Variable target_pattern : string.
Variable start : path.
Variable limit : Z.

(** The [for] loop over the entries of one directory.  [directories] is
    the FIFO queue: [push] appends, [front]/[pop] take the head. *)
Fixpoint for_each_entry (entries : list directory_entry)
    (search_count : Z) (directories : list path) (out : list string)
  : for_result :=
  match entries with
  | [] => Completed search_count directories out
  | entry :: rest =>
      let count directories out :=
        let search_count := wrap (search_count + 1) in
        if limit <=? search_count then
          Exited (mk_downfind_result
                    (Throw search_limit_reached) search_count out)
        else for_each_entry rest search_count directories out in
      if entry_is_directory entry then
        count (directories ++ [entry_path entry])%list out
      else
        let rel_path_str := relative_string (entry_path entry) start in
        let out :=
          (out ++ [(rel_path_str ++ " | " ++ target_pattern)%string])%list in
        if ends_with rel_path_str target_pattern then
          Exited (mk_downfind_result
                    (Ret (path_string (entry_path entry))) search_count out)
        else count directories out
  end.

(** The [while] loop; one unit of fuel per directory taken off the
    queue. *)
Fixpoint while_directories (fuel : nat)
    (search_count : Z) (directories : list path) (out : list string)
  : option downfind_result :=
  match directories with
  | [] =>
      Some (mk_downfind_result
              (Throw (target_not_found target_pattern)) search_count out)
  | dir :: directories =>
      if search_count <? limit then
        match fuel with
        | O => None
        | S fuel' =>
            match directory_iterator fs dir with
            | inl msg =>
                Some (mk_downfind_result
                        (Throw (filesystem_error msg)) search_count out)
            | inr entries =>
                match for_each_entry entries search_count directories out
                with
                | Exited r => Some r
                | Completed search_count directories out =>
                    while_directories fuel' search_count directories out
                end
            end
        end
      else
        Some (mk_downfind_result
                (Throw (target_not_found target_pattern)) search_count out)
  end.

Definition downfind : option downfind_result :=
  while_directories (Z.to_nat limit) 0 [absolute start] [].

End Downfind.

(** [size_t limit = 1000] *)
Definition default_limit : Z := 1000.

(** *** The order of a breadth-first traversal

    [bfs_order fs fuel directories]: the entries a FIFO traversal yields
    from a queue of directories, with no pattern and no budget: the entries
    of the first directory as listed, its subdirectories joining the back
    of the queue.  [fuel] bounds the number of directories opened. *)
Definition subdirectories (entries : list directory_entry) : list path :=
  map entry_path (filter entry_is_directory entries).

Fixpoint bfs_order (fs : filesystem) (fuel : nat) (directories : list path)
  : list directory_entry :=
  match fuel, directories with
  | S fuel', dir :: directories' =>
      match directory_iterator fs dir with
      | inl _ => []
      | inr entries =>
          (entries ++
           bfs_order fs fuel' (directories' ++ subdirectories entries))%list
      end
  | _, _ => []
  end.

(** How deep an entry lies: the number of names in its path. *)
Definition depth (entry : directory_entry) : nat :=
  List.length (entry_path entry).

(** A non-directory entry whose path relative to [start] ends with the
    pattern. *)
Definition matches (target_pattern : string) (start : path)
    (entry : directory_entry) : bool :=
  negb (entry_is_directory entry) &&
  ends_with (relative_string (entry_path entry) start) target_pattern.

(** The lines [downfind] writes to [std::cout] while it examines
    [entries]: one for each entry that is not a directory. *)
Definition printed_line (target_pattern : string) (start : path)
    (entry : directory_entry) : string :=
  relative_string (entry_path entry) start ++ " | " ++ target_pattern.

Definition printed_lines (target_pattern : string) (start : path)
    (entries : list directory_entry) : list string :=
  map (printed_line target_pattern start)
      (filter (fun e => negb (entry_is_directory e)) entries).

(** *** Directory trees

    A finite tree of files and directories, and what it means for the file
    system to hold exactly that tree below a directory. *)
Inductive node : Type :=
| File (name : string)
| Directory (name : string) (children : list node).

Definition node_name (n : node) : string :=
  match n with
  | File name => name
  | Directory name _ => name
  end.

Definition node_is_directory (n : node) : bool :=
  match n with
  | File _ => false
  | Directory _ _ => true
  end.

Inductive holds_tree (fs : filesystem) : path -> list node -> Prop :=
| holds_intro (dir : path) (children : list node) :
    fs_readdir fs (path_string dir) =
      inr (map (fun n => (node_name n, node_is_directory n)) children) ->
    (forall name sub, In (Directory name sub) children ->
                      holds_tree fs (dir ++ [name])%list sub) ->
    holds_tree fs dir children.

(** The number of entries of a tree, files and directories alike. *)
Fixpoint count_entries (n : node) : nat :=
  match n with
  | File _ => 1
  | Directory _ children => S (list_sum (map count_entries children))
  end.

Definition total_entries (children : list node) : nat :=
  list_sum (map count_entries children).

(** The files of a tree, each as its list of names below the top. *)
Fixpoint files_of (n : node) : list (list string) :=
  match n with
  | File name => [[name]]
  | Directory name children =>
      map (cons name) (List.concat (map files_of children))
  end.

Definition all_files (children : list node) : list (list string) :=
  List.concat (map files_of children).

(** The entries the iterator yields for a directory [dir] that holds
    [children], and the subdirectories among them with their own
    children. *)
Definition entries_of (dir : path) (children : list node)
  : list directory_entry :=
  map (fun n => mk_entry (dir ++ [node_name n])%list (node_is_directory n))
      children.

Definition child_directories (dir : path) (children : list node)
  : list (path * list node) :=
  flat_map (fun n => match n with
                     | File _ => []
                     | Directory name sub => [((dir ++ [name])%list, sub)]
                     end) children.

Definition forest_entries (forest : list (path * list node)) : nat :=
  list_sum (map (fun d => total_entries (snd d)) forest).

(** ** Shell::transform_command *)

(** A line written to [std::cout] or to [std::cerr]. *)
Inductive event : Type :=
| Stdout (line : string)
| Stderr (line : string).

(** The regular expression [(<|>)([a-zA-Z0-9_.\-\/]+)]. *)
Definition is_direction (c : ascii) : bool :=
  Ascii.eqb c "<" || Ascii.eqb c ">".

Definition path_safe (c : ascii) : bool :=
  let n := nat_of_ascii c in
  ((97 <=? n) && (n <=? 122))%nat ||
  ((65 <=? n) && (n <=? 90))%nat ||
  ((48 <=? n) && (n <=? 57))%nat ||
  Ascii.eqb c "_" || Ascii.eqb c "." || Ascii.eqb c "-" || Ascii.eqb c "/".

(** The longest run of path-safe characters at the head of [s], and what
    follows it: the greedy [+]. *)
Fixpoint path_safe_run (s : string) : string * string :=
  match s with
  | "" => ("", "")
  | String c rest =>
      if path_safe c then
        let (run, tail) := path_safe_run rest in (String c run, tail)
      else ("", s)
  end.

(** One match of the expression: [match.position(0)], the character of
    [match.str(1)] and [match.str(2)]. *)
Record smatch : Type := mk_smatch {
  position : nat;
  direction : ascii;
  path_pattern : string
}.

(** [match.str(0)] and [match.length(0)] *)
Definition str0 (m : smatch) : string := String (direction m) (path_pattern m).

Definition length0 (m : smatch) : nat := String.length (str0 m).

(** The matches [std::sregex_iterator] yields on a text [s] that starts at
    offset [pos] of the command: leftmost first, each as long as it can
    be, the search resuming after the end of a match.  One unit of fuel
    per character tried as the start of a match. *)
Fixpoint regex_matches (fuel pos : nat) (s : string) : list smatch :=
  match fuel with
  | O => []
  | S fuel' =>
      match s with
      | "" => []
      | String c rest =>
          if is_direction c then
            match path_safe_run rest with
            | ("", _) => regex_matches fuel' (S pos) rest
            | (run, tail) =>
                mk_smatch pos c run ::
                regex_matches fuel' (pos + S (String.length run)) tail
            end
          else regex_matches fuel' (S pos) rest
      end
  end.

Definition sregex_iterator (command : string) : list smatch :=
  regex_matches (String.length command) 0 command.

Section TransformCommand.

Variable fs : filesystem.
Variable cwd : path.               (* fs::current_path() *)

(** The body of the [try] block: the search with its default arguments,
    and the lines it prints. *)
Definition find_path (direction : ascii) (path_pattern : string)
  : option (result string * list string) :=
  if Ascii.eqb direction "<" then
    match upfind fs path_pattern cwd with
    | Some r => Some (r, [])
    | None => None
    end
  else if Ascii.eqb direction ">" then
    match downfind fs path_pattern cwd default_limit with
    | Some r => Some (found r, printed r)
    | None => None
    end
  else Some (Ret "", []).

(** The [while (iter != end)] loop and the statements after it. *)
Fixpoint transform_loop (command : string) (matches : list smatch)
    (result : string) (last_pos : nat) (console : list event)
  : option (string * list event) :=
  match matches with
  | [] =>
      Some (result ++
            substring last_pos (String.length command - last_pos) command,
            console)
  | m :: rest =>
      let match_pos := position m in
      let result :=
        result ++ substring last_pos (match_pos - last_pos) command in
      match find_path (direction m) (path_pattern m) with
      | None => None
      | Some (Ret found_path, lines) =>
          transform_loop command rest (result ++ found_path)
                         (match_pos + length0 m)
                         (console ++ map Stdout lines)
      | Some (Throw e, lines) =>
          transform_loop command rest (result ++ str0 m)
                         (match_pos + length0 m)
                         (console ++ map Stdout lines ++
                          [Stderr ("[find error] " ++ what e)])
      end
  end.

Definition transform_command (command : string)
  : option (string * list event) :=
  transform_loop command (sregex_iterator command) "" 0 [].

(** What one directive is replaced by: the path found, or its own text
    when the search throws. *)
Definition replacement (m : smatch) : option string :=
  match find_path (direction m) (path_pattern m) with
  | None => None
  | Some (Ret found_path, _) => Some found_path
  | Some (Throw _, _) => Some (str0 m)
  end.

Definition search_fails (m : smatch) : Prop :=
  exists e lines,
    find_path (direction m) (path_pattern m) = Some (Throw e, lines).

End TransformCommand.

(** A directive token in a line: [<] or [>] immediately followed by a
    path-safe character. *)
Definition directive_token_in (s : string) : Prop :=
  exists pre c d post,
    s = pre ++ String c (String d post) /\
    is_direction c = true /\ path_safe d = true.

Definition starts_path_safe (s : string) : bool :=
  match s with
  | String d _ => path_safe d
  | "" => false
  end.

Fixpoint has_directive (s : string) : bool :=
  match s with
  | "" => false
  | String c rest =>
      (is_direction c && starts_path_safe rest) || has_directive rest
  end.

Fixpoint ends_in_direction (s : string) : bool :=
  match s with
  | "" => false
  | String c "" => is_direction c
  | String _ rest => ends_in_direction rest
  end.

(** [g1 ++ x1 ++ g2 ++ x2 ++ ...]: the texts between the matches, each
    followed by what stands at its match. *)
Fixpoint interleave (gaps texts : list string) : string :=
  match gaps, texts with
  | g :: gaps', x :: texts' => g ++ x ++ interleave gaps' texts'
  | _, _ => ""
  end.

(** What the loop of [transform_command] does with the matches [ms] of a
    [text]: there are texts [gaps] before the matches and a text [last]
    after them, none holding a directive token, such that [text] is the
    gaps interleaved with the matches, and the loop appends to [result]
    the same gaps interleaved with the replacements. *)
Definition rewrites (fs : filesystem) (cwd : path) (command : string)
    (ms : list smatch) (result : string) (last_pos : nat)
    (console : list event) (text : string) : Prop :=
  exists (gaps reps : list string) (last : string) (console' : list event),
    transform_loop fs cwd command ms result last_pos console =
      Some (result ++ interleave gaps reps ++ last, console') /\
    text = interleave gaps (map str0 ms) ++ last /\
    List.length gaps = List.length ms /\
    Forall2 (fun m rep => replacement fs cwd m = Some rep) ms reps /\
    Forall (fun g => has_directive g = false) gaps /\
    has_directive last = false.

(** ** Shell::change_directory and the [cd] branch of Shell::run *)

Record shell : Type := mk_shell {
  working_directory : path;          (* the process's working directory *)
  dir_history : DirectoryHistory.t;
  console : list event
}.

Section ChangeDirectory.

Variable fs : filesystem.

Definition change_directory (target : string) (update_history : bool)
    (sh : shell) : bool * shell :=
  match fs_chdir fs (working_directory sh) target with
  | inr new_cwd =>
      (true,
       if update_history then
         mk_shell new_cwd
                  (DirectoryHistory.add (path_string new_cwd)
                                        (dir_history sh))
                  (console sh)
       else mk_shell new_cwd (dir_history sh) (console sh))
  | inl msg =>
      (false,
       mk_shell (working_directory sh) (dir_history sh)
                (console sh ++ [Stderr ("chdir failed: " ++ msg)]))
  end.

(** [args] is the tokenised line, ["cd"] first; [home] is
    [getenv("HOME")]. *)
Definition cd_target (args : list string) (home : option string)
  : string :=
  match args with
  | _ :: arg :: _ => arg
  | _ => match home with
         | Some h => h
         | None => "/"
         end
  end.

Definition run_cd (args : list string) (home : option string)
    (sh : shell) : option shell :=
  let (changed, sh') :=
    change_directory (cd_target args home) true sh in
  if changed then
    match DirectoryHistory.current (dir_history sh') with
    | Some dir =>
        Some (mk_shell (working_directory sh') (dir_history sh')
                       (console sh' ++
                        [Stdout ("Changed directory to: " ++ dir)]))
    | None => None
    end
  else Some sh'.

End ChangeDirectory.

(** ** A file system given by a table

    Each directory with its listing.  Used to run the model on concrete
    inputs. *)
Section TableFs.

Variable table : list (path * list (string * bool)).

Definition lookup_directory (p : string)
  : option (path * list (string * bool)) :=
  find (fun d => String.eqb (path_string (fst d)) p) table.

Definition table_is_directory (p : string) : bool :=
  match lookup_directory p with
  | Some _ => true
  | None => false
  end.

Definition table_exists (p : string) : bool :=
  table_is_directory p ||
  existsb (fun d => existsb (fun n => String.eqb (slash (fst d) (fst n)) p)
                            (snd d)) table.

Definition table_fs : filesystem :=
  {| fs_exists := fun p => inr (table_exists p);
     fs_is_directory := fun p => inr (table_is_directory p);
     fs_readdir := fun p =>
       match lookup_directory p with
       | Some d => inr (snd d)
       | None => inl "No such file or directory"
       end;
     fs_chdir := fun cwd target =>
       match lookup_directory (slash cwd target) with
       | Some d => inr (fst d)
       | None => inl "No such file or directory"
       end |}.

End TableFs.

(** [/home/u/project] holds [a/b/c.txt] and [README]; [/home/u/work/deep]
    is an empty directory two levels below [/home/u]. *)
Definition example_table : list (path * list (string * bool)) :=
  [ ([], [("home", true)]);
    (["home"], [("u", true)]);
    (["home"; "u"], [("project", true); ("work", true)]);
    (["home"; "u"; "project"], [("a", true); ("README", false)]);
    (["home"; "u"; "project"; "a"], [("b", true)]);
    (["home"; "u"; "project"; "a"; "b"], [("c.txt", false)]);
    (["home"; "u"; "work"], [("deep", true)]);
    (["home"; "u"; "work"; "deep"], []) ].

Definition example_fs : filesystem := table_fs example_table.

Definition project : path := ["home"; "u"; "project"].

Definition project_tree : list node :=
  [Directory "a" [Directory "b" [File "c.txt"]]; File "README"].

Definition deep : path := ["home"; "u"; "work"; "deep"].

(** ** A file system with a limit on the length of file names

    The length of the longest file name in the text of a path. *)
Fixpoint longest_name_from (current longest : nat) (p : string) : nat :=
  match p with
  | EmptyString => Nat.max current longest
  | String c p' =>
      if Ascii.eqb c "/" then longest_name_from 0 (Nat.max current longest) p'
      else longest_name_from (S current) longest p'
  end.

Definition longest_name (p : string) : nat := longest_name_from 0 0 p.

Definition NAME_MAX : nat := 255.

(** ENAMETOOLONG, as [fs::status] reports it. *)
Definition name_too_long (p : string) : string :=
  "filesystem error: status: File name too long [" ++ p ++ "]".

(** [fs] on a system where a path with a file name longer than
    [NAME_MAX] is refused by every call. *)
Definition with_name_max (fs : filesystem) : filesystem :=
  {| fs_exists := fun p =>
       if (NAME_MAX <? longest_name p)%nat then inl (name_too_long p)
       else fs_exists fs p;
     fs_is_directory := fun p =>
       if (NAME_MAX <? longest_name p)%nat then inl (name_too_long p)
       else fs_is_directory fs p;
     fs_readdir := fun p =>
       if (NAME_MAX <? longest_name p)%nat then inl "File name too long"
       else fs_readdir fs p;
     fs_chdir := fun cwd target =>
       if (NAME_MAX <? longest_name (slash cwd target))%nat
       then inl "File name too long"
       else fs_chdir fs cwd target |}.

Fixpoint replicate (n : nat) (c : ascii) : string :=
  match n with
  | O => EmptyString
  | S n' => String c (replicate n' c)
  end.

(** A file name of 256 characters, each of them path-safe. *)
Definition long_name : string := replicate 256 "a".

(** ** Shell::Shell

    The constructor adds the initial directory to the history; the
    set-up of the line editor is outside the model. *)
Definition Shell_new (cwd : path) : shell :=
  mk_shell cwd
           (DirectoryHistory.add (path_string cwd) DirectoryHistory.empty)
           [].

(** ** Tokenising the transformed line

    [strdup(transformed_line.c_str())] copies the line as a C string, up
    to its first NUL; the [strtok] loop with the delimiter [" "] then cuts
    it into the runs of characters other than the space. *)
Definition NUL : ascii := ascii_of_nat 0.

Fixpoint c_str (s : string) : string :=
  match s with
  | "" => ""
  | String c rest => if Ascii.eqb c NUL then "" else String c (c_str rest)
  end.

(** [token] is the part already read of the token being read. *)
Fixpoint strtok_loop (token : string) (s : string) : list string :=
  match s with
  | "" =>
      match token with
      | "" => []
      | _ => [token]
      end
  | String c rest =>
      if Ascii.eqb c " " then
        match token with
        | "" => strtok_loop "" rest
        | _ => token :: strtok_loop "" rest
        end
      else strtok_loop (token ++ String c "") rest
  end.

Definition tokenize (line : string) : list string :=
  strtok_loop "" (c_str line).

(** A string with its spaces taken out. *)
Fixpoint without_spaces (s : string) : string :=
  match s with
  | "" => ""
  | String c rest =>
      if Ascii.eqb c " " then without_spaces rest
      else String c (without_spaces rest)
  end.

Fixpoint contains (c : ascii) (s : string) : bool :=
  match s with
  | "" => false
  | String d rest => Ascii.eqb d c || contains c rest
  end.

(** ** Shell::add_custom_command and the commands of [main]

    A handler is a closure over the shell: it takes the arguments and the
    state of the shell, and returns or throws, leaving a state; [None] is
    undefined behaviour, as before.  [custom_commands] is the map from
    names to handlers, one entry for a name. *)
Definition handler : Type :=
  list string -> shell -> option (result unit * shell).

Definition custom_commands_t : Type := list (string * handler).

(** [custom_commands[name] = func] *)
Definition add_custom_command (name : string) (func : handler)
    (custom_commands : custom_commands_t) : custom_commands_t :=
  (name, func) ::
  filter (fun entry => negb (String.eqb (fst entry) name)) custom_commands.

(** [custom_commands.find(command)] *)
Definition find_custom_command (command : string)
    (custom_commands : custom_commands_t) : option handler :=
  match find (fun entry => String.eqb (fst entry) command) custom_commands
  with
  | Some entry => Some (snd entry)
  | None => None
  end.

Definition print (e : event) (sh : shell) : shell :=
  mk_shell (working_directory sh) (dir_history sh) (console sh ++ [e]).

Section MainCommands.

Variable fs : filesystem.

(** The lambda registered as [bk]. *)
Definition bk : handler := fun _ sh =>
  match DirectoryHistory.back (dir_history sh) with
  | None => None
  | Some (Ret prev_dir, h) =>
      let (changed, sh') :=
        change_directory fs prev_dir false
          (mk_shell (working_directory sh) h (console sh)) in
      if changed then
        Some (Ret tt, print (Stdout ("Navigated back to: " ++ prev_dir)) sh')
      else Some (Ret tt, print (Stderr "Failed to navigate back") sh')
  | Some (Throw e, h) =>
      Some (Ret tt,
            print (Stderr ("Cannot go back: " ++ what e))
                  (mk_shell (working_directory sh) h (console sh)))
  end.

(** The lambda registered as [fw]. *)
Definition fw : handler := fun _ sh =>
  match DirectoryHistory.forward (dir_history sh) with
  | None => None
  | Some (Ret next_dir, h) =>
      let (changed, sh') :=
        change_directory fs next_dir false
          (mk_shell (working_directory sh) h (console sh)) in
      if changed then
        Some (Ret tt,
              print (Stdout ("Navigated forward to: " ++ next_dir)) sh')
      else Some (Ret tt, print (Stderr "Failed to navigate forward") sh')
  | Some (Throw e, h) =>
      Some (Ret tt,
            print (Stderr ("Cannot go forward: " ++ what e))
                  (mk_shell (working_directory sh) h (console sh)))
  end.

(** The commands [main] registers, in its order. *)
Definition main_commands : custom_commands_t :=
  add_custom_command "fw" fw (add_custom_command "bk" bk []).

End MainCommands.

(** ** Shell::run

    What [fork], [execvp] and [waitpid] come to for the shell: the fork
    fails, or the child fails to execute the program, or the child runs;
    the child writes to the streams it inherits.  Nothing else of the
    shell is touched: the child is another process. *)
Inductive spawned : Type :=
| fork_failed (msg : string)
| execvp_failed (msg : string)
| child_ran (output : list event).

(** The state of a session: the shell and the lines given to
    [add_history]. *)
Record session : Type := mk_session {
  the_shell : shell;
  input_history : list string
}.

Inductive iteration : Type :=
| Continue (s : session)
| Break (s : session).

(** What the loop meets at its head: [fs::current_path()] throws while
    the prompt is put together (line 189), or the prompt is shown and
    [readline] returns a line (line 190).  Where the turns end the input
    ends: the prompt is shown and [readline] returns a null pointer. *)
Inductive turn : Type :=
| readline_returns (input_line : string)
| current_path_throws (msg : string).

(** How [run] ends: it returns, or an exception leaves it.  [main] has no
    handler, so the process is terminated then; [s] is the state the
    shell was in. *)
Inductive ending : Type :=
| Returned (s : session)
| Terminated (e : exn) (s : session).

Definition final_session (e : ending) : session :=
  match e with
  | Returned s => s
  | Terminated _ s => s
  end.

Definition session_of (it : iteration) : session :=
  match it with
  | Continue s => s
  | Break s => s
  end.

(** The separator of the [[Transformed]] line as the source file has it,
    an arrow in UTF-8 between two spaces. *)
Definition arrow : string :=
  " " ++ String (ascii_of_nat 226) (String (ascii_of_nat 134)
           (String (ascii_of_nat 146) "")) ++ " ".

Section Run.

Variable fs : filesystem.
Variable spawn : path -> list string -> spawned.
Variable home : option string.                   (* getenv("HOME") *)
Variable custom_commands : custom_commands_t.

(** The part of the loop body after the tokens are known. *)
Definition dispatch (args : list string) (sh : shell) (lines : list string)
  : option iteration :=
  match args with
  | [] => Some (Continue (mk_session sh lines))
  | command :: _ =>
      match find_custom_command command custom_commands with
      | Some func =>
          match func args sh with
          | None => None
          | Some (Ret _, sh') => Some (Continue (mk_session sh' lines))
          | Some (Throw e, sh') =>
              Some (Continue
                      (mk_session (print (Stderr ("Error: " ++ what e)) sh')
                                  lines))
          end
      | None =>
          if String.eqb command "cd" then
            match run_cd fs args home sh with
            | Some sh' => Some (Continue (mk_session sh' lines))
            | None => None
            end
          else if String.eqb command "exit" then
            Some (Break (mk_session sh lines))
          else
            match spawn (working_directory sh) args with
            | fork_failed msg =>
                Some (Continue
                        (mk_session
                           (print (Stderr ("fork failed: " ++ msg)) sh) lines))
            | execvp_failed msg =>
                Some (Continue
                        (mk_session
                           (print (Stderr ("execvp failed: " ++ msg)) sh)
                           lines))
            | child_ran output =>
                Some (Continue
                        (mk_session
                           (mk_shell (working_directory sh) (dir_history sh)
                                     (console sh ++ output))
                           lines))
            end
      end
  end.

(** One turn of the loop on a line that [readline] returned. *)
Definition run_line (input_line : string) (s : session) : option iteration :=
  match input_line with
  | "" => Some (Continue s)
  | _ =>
      let lines := (input_history s ++ [input_line])%list in
      let sh := the_shell s in
      match transform_command fs (working_directory sh) input_line with
      | None => None
      | Some (transformed_line, events) =>
          let sh :=
            mk_shell (working_directory sh) (dir_history sh)
                     (console sh ++ events) in
          let sh :=
            if String.eqb transformed_line input_line then sh
            else print (Stdout ("[Transformed] " ++ input_line ++ arrow ++
                                transformed_line)) sh in
          dispatch (tokenize transformed_line) sh lines
      end
  end.

Definition exiting (s : session) : session :=
  mk_session (print (Stdout "Exiting tbsh.") (the_shell s)) (input_history s).

(** The loop, turn by turn, and the statement after it.  The
    [filesystem_error] of [fs::current_path()] at the head of the loop is
    outside every [try]: it ends [run] where it is thrown. *)
Fixpoint run (inputs : list turn) (s : session) : option ending :=
  match inputs with
  | [] =>
      Some (Returned
              (exiting (mk_session (print (Stdout "") (the_shell s))
                                   (input_history s))))
  | current_path_throws msg :: _ =>
      Some (Terminated (filesystem_error msg) s)
  | readline_returns input_line :: inputs' =>
      match run_line input_line s with
      | None => None
      | Some (Break s') => Some (Returned (exiting s'))
      | Some (Continue s') => run inputs' s'
      end
  end.

(** The loop takes the lines one after the other and none of them ends
    it. *)
Inductive reads : list string -> session -> session -> Prop :=
| reads_nil s : reads [] s s
| reads_cons line lines s s' s'' :
    run_line line s = Some (Continue s') ->
    reads lines s' s'' ->
    reads (line :: lines) s s''.

End Run.

(** [main]: a new shell, the two commands, the loop.  [cwd] is the
    directory [fs::current_path()] gives the constructor. *)
Definition main (fs : filesystem) (spawn : path -> list string -> spawned)
    (home : option string) (cwd : path) (inputs : list turn)
  : option ending :=
  run fs spawn home (main_commands fs) inputs
      (mk_session (Shell_new cwd) []).

(** The lines the line editor is to keep: those that are not empty. *)
Definition typed (lines : list string) : list string :=
  filter (fun l => negb (String.eqb l "")) lines.

(** The lines of a console that went to [std::cerr]. *)
Definition stderr_lines (events : list event) : list string :=
  flat_map (fun e => match e with
                     | Stderr line => [line]
                     | Stdout _ => []
                     end) events.

(** The diagnostic of one directive: the [[find error]] line when its
    search throws, nothing when it returns. *)
Definition diagnostic (fs : filesystem) (cwd : path) (m : smatch)
  : list string :=
  match find_path fs cwd (direction m) (path_pattern m) with
  | Some (Throw e, _) => ["[find error] " ++ what e]
  | _ => []
  end.

(** One match ends where the next begins, or before. *)
Definition precedes (m1 m2 : smatch) : Prop :=
  (position m1 + length0 m1 <= position m2)%nat.

(** * Proofs *)

(** ** 64-bit arithmetic *)

Lemma wrap_small (z : Z) : 0 <= z < size_t_modulus -> wrap z = z.
Proof. intros H. unfold wrap. apply Z.mod_small. exact H. Qed.

Lemma wrap_range (z : Z) : 0 <= wrap z < size_t_modulus.
Proof. unfold wrap, size_t_modulus. apply Z.mod_pos_bound. lia. Qed.

Lemma wrap_le (z : Z) : 0 <= z -> wrap z <= z.
Proof. intros H. unfold wrap, size_t_modulus. apply Z.mod_le; lia. Qed.

Lemma wrap_wrap_pred (z : Z) : wrap (wrap z - 1) = wrap (z - 1).
Proof.
  unfold wrap, size_t_modulus.
  rewrite Zminus_mod_idemp_l. reflexivity.
Qed.

(** ** DirectoryHistory *)

Module HistoryFacts.
Import DirectoryHistory.

Lemma differs_from_back_snoc (l : list string) (p q : string) :
  differs_from_back (l ++ [p]) q = negb (String.eqb p q).
Proof.
  unfold differs_from_back.
  destruct (l ++ [p])%list eqn:E.
  - destruct l; discriminate.
  - rewrite <- E, last_last. reflexivity.
Qed.

Lemma add_new (p : string) (h : t) :
  differs_from_back (history h) p = true ->
  add p h = {| history := history h ++ [p];
               current_index := wrap (Z.of_nat (List.length (history h))) |}.
Proof.
  intros H. unfold add. rewrite H. cbv zeta. f_equal.
  unfold size. rewrite wrap_wrap_pred, length_app. simpl.
  f_equal. lia.
Qed.

Lemma add_same (p : string) (h : t) :
  differs_from_back (history h) p = false -> add p h = h.
Proof. intros H. unfold add. rewrite H. reflexivity. Qed.

Lemma add_valid (p : string) (h : t) : valid h -> valid (add p h).
Proof.
  intros [Hne Hidx].
  destruct (differs_from_back (history h) p) eqn:E.
  - rewrite (add_new _ _ E). split; simpl.
    + destruct (history h); discriminate.
    + rewrite length_app. simpl.
      pose proof (wrap_range (Z.of_nat (List.length (history h)))).
      pose proof (wrap_le (Z.of_nat (List.length (history h)))).
      lia.
  - rewrite (add_same _ _ E). split; assumption.
Qed.

Lemma seeded_eq (p0 : string) :
  seeded p0 = {| history := [p0]; current_index := 0 |}.
Proof. reflexivity. Qed.

Lemma back_history (h : t) r h' :
  back h = Some (r, h') -> history h' = history h.
Proof.
  unfold back. destruct (0 <? current_index h).
  - cbv zeta. simpl. destruct (at_index _ _); intros H; inversion H.
    reflexivity.
  - intros H; inversion H. reflexivity.
Qed.

Lemma forward_history (h : t) r h' :
  forward h = Some (r, h') -> history h' = history h.
Proof.
  unfold forward. destruct (current_index h <? _).
  - cbv zeta. simpl. destruct (at_index _ _); intros H; inversion H.
    reflexivity.
  - intros H; inversion H. reflexivity.
Qed.

Lemma at_index_defined (l : list string) (i : Z) :
  0 <= i < Z.of_nat (List.length l) -> exists s, at_index l i = Some s.
Proof.
  intros H. unfold at_index.
  destruct (nth_error l (Z.to_nat i)) eqn:E.
  - eauto.
  - apply nth_error_None in E. lia.
Qed.

(** [back] on a valid state: the cursor either moves one step towards
    the front and stays an index, or the call throws and nothing moves. *)
Lemma back_valid (h : t) :
  valid h ->
  exists r h', back h = Some (r, h') /\ valid h'.
Proof.
  intros [Hne Hidx]. unfold back.
  destruct (0 <? current_index h) eqn:E.
  - apply Z.ltb_lt in E. cbv zeta. simpl.
    destruct (at_index_defined (history h) (wrap (current_index h - 1)))
      as [s Hs].
    { pose proof (wrap_le (current_index h - 1)).
      pose proof (wrap_range (current_index h - 1)). lia. }
    rewrite Hs. eexists _, _. split; [reflexivity|].
    split; simpl; [assumption|].
    pose proof (wrap_le (current_index h - 1)).
    pose proof (wrap_range (current_index h - 1)). lia.
  - eexists _, _. split; [reflexivity|]. split; assumption.
Qed.

Lemma forward_valid (h : t) :
  valid h ->
  exists r h', forward h = Some (r, h') /\ valid h'.
Proof.
  intros [Hne Hidx]. unfold forward.
  destruct (current_index h <? wrap (size (history h) - 1)) eqn:E.
  - apply Z.ltb_lt in E. cbv zeta. simpl.
    unfold size in E. rewrite wrap_wrap_pred in E.
    pose proof (wrap_le (Z.of_nat (List.length (history h)) - 1)) as Hle.
    pose proof (wrap_range (Z.of_nat (List.length (history h)) - 1)) as Hr.
    assert (Hw : wrap (current_index h + 1) = current_index h + 1).
    { apply wrap_small. lia. }
    rewrite Hw.
    destruct (at_index_defined (history h) (current_index h + 1))
      as [s Hs]; [lia|].
    rewrite Hs. eexists _, _. split; [reflexivity|].
    split; simpl; [assumption|lia].
  - eexists _, _. split; [reflexivity|]. split; assumption.
Qed.

Lemma reachable_valid (p0 : string) (h : t) : reachable p0 h -> valid h.
Proof.
  induction 1 as [|p h _ IH|h r h' _ IH Hb|h r h' _ IH Hf].
  - rewrite seeded_eq. split; simpl; [discriminate|lia].
  - apply add_valid, IH.
  - destruct (back_valid h IH) as (r0 & h0 & Hb0 & Hv).
    rewrite Hb0 in Hb. inversion Hb; subst. exact Hv.
  - destruct (forward_valid h IH) as (r0 & h0 & Hf0 & Hv).
    rewrite Hf0 in Hf. inversion Hf; subst. exact Hv.
Qed.

Lemma no_consecutive_duplicates_snoc (l : list string) (p : string) :
  no_consecutive_duplicates l ->
  differs_from_back l p = true ->
  no_consecutive_duplicates (l ++ [p]).
Proof.
  induction l as [|x l IH]; intros Hl Hd.
  - exact I.
  - destruct l as [|y l'].
    + simpl in *. split; [|exact I].
      apply negb_true_iff, String.eqb_neq in Hd. exact Hd.
    + destruct Hl as [Hxy Hl]. split; [exact Hxy|].
      apply IH; [exact Hl|].
      unfold differs_from_back in *. simpl in *. exact Hd.
Qed.

Lemma reachable_no_consecutive_duplicates (p0 : string) (h : t) :
  reachable p0 h -> no_consecutive_duplicates (history h).
Proof.
  induction 1 as [|p h _ IH|h r h' _ IH Hb|h r h' _ IH Hf].
  - exact I.
  - destruct (differs_from_back (history h) p) eqn:E.
    + rewrite (add_new _ _ E). simpl.
      apply no_consecutive_duplicates_snoc; assumption.
    + rewrite (add_same _ _ E). exact IH.
  - rewrite (back_history _ _ _ Hb). exact IH.
  - rewrite (forward_history _ _ _ Hf). exact IH.
Qed.

Lemma add_add (p : string) (h : t) : add p (add p h) = add p h.
Proof.
  destruct (differs_from_back (history h) p) eqn:E.
  - rewrite (add_new _ _ E). apply add_same. simpl.
    rewrite differs_from_back_snoc, String.eqb_refl. reflexivity.
  - rewrite (add_same _ _ E). apply add_same, E.
Qed.

End HistoryFacts.

(** ** Paths *)

Lemma path_eqb_root (p : path) : path_eqb p (root_path p) = true <-> p = [].
Proof.
  unfold path_eqb, root_path.
  destruct (list_eq_dec string_dec p []); split; congruence.
Qed.

Lemma firstn_removelast {A : Type} (k : nat) (l : list A) :
  (k < List.length l)%nat -> firstn k (removelast l) = firstn k l.
Proof.
  intros H. rewrite removelast_firstn_len, firstn_firstn.
  f_equal. lia.
Qed.

Lemma length_removelast_S {A : Type} (l : list A) :
  l <> [] -> List.length l = S (List.length (removelast l)).
Proof.
  intros Hne. destruct l as [|x l]; [contradiction|].
  rewrite (app_removelast_last x (l := x :: l)) at 1 by discriminate.
  rewrite length_app. simpl. lia.
Qed.

Lemma ancestors_root : ancestors [] = [[]].
Proof. reflexivity. Qed.

Lemma ancestors_step (d : path) :
  d <> [] -> ancestors d = d :: ancestors (parent_path d).
Proof.
  intros Hne. unfold ancestors, parent_path.
  pose proof (length_removelast_S d Hne) as Hlen.
  rewrite seq_S, rev_app_distr.
  change (rev [(0 + List.length d)%nat]) with [List.length d].
  change ([List.length d] ++ rev (seq 0 (List.length d)))%list
    with (List.length d :: rev (seq 0 (List.length d))).
  rewrite map_cons, firstn_all. apply f_equal.
  rewrite <- Hlen. apply map_ext_in. intros k Hk.
  apply in_rev, in_seq in Hk.
  symmetry. apply firstn_removelast. lia.
Qed.

Lemma root_in_ancestors (d : path) : In [] (ancestors d).
Proof.
  unfold ancestors. apply in_map_iff. exists 0%nat. split.
  - reflexivity.
  - apply in_rev. rewrite rev_involutive. apply in_seq. lia.
Qed.

(** ** upfind *)

(** The loop asks for the name at the ancestors of the start directory,
    nearest first and the root last, and stops at the first answer that is
    not "no"; the fuel [upfind] gives it is enough. *)
Lemma upfind_loop_first_answer (fs : filesystem) (name : string)
    (start : path) :
  forall (fuel : nat) (current : path),
    (List.length current < fuel)%nat ->
    upfind_loop fs name start fuel current =
    Some (first_answer fs name start (ancestors current)).
Proof.
  induction fuel as [|fuel IH]; intros current Hlen; [lia|].
  simpl upfind_loop.
  destruct (list_eq_dec string_dec current []) as [Eroot|Hne].
  - subst current. rewrite ancestors_root. simpl first_answer.
    unfold directory_at.
    destruct (exists_and_is_directory fs (slash [] name)) as [msg|[|]];
      reflexivity.
  - rewrite (ancestors_step current Hne). simpl first_answer.
    unfold directory_at at 1.
    destruct (exists_and_is_directory fs (slash current name))
      as [msg|[|]]; [reflexivity|reflexivity|].
    destruct (path_eqb current (root_path current)) eqn:Eroot.
    + apply path_eqb_root in Eroot. contradiction.
    + apply IH. unfold parent_path.
      pose proof (length_removelast_S current Hne). lia.
Qed.

Lemma upfind_first_answer (fs : filesystem) (name : string) (start : path) :
  upfind fs name start =
  Some (first_answer fs name start (ancestors start)).
Proof. unfold upfind, absolute. apply upfind_loop_first_answer. lia. Qed.

Lemma first_answer_skip (fs : filesystem) (name : string) (start : path)
    (pre rest : list path) :
  (forall b, In b pre -> directory_at fs b name = inr false) ->
  first_answer fs name start (pre ++ rest) = first_answer fs name start rest.
Proof.
  induction pre as [|b pre IH]; intros Hpre; simpl; [reflexivity|].
  rewrite (Hpre b (or_introl eq_refl)). apply IH.
  intros c Hc. apply Hpre. right. exact Hc.
Qed.

Lemma first_answer_none (fs : filesystem) (name : string) (start : path)
    (l : list path) :
  (forall b, In b l -> directory_at fs b name = inr false) ->
  first_answer fs name start l = Throw (upfind_not_found name start).
Proof.
  intros H. rewrite <- (app_nil_r l). rewrite (first_answer_skip _ _ _ _ _ H).
  reflexivity.
Qed.

(** What [first_answer] gives tells which answer ended it. *)
Lemma first_answer_inv (fs : filesystem) (name : string) (start : path)
    (l : list path) :
  (exists pre a post,
     l = (pre ++ a :: post)%list /\
     (forall b, In b pre -> directory_at fs b name = inr false) /\
     ((directory_at fs a name = inr true /\
       first_answer fs name start l = Ret (slash a name)) \/
      (exists msg, directory_at fs a name = inl msg /\
       first_answer fs name start l = Throw (filesystem_error msg)))) \/
  ((forall b, In b l -> directory_at fs b name = inr false) /\
   first_answer fs name start l = Throw (upfind_not_found name start)).
Proof.
  induction l as [|a l IH].
  - right. split; [intros b []|reflexivity].
  - simpl first_answer.
    destruct (directory_at fs a name) as [msg|[|]] eqn:Ea.
    + left. exists [], a, l. split; [reflexivity|].
      split; [intros b []|]. right. exists msg. split; [exact Ea|reflexivity].
    + left. exists [], a, l. split; [reflexivity|].
      split; [intros b []|]. left. split; [exact Ea|reflexivity].
    + destruct IH as [(pre & a' & post & Hl & Hpre & Hcase)|[Hall Hr]].
      * left. exists (a :: pre), a', post.
        split; [rewrite Hl; reflexivity|].
        split; [|exact Hcase].
        intros b [Hb|Hb]; [subst b; exact Ea|apply Hpre, Hb].
      * right. split; [|exact Hr].
        intros b [Hb|Hb]; [subst b; exact Ea|apply Hall, Hb].
Qed.

(** ** downfind: the loop over one directory *)

Section DownfindLoops.

Variable fs : filesystem.
Variable pat : string.
Variable start : path.
Variable limit : Z.
Hypothesis limit_size_t : 0 <= limit < size_t_modulus.

Let no_match := Forall (fun e => matches pat start e = false).

Lemma printed_lines_app (es1 es2 : list directory_entry) :
  printed_lines pat start (es1 ++ es2) =
  (printed_lines pat start es1 ++ printed_lines pat start es2)%list.
Proof. unfold printed_lines. rewrite filter_app, map_app. reflexivity. Qed.

Lemma subdirectories_app (es1 es2 : list directory_entry) :
  subdirectories (es1 ++ es2) =
  (subdirectories es1 ++ subdirectories es2)%list.
Proof. unfold subdirectories. rewrite filter_app, map_app. reflexivity. Qed.

Lemma printed_lines_cons (e : directory_entry) (es : list directory_entry) :
  printed_lines pat start (e :: es) =
  (printed_lines pat start [e] ++ printed_lines pat start es)%list.
Proof. apply (printed_lines_app [e] es). Qed.

Lemma subdirectories_cons (e : directory_entry) (es : list directory_entry) :
  subdirectories (e :: es) = (subdirectories [e] ++ subdirectories es)%list.
Proof. apply (subdirectories_app [e] es). Qed.

Lemma subdirectories_length (es : list directory_entry) :
  (List.length (subdirectories es) <= List.length es)%nat.
Proof. unfold subdirectories. rewrite length_map. apply filter_length_le. Qed.

(** One iteration of the [for] loop, by what the entry is. *)
Lemma for_each_entry_cons (e : directory_entry) (es : list directory_entry)
    (c : Z) (q : list path) (out : list string) :
  for_each_entry pat start limit (e :: es) c q out =
  let out' := (out ++ printed_lines pat start [e])%list in
  if matches pat start e then
    Exited (mk_downfind_result (Ret (path_string (entry_path e))) c out')
  else if limit <=? wrap (c + 1) then
    Exited (mk_downfind_result (Throw search_limit_reached)
                               (wrap (c + 1)) out')
  else for_each_entry pat start limit es (wrap (c + 1))
                      (q ++ subdirectories [e]) out'.
Proof.
  unfold matches, printed_lines, subdirectories. simpl.
  destruct (entry_is_directory e); simpl.
  - rewrite app_nil_r. reflexivity.
  - rewrite app_nil_r.
    destruct (ends_with (relative_string (entry_path e) start) pat);
      reflexivity.
Qed.

(** No match and budget to spare: the loop runs to its end, counts
    every entry and queues every subdirectory. *)
Lemma for_each_entry_completed (es : list directory_entry) :
  forall (c : Z) (q : list path) (out : list string),
    0 <= c -> no_match es ->
    c + Z.of_nat (List.length es) < limit ->
    for_each_entry pat start limit es c q out =
    Completed (c + Z.of_nat (List.length es))
              (q ++ subdirectories es)
              (out ++ printed_lines pat start es).
Proof.
  induction es as [|e es IH]; intros c q out Hc Hno Hlt.
  - simpl. rewrite Z.add_0_r, !app_nil_r. reflexivity.
  - rewrite for_each_entry_cons. cbv zeta.
    inversion Hno as [|? ? He Hes]; subst. rewrite He.
    simpl List.length in Hlt.
    assert (Hw : wrap (c + 1) = c + 1) by (apply wrap_small; lia).
    rewrite Hw.
    destruct (limit <=? c + 1) eqn:E; [apply Z.leb_le in E; lia|].
    rewrite IH by (try assumption; lia).
    rewrite (subdirectories_cons e es), (printed_lines_cons e es),
      <- !app_assoc.
    replace (c + Z.of_nat (List.length (e :: es)))
      with (c + 1 + Z.of_nat (List.length es))
      by (simpl List.length; lia).
    reflexivity.
Qed.

(** The first match within the budget ends the loop: its path is
    returned and [search_count] counts the entries before it only. *)
Lemma for_each_entry_found (pre : list directory_entry) :
  forall (e : directory_entry) (post : list directory_entry)
         (c : Z) (q : list path) (out : list string),
    0 <= c -> no_match pre -> matches pat start e = true ->
    c + Z.of_nat (List.length pre) < limit ->
    for_each_entry pat start limit (pre ++ e :: post) c q out =
    Exited (mk_downfind_result
              (Ret (path_string (entry_path e)))
              (c + Z.of_nat (List.length pre))
              (out ++ printed_lines pat start (pre ++ [e]))).
Proof.
  induction pre as [|x pre IH]; intros e post c q out Hc Hno He Hlt.
  - simpl app. rewrite for_each_entry_cons. cbv zeta. rewrite He.
    simpl. rewrite Z.add_0_r. reflexivity.
  - simpl app. rewrite for_each_entry_cons. cbv zeta.
    inversion Hno as [|? ? Hx Hpre]; subst. rewrite Hx.
    simpl List.length in Hlt.
    assert (Hw : wrap (c + 1) = c + 1) by (apply wrap_small; lia).
    rewrite Hw.
    destruct (limit <=? c + 1) eqn:E; [apply Z.leb_le in E; lia|].
    rewrite IH by (try assumption; lia).
    simpl app. rewrite (printed_lines_cons x (pre ++ [e])), <- app_assoc.
    replace (c + Z.of_nat (List.length (x :: pre)))
      with (c + 1 + Z.of_nat (List.length pre))
      by (simpl List.length; lia).
    reflexivity.
Qed.

(** As many non-matching entries as budget is left: the loop throws
    when the count reaches the limit, on the entry that uses the last
    unit. *)
Lemma for_each_entry_limit (es : list directory_entry) :
  forall (c : Z) (q : list path) (out : list string),
    0 <= c < limit ->
    limit - c <= Z.of_nat (List.length es) ->
    no_match (firstn (Z.to_nat (limit - c)) es) ->
    for_each_entry pat start limit es c q out =
    Exited (mk_downfind_result
              (Throw search_limit_reached) limit
              (out ++ printed_lines pat start
                        (firstn (Z.to_nat (limit - c)) es))).
Proof.
  induction es as [|e es IH]; intros c q out Hc Hlen Hno.
  - simpl in Hlen. lia.
  - rewrite for_each_entry_cons. cbv zeta.
    assert (Hk : Z.to_nat (limit - c) = S (Z.to_nat (limit - (c + 1))))
      by lia.
    rewrite Hk in *. simpl firstn in *.
    inversion Hno as [|? ? He Hes]; subst. rewrite He.
    assert (Hw : wrap (c + 1) = c + 1) by (apply wrap_small; lia).
    rewrite Hw.
    destruct (limit <=? c + 1) eqn:E.
    + apply Z.leb_le in E. assert (limit = c + 1) by lia. subst limit.
      replace (c + 1 - (c + 1)) with 0 by lia. simpl. reflexivity.
    + apply Z.leb_gt in E. simpl List.length in Hlen.
      rewrite IH by (try assumption; lia).
      rewrite (printed_lines_cons e (firstn _ es)), <- app_assoc.
      reflexivity.
Qed.

End DownfindLoops.

(** ** downfind: the loop over the queue *)

Section DownfindSearch.

Variable fs : filesystem.
Variable pat : string.
Variable start : path.
Variable limit : Z.
Hypothesis limit_size_t : 0 <= limit < size_t_modulus.

Let no_match := Forall (fun e => matches pat start e = false).

Lemma app_eq_app_cons {A : Type} (es rest pre post : list A) (e : A) :
  (es ++ rest = pre ++ e :: post)%list ->
  (exists post', es = pre ++ e :: post')%list \/
  (exists pre', pre = es ++ pre' /\ rest = pre' ++ e :: post)%list.
Proof.
  intros H. apply app_eq_app in H. destruct H as [l [[H1 H2]|[H1 H2]]].
  - destruct l as [|x l].
    + right. exists []. rewrite app_nil_r in H1. subst.
      rewrite app_nil_r. split; [reflexivity|]. symmetry. exact H2.
    + left. simpl in H2. inversion H2; subst. exists l. reflexivity.
  - right. exists l. split; assumption.
Qed.

Lemma while_directories_step (fuel : nat) (c : Z) (dir : path)
    (q : list path) (out : list string) :
  c < limit ->
  while_directories fs pat start limit (S fuel) c (dir :: q) out =
  match directory_iterator fs dir with
  | inl msg =>
      Some (mk_downfind_result (Throw (filesystem_error msg)) c out)
  | inr entries =>
      match for_each_entry pat start limit entries c q out with
      | Exited r => Some r
      | Completed c' q' out' =>
          while_directories fs pat start limit fuel c' q' out'
      end
  end.
Proof.
  intros Hlt. simpl. apply Z.ltb_lt in Hlt. rewrite Hlt. reflexivity.
Qed.

(** The first match in breadth-first order, when fewer entries than the
    budget come before it, is what the search returns. *)
Lemma while_directories_found (efuel : nat) :
  forall (q : list path) (c : Z) (out : list string) (dfuel : nat)
         (pre : list directory_entry) (e : directory_entry)
         (post : list directory_entry),
    0 <= c ->
    bfs_order fs efuel q = (pre ++ e :: post)%list ->
    no_match pre -> matches pat start e = true ->
    c + Z.of_nat (List.length pre) < limit ->
    (List.length q + Z.to_nat (limit - c) <= S dfuel)%nat ->
    while_directories fs pat start limit dfuel c q out =
    Some (mk_downfind_result
            (Ret (path_string (entry_path e)))
            (c + Z.of_nat (List.length pre))
            (out ++ printed_lines pat start (pre ++ [e]))).
Proof.
  induction efuel as [|efuel IH];
    intros q c out dfuel pre e post Hc Hbfs Hno He Hlt Hfuel.
  - simpl in Hbfs. destruct pre; discriminate.
  - simpl in Hbfs. destruct q as [|dir q]; [destruct pre; discriminate|].
    destruct dfuel as [|dfuel]; [simpl in Hfuel; lia|].
    rewrite while_directories_step by lia.
    destruct (directory_iterator fs dir) as [msg|es];
      [destruct pre; discriminate|].
    apply app_eq_app_cons in Hbfs.
    destruct Hbfs as [[post' Hes]|[pre' [Hpre Hrest]]].
    + subst es.
      rewrite (for_each_entry_found pat start limit limit_size_t)
        by assumption.
      reflexivity.
    + subst pre. apply Forall_app in Hno. destruct Hno as [Hno1 Hno2].
      rewrite length_app, Nat2Z.inj_add in Hlt.
      rewrite (for_each_entry_completed pat start limit limit_size_t)
        by (try assumption; lia).
      rewrite (IH _ _ _ dfuel pre' e post); try assumption; try lia.
      * rewrite length_app, Nat2Z.inj_add, Z.add_assoc.
        rewrite <- (app_assoc es pre' [e]).
        rewrite (printed_lines_app pat start es (pre' ++ [e])).
        rewrite <- app_assoc. reflexivity.
      * rewrite length_app. simpl in Hfuel.
        pose proof (subdirectories_length es). lia.
Qed.

(** When the first [limit - c] entries in breadth-first order exist and
    none of them matches, the search throws the limit error with
    [search_count = limit]. *)
Lemma while_directories_limit (efuel : nat) :
  forall (q : list path) (c : Z) (out : list string) (dfuel : nat),
    0 <= c < limit ->
    limit - c <= Z.of_nat (List.length (bfs_order fs efuel q)) ->
    no_match (firstn (Z.to_nat (limit - c)) (bfs_order fs efuel q)) ->
    (List.length q + Z.to_nat (limit - c) <= S dfuel)%nat ->
    while_directories fs pat start limit dfuel c q out =
    Some (mk_downfind_result
            (Throw search_limit_reached) limit
            (out ++ printed_lines pat start
                      (firstn (Z.to_nat (limit - c))
                              (bfs_order fs efuel q)))).
Proof.
  induction efuel as [|efuel IH]; intros q c out dfuel Hc Hlen Hno Hfuel.
  - simpl in Hlen. lia.
  - simpl bfs_order in Hlen, Hno |- *.
    destruct q as [|dir q]; [simpl in Hlen; lia|].
    destruct dfuel as [|dfuel]; [simpl in Hfuel; lia|].
    rewrite while_directories_step by lia.
    destruct (directory_iterator fs dir) as [msg|es];
      [simpl in Hlen; lia|].
    destruct (Z_le_gt_dec (limit - c) (Z.of_nat (List.length es)))
      as [Hle|Hgt].
    + rewrite firstn_app in Hno |- *.
      replace (Z.to_nat (limit - c) - List.length es)%nat with 0%nat
        in Hno |- * by lia.
      simpl firstn in Hno |- *. rewrite app_nil_r in Hno |- *.
      rewrite (for_each_entry_limit pat start limit limit_size_t)
        by assumption.
      reflexivity.
    + rewrite firstn_app in Hno |- *.
      rewrite firstn_all2 in Hno |- * by lia.
      apply Forall_app in Hno. destruct Hno as [Hno1 Hno2].
      rewrite length_app, Nat2Z.inj_add in Hlen.
      rewrite (for_each_entry_completed pat start limit limit_size_t)
        by (try assumption; lia).
      replace (Z.to_nat (limit - c) - List.length es)%nat
        with (Z.to_nat (limit - (c + Z.of_nat (List.length es))))
        in Hno2 |- * by lia.
      rewrite (IH _ _ _ dfuel); try assumption; try lia.
      * rewrite (printed_lines_app pat start), <- app_assoc. reflexivity.
      * rewrite length_app. simpl in Hfuel.
        pose proof (subdirectories_length es). lia.
Qed.

End DownfindSearch.

(** ** downfind: termination and the whole search *)

Section DownfindTotal.

Variable fs : filesystem.
Variable pat : string.
Variable start : path.
Variable limit : Z.
Hypothesis limit_size_t : 0 <= limit < size_t_modulus.

Lemma for_each_entry_inv (es : list directory_entry) :
  forall (c : Z) (q : list path) (out : list string) c' q' out',
    0 <= c < limit ->
    for_each_entry pat start limit es c q out = Completed c' q' out' ->
    c' = c + Z.of_nat (List.length es) /\ c' < limit /\
    q' = (q ++ subdirectories es)%list.
Proof.
  induction es as [|e es IH]; intros c q out c' q' out' Hc H.
  - simpl in H. inversion H; subst. rewrite app_nil_r.
    simpl. repeat split; lia.
  - rewrite for_each_entry_cons in H. cbv zeta in H.
    destruct (matches pat start e); [discriminate|].
    assert (Hw : wrap (c + 1) = c + 1) by (apply wrap_small; lia).
    rewrite Hw in H.
    destruct (limit <=? c + 1) eqn:E; [discriminate|].
    apply Z.leb_gt in E.
    apply IH in H; [|lia]. destruct H as (H1 & H2 & H3).
    rewrite (subdirectories_cons e es), app_assoc.
    simpl List.length. repeat split; try assumption. lia.
Qed.

(** The fuel [downfind] gives the loop is enough: every iteration that
    does not end the search takes a directory off the queue and puts
    back at most as many as it counted entries. *)
Lemma while_directories_total (dfuel : nat) :
  forall (q : list path) (c : Z) (out : list string),
    0 <= c ->
    (List.length q + Z.to_nat (limit - c) <= S dfuel)%nat ->
    exists r, while_directories fs pat start limit dfuel c q out = Some r.
Proof.
  induction dfuel as [|dfuel IH]; intros q c out Hc Hfuel.
  - destruct q as [|dir q]; simpl; [eauto|].
    destruct (c <? limit) eqn:E; [|eauto].
    apply Z.ltb_lt in E. simpl in Hfuel. lia.
  - destruct q as [|dir q]; [simpl; eauto|].
    destruct (Z_lt_ge_dec c limit) as [Hlt|Hge].
    + rewrite while_directories_step by assumption.
      destruct (directory_iterator fs dir) as [msg|es]; [eauto|].
      destruct (for_each_entry pat start limit es c q out)
        as [c' q' out'|r] eqn:E; [|eauto].
      apply (for_each_entry_inv es) in E; [|lia].
      destruct E as (H1 & H2 & H3). subst q'.
      apply IH; [lia|].
      rewrite length_app. simpl in Hfuel.
      pose proof (subdirectories_length es). lia.
    + simpl. destruct (c <? limit) eqn:E; [|eauto].
      apply Z.ltb_lt in E. lia.
Qed.

Lemma downfind_total :
  exists r, downfind fs pat start limit = Some r.
Proof.
  unfold downfind. apply while_directories_total; [lia|].
  simpl. lia.
Qed.

Lemma downfind_found (efuel : nat) (pre : list directory_entry)
    (e : directory_entry) (post : list directory_entry) :
  bfs_order fs efuel [start] = (pre ++ e :: post)%list ->
  Forall (fun x => matches pat start x = false) pre ->
  matches pat start e = true ->
  Z.of_nat (List.length pre) < limit ->
  downfind fs pat start limit =
  Some (mk_downfind_result
          (Ret (path_string (entry_path e)))
          (Z.of_nat (List.length pre))
          (printed_lines pat start (pre ++ [e]))).
Proof.
  intros Hbfs Hno He Hlt. unfold downfind, absolute.
  rewrite (while_directories_found fs pat start limit limit_size_t
             efuel _ _ _ _ pre e post); try assumption; try lia.
  - reflexivity.
  - simpl. lia.
Qed.

Lemma downfind_limit (efuel : nat) :
  1 <= limit <= Z.of_nat (List.length (bfs_order fs efuel [start])) ->
  Forall (fun x => matches pat start x = false)
         (firstn (Z.to_nat limit) (bfs_order fs efuel [start])) ->
  downfind fs pat start limit =
  Some (mk_downfind_result
          (Throw search_limit_reached) limit
          (printed_lines pat start
             (firstn (Z.to_nat limit) (bfs_order fs efuel [start])))).
Proof.
  intros Hlen Hno. unfold downfind, absolute.
  rewrite (while_directories_limit fs pat start limit limit_size_t efuel);
    rewrite ?Z.sub_0_r; try assumption; try lia.
  - reflexivity.
  - simpl. lia.
Qed.

End DownfindTotal.

(** ** Directory trees in breadth-first order *)

Section Trees.

Variable fs : filesystem.

Lemma directory_iterator_tree (dir : path) (children : list node) :
  holds_tree fs dir children ->
  directory_iterator fs dir = inr (entries_of dir children).
Proof.
  intros H. inversion H as [? ? Hread _]; subst.
  unfold directory_iterator, entries_of. rewrite Hread, map_map.
  reflexivity.
Qed.

Lemma subdirectories_entries_of (dir : path) (children : list node) :
  subdirectories (entries_of dir children) =
  map fst (child_directories dir children).
Proof.
  unfold subdirectories, entries_of, child_directories.
  induction children as [|n children IH]; [reflexivity|].
  destruct n as [name|name sub]; simpl; rewrite IH; reflexivity.
Qed.

Lemma child_directories_in (dir : path) (children : list node) p sub :
  In (p, sub) (child_directories dir children) ->
  exists name, p = (dir ++ [name])%list /\ In (Directory name sub) children.
Proof.
  unfold child_directories. intros H. apply in_flat_map in H.
  destruct H as [n [Hn Hin]]. destruct n as [name|name sub'].
  - destruct Hin.
  - destruct Hin as [Heq|[]]. inversion Heq; subst. eauto.
Qed.

Lemma total_entries_children (dir : path) (children : list node) :
  total_entries children =
  (List.length children +
   forest_entries (child_directories dir children))%nat.
Proof.
  unfold total_entries, forest_entries, child_directories.
  induction children as [|n children IH]; [reflexivity|].
  destruct n as [name|name sub]; simpl; rewrite IH.
  - reflexivity.
  - fold (total_entries sub). lia.
Qed.

Lemma child_directories_length (dir : path) (children : list node) :
  (List.length (child_directories dir children) <= List.length children)%nat.
Proof.
  unfold child_directories.
  induction children as [|n children IH]; [simpl; lia|].
  destruct n; simpl; lia.
Qed.

Lemma forest_entries_app (f1 f2 : list (path * list node)) :
  forest_entries (f1 ++ f2) = (forest_entries f1 + forest_entries f2)%nat.
Proof. unfold forest_entries. rewrite map_app, list_sum_app. reflexivity. Qed.

Lemma file_in_all_files (name : string) (children : list node) :
  In (File name) children -> In [name] (all_files children).
Proof.
  intros H. unfold all_files. apply in_concat.
  exists (files_of (File name)). split.
  - apply in_map. exact H.
  - left. reflexivity.
Qed.

Lemma below_in_all_files (name : string) (sub children : list node) r :
  In (Directory name sub) children -> In r (all_files sub) ->
  In (name :: r) (all_files children).
Proof.
  intros H Hr. unfold all_files. apply in_concat.
  exists (files_of (Directory name sub)). split.
  - apply in_map. exact H.
  - simpl. apply in_map. exact Hr.
Qed.

Lemma all_files_nonempty (children : list node) r :
  In r (all_files children) -> r <> [].
Proof.
  unfold all_files. intros H. apply in_concat in H.
  destruct H as [l [Hl Hr]]. apply in_map_iff in Hl.
  destruct Hl as [n [Hn _]]. subst l. destruct n as [name|name sub].
  - destruct Hr as [Hr|[]]. subst. discriminate.
  - simpl in Hr. apply in_map_iff in Hr. destruct Hr as [x [Hx _]].
    subst. discriminate.
Qed.

(** A traversal that starts from directories holding trees yields every
    entry of those trees, and each file it yields is a file of one of
    them. *)
Lemma bfs_order_forest (efuel : nat) :
  forall forest : list (path * list node),
    (forall p cs, In (p, cs) forest -> holds_tree fs p cs) ->
    (List.length forest + forest_entries forest <= efuel)%nat ->
    List.length (bfs_order fs efuel (map fst forest)) =
      forest_entries forest /\
    (forall e, In e (bfs_order fs efuel (map fst forest)) ->
               entry_is_directory e = false ->
               exists p cs r, In (p, cs) forest /\ In r (all_files cs) /\
                              entry_path e = (p ++ r)%list).
Proof.
  induction efuel as [|efuel IH]; intros forest Hholds Hfuel.
  - destruct forest as [|d forest]; [|simpl in Hfuel; lia].
    simpl. split; [reflexivity|]. intros e [].
  - destruct forest as [|[p cs] forest].
    + simpl. split; [reflexivity|]. intros e [].
    + simpl map. simpl bfs_order.
      rewrite (directory_iterator_tree p cs)
        by (apply Hholds; left; reflexivity).
      rewrite subdirectories_entries_of, <- map_app.
      assert (Hholds' : forall p' cs',
                 In (p', cs') (forest ++ child_directories p cs) ->
                 holds_tree fs p' cs').
      { intros p' cs' Hin. apply in_app_or in Hin. destruct Hin as [Hin|Hin].
        - apply Hholds. right. exact Hin.
        - apply child_directories_in in Hin.
          destruct Hin as [name [Hp Hin]]. subst p'.
          assert (Hpcs : holds_tree fs p cs)
            by (apply Hholds; left; reflexivity).
          inversion Hpcs as [? ? _ Hsub]; subst.
          apply (Hsub name cs' Hin). }
      assert (Hfuel' : (List.length (forest ++ child_directories p cs) +
                        forest_entries (forest ++ child_directories p cs)
                        <= efuel)%nat).
      { rewrite length_app, forest_entries_app.
        unfold forest_entries in Hfuel. simpl in Hfuel.
        fold (forest_entries forest) in Hfuel.
        rewrite (total_entries_children p cs) in Hfuel.
        pose proof (child_directories_length p cs). lia. }
      destruct (IH _ Hholds' Hfuel') as [IHlen IHfiles].
      split.
      * rewrite length_app, IHlen, forest_entries_app.
        unfold entries_of. rewrite length_map.
        unfold forest_entries at 3. simpl.
        fold (forest_entries forest).
        rewrite (total_entries_children p cs). lia.
      * intros e Hin Hfile. apply in_app_or in Hin.
        destruct Hin as [Hin|Hin].
        -- unfold entries_of in Hin. apply in_map_iff in Hin.
           destruct Hin as [n [He Hn]]. subst e. simpl in Hfile.
           destruct n as [name|name sub]; [|discriminate].
           exists p, cs, [name]. simpl. repeat split.
           ++ left. reflexivity.
           ++ apply file_in_all_files. exact Hn.
        -- destruct (IHfiles e Hin Hfile) as (p' & cs' & r & Hf & Hr & Hp).
           apply in_app_or in Hf. destruct Hf as [Hf|Hf].
           ++ exists p', cs', r. repeat split; try assumption.
              right. exact Hf.
           ++ apply child_directories_in in Hf.
              destruct Hf as [name [Hp' Hd]]. subst p'.
              exists p, cs, (name :: r). repeat split.
              ** left. reflexivity.
              ** apply (below_in_all_files name cs'); assumption.
              ** rewrite Hp, <- app_assoc. reflexivity.
Qed.

End Trees.

(** ** The traversal goes level by level *)

Section Levels.

Variable fs : filesystem.

Lemma directory_iterator_depth (dir : path) (es : list directory_entry) :
  directory_iterator fs dir = inr es ->
  Forall (fun e => depth e = S (List.length dir)) es.
Proof.
  unfold directory_iterator. destruct (fs_readdir fs (path_string dir));
    [discriminate|].
  intros H. inversion H; subst. apply Forall_forall. intros e He.
  apply in_map_iff in He. destruct He as [d [He _]]. subst e.
  unfold depth. simpl. rewrite length_app. simpl. lia.
Qed.

Lemma subdirectories_depth (k : nat) (es : list directory_entry) :
  Forall (fun e => depth e = k) es ->
  Forall (fun p => List.length p = k) (subdirectories es).
Proof.
  intros H. unfold subdirectories. apply Forall_forall. intros p Hp.
  apply in_map_iff in Hp. destruct Hp as [e [He Hin]]. subst p.
  apply filter_In in Hin. destruct Hin as [Hin _].
  apply (proj1 (Forall_forall _ _) H e Hin).
Qed.

Lemma sorted_level_then_deeper (k : nat) (es rest : list directory_entry) :
  Forall (fun e => depth e = k) es ->
  Forall (fun e => (k <= depth e)%nat) rest ->
  StronglySorted le (map depth rest) ->
  StronglySorted le (map depth (es ++ rest)).
Proof.
  intros Hes Hrest Hsorted.
  induction Hes as [|e es He Hall IH]; [exact Hsorted|].
  simpl. constructor; [exact IH|].
  apply Forall_forall. intros n Hn. apply in_map_iff in Hn.
  destruct Hn as [x [Hx Hin]]. subst n. apply in_app_or in Hin.
  destruct Hin as [Hin|Hin].
  - rewrite He, (proj1 (Forall_forall _ _) Hall x Hin). lia.
  - rewrite He. apply (proj1 (Forall_forall _ _) Hrest x Hin).
Qed.

(** With the queue holding directories of one depth followed by
    directories one level deeper, the traversal yields entries in order
    of depth. *)
Lemma bfs_order_levels (fuel : nat) :
  forall (d : nat) (q1 q2 : list path),
    Forall (fun p => List.length p = d) q1 ->
    Forall (fun p => List.length p = S d) q2 ->
    StronglySorted le (map depth (bfs_order fs fuel (q1 ++ q2))) /\
    Forall (fun e => (S d <= depth e)%nat) (bfs_order fs fuel (q1 ++ q2)).
Proof.
  induction fuel as [|fuel IH]; intros d q1 q2 H1 H2.
  - simpl. split; constructor.
  - assert (Hhead : forall k dir r1 r2,
              List.length dir = k ->
              Forall (fun p => List.length p = k) r1 ->
              Forall (fun p => List.length p = S k) r2 ->
              StronglySorted le
                (map depth (bfs_order fs (S fuel) (dir :: r1 ++ r2))) /\
              Forall (fun e => (S k <= depth e)%nat)
                (bfs_order fs (S fuel) (dir :: r1 ++ r2))).
    { intros k dir r1 r2 Hdir Hr1 Hr2. simpl bfs_order.
      destruct (directory_iterator fs dir) as [msg|es] eqn:Ed;
        [split; constructor|].
      apply directory_iterator_depth in Ed. rewrite Hdir in Ed.
      rewrite <- app_assoc.
      destruct (IH k r1 (r2 ++ subdirectories es)%list Hr1) as [Hs Hd].
      { apply Forall_app. split; [exact Hr2|].
        apply subdirectories_depth, Ed. }
      split.
      - apply (sorted_level_then_deeper (S k)); assumption.
      - apply Forall_app. split; [|exact Hd].
        apply Forall_forall. intros e He.
        rewrite (proj1 (Forall_forall _ _) Ed e He). lia. }
    destruct q1 as [|dir q1].
    + destruct q2 as [|dir q2]; [simpl; split; constructor|].
      simpl app. inversion H2 as [|? ? Hdir Hq2]; subst.
      rewrite <- (app_nil_r q2).
      destruct (Hhead (S d) dir q2 [] Hdir Hq2 (Forall_nil _)) as [Hs Hd].
      split; [exact Hs|].
      apply Forall_forall. intros e He.
      pose proof (proj1 (Forall_forall _ _) Hd e He) as Hle.
      cbv beta in Hle. lia.
    + inversion H1 as [|? ? Hdir Hq1]; subst.
      apply (Hhead (List.length dir) dir q1 q2 eq_refl Hq1 H2).
Qed.

Lemma bfs_order_by_depth (fuel : nat) (start : path) :
  StronglySorted le (map depth (bfs_order fs fuel [start])).
Proof.
  apply (proj1 (bfs_order_levels fuel (List.length start) [start] []
                  (Forall_cons _ eq_refl (Forall_nil _)) (Forall_nil _))).
Qed.

End Levels.

(** ** Strings *)

Lemma length_append (a b : string) :
  String.length (a ++ b) = (String.length a + String.length b)%nat.
Proof. induction a as [|c a IH]; simpl; [reflexivity|]. rewrite IH. reflexivity. Qed.

Lemma append_nil_r (a : string) : a ++ "" = a.
Proof. induction a as [|c a IH]; simpl; [reflexivity|]. rewrite IH. reflexivity. Qed.

Lemma append_assoc (a b c : string) : (a ++ b) ++ c = a ++ (b ++ c).
Proof. induction a as [|x a IH]; simpl; [reflexivity|]. rewrite IH. reflexivity. Qed.

Lemma substring_0_0 (s : string) : substring 0 0 s = "".
Proof. destruct s; reflexivity. Qed.

Lemma substring_0_length (s : string) : substring 0 (String.length s) s = s.
Proof. induction s as [|c s IH]; simpl; [reflexivity|]. rewrite IH. reflexivity. Qed.

Lemma substring_0_append (a b : string) :
  substring 0 (String.length a) (a ++ b) = a.
Proof.
  induction a as [|c a IH]; simpl.
  - apply substring_0_0.
  - rewrite IH. reflexivity.
Qed.

Lemma substring_skip_append (a b : string) (n m : nat) :
  substring (String.length a + n) m (a ++ b) = substring n m b.
Proof. induction a as [|c a IH]; simpl; [reflexivity|]. exact IH. Qed.

Lemma substring_split (s : string) :
  forall k, (k <= String.length s)%nat ->
    s = substring 0 k s ++ substring k (String.length s - k) s.
Proof.
  induction s as [|c s IH]; intros k Hk.
  - simpl in Hk. assert (k = 0)%nat by lia. subst. reflexivity.
  - destruct k as [|k].
    + simpl. rewrite substring_0_length. reflexivity.
    + simpl in Hk. simpl. f_equal. apply IH. lia.
Qed.

Lemma append_inj_l (a b c : string) : a ++ b = a ++ c -> b = c.
Proof.
  induction a as [|x a IH]; simpl; intros H; [exact H|].
  inversion H. apply IH. assumption.
Qed.

(** The comparison [downfind] makes is the suffix test: the pattern ends
    the string, byte for byte. *)
Lemma ends_with_suffix (s p : string) :
  ends_with s p = true <-> exists pre, s = pre ++ p.
Proof.
  unfold ends_with. split.
  - intros H. apply andb_true_iff in H. destruct H as [Hlen Heq].
    apply Nat.leb_le in Hlen. apply String.eqb_eq in Heq.
    exists (substring 0 (String.length s - String.length p) s).
    rewrite (substring_split s (String.length s - String.length p)) at 1
      by lia.
    f_equal.
    replace (String.length s - (String.length s - String.length p))%nat
      with (String.length p) by lia.
    exact Heq.
  - intros [pre Hs]. subst s. rewrite length_append.
    apply andb_true_iff. split.
    + apply Nat.leb_le. lia.
    + apply String.eqb_eq.
      replace (String.length pre + String.length p - String.length p)%nat
        with (String.length pre + 0)%nat by lia.
      rewrite substring_skip_append. apply substring_0_length.
Qed.

Lemma lexically_relative_below (start r : path) :
  lexically_relative (start ++ r)%list start = r.
Proof.
  induction start as [|x start IH]; simpl.
  - destruct r; reflexivity.
  - rewrite String.eqb_refl. exact IH.
Qed.

Lemma relative_string_below (start r : path) :
  r <> [] -> relative_string (start ++ r)%list start = String.concat "/" r.
Proof.
  intros Hr. unfold relative_string. rewrite lexically_relative_below.
  destruct r; [contradiction|reflexivity].
Qed.

(** ** transform_command: the scanner *)

Lemma path_safe_run_append (s : string) :
  forall run tail, path_safe_run s = (run, tail) -> s = run ++ tail.
Proof.
  induction s as [|c s IH]; intros run tail H; simpl in H.
  - inversion H. reflexivity.
  - destruct (path_safe c).
    + destruct (path_safe_run s) as [run' tail'] eqn:E.
      inversion H; subst. simpl. f_equal. apply IH. reflexivity.
    + inversion H; subst. reflexivity.
Qed.

Lemma path_safe_run_empty (c : ascii) (s : string) :
  fst (path_safe_run (String c s)) = "" <-> path_safe c = false.
Proof.
  simpl. destruct (path_safe c).
  - destruct (path_safe_run s). simpl. split; discriminate.
  - simpl. split; reflexivity.
Qed.

Lemma has_directive_append (a b : string) :
  has_directive a = true -> has_directive (a ++ b) = true.
Proof.
  induction a as [|c a IH]; simpl; intros H; [discriminate|].
  apply orb_true_iff in H. apply orb_true_iff. destruct H as [H|H].
  - left. apply andb_true_iff in H. destruct H as [Hc Hd].
    rewrite Hc. destruct a as [|d a]; [discriminate|]. exact Hd.
  - right. apply IH. exact H.
Qed.

Lemma has_directive_snoc (b : string) (c : ascii) :
  has_directive (b ++ String c "") =
  has_directive b || (ends_in_direction b && path_safe c).
Proof.
  induction b as [|x b IH]; [simpl; rewrite andb_false_r; reflexivity|].
  destruct b as [|y b'].
  - simpl. destruct (is_direction x), (is_direction c), (path_safe c);
      reflexivity.
  - change (has_directive (String x (String y b') ++ String c ""))
      with ((is_direction x && path_safe y) ||
            has_directive (String y b' ++ String c "")).
    rewrite IH.
    change (has_directive (String x (String y b')))
      with ((is_direction x && path_safe y) || has_directive (String y b')).
    change (ends_in_direction (String x (String y b')))
      with (ends_in_direction (String y b')).
    rewrite orb_assoc. reflexivity.
Qed.

Lemma ends_in_direction_snoc (b : string) (c : ascii) :
  ends_in_direction (b ++ String c "") = is_direction c.
Proof.
  induction b as [|x b IH]; [reflexivity|].
  destruct b as [|y b']; [reflexivity|].
  change (ends_in_direction (String x (String y b') ++ String c ""))
    with (ends_in_direction (String y b' ++ String c "")).
  exact IH.
Qed.

(** [has_directive] decides [directive_token_in]. *)
Lemma has_directive_spec (s : string) :
  has_directive s = true <-> directive_token_in s.
Proof.
  unfold directive_token_in. split.
  - induction s as [|c s IH]; simpl; intros H; [discriminate|].
    apply orb_true_iff in H. destruct H as [H|H].
    + apply andb_true_iff in H. destruct H as [Hc Hd].
      destruct s as [|d s]; [discriminate|].
      exists "", c, d, s. auto.
    + destruct (IH H) as (pre & c' & d & post & Hs & Hc & Hd).
      exists (String c pre), c', d, post. subst s. auto.
  - intros (pre & c & d & post & Hs & Hc & Hd). subst s.
    induction pre as [|x pre IH]; simpl.
    + rewrite Hc, Hd. reflexivity.
    + rewrite IH. apply orb_true_r.
Qed.

(** The scanner finds nothing exactly when the text holds no directive
    token. *)
Lemma regex_matches_nil (fuel : nat) :
  forall (pos : nat) (s : string),
    (String.length s <= fuel)%nat ->
    (regex_matches fuel pos s = [] <-> has_directive s = false).
Proof.
  induction fuel as [|fuel IH]; intros pos s Hlen.
  - destruct s; [|simpl in Hlen; lia]. simpl. split; reflexivity.
  - destruct s as [|c rest]; [simpl; split; reflexivity|].
    simpl in Hlen. simpl regex_matches. simpl has_directive.
    destruct (is_direction c) eqn:Ec; simpl andb.
    + destruct rest as [|d rest'].
      * simpl. destruct fuel; simpl; split; reflexivity.
      * cbn [starts_path_safe].
        pose proof (path_safe_run_empty d rest') as Hrun.
        destruct (path_safe_run (String d rest')) as [run tail] eqn:Er.
        simpl fst in Hrun. destruct (path_safe d) eqn:Ed.
        -- destruct run as [|r run];
             [destruct Hrun as [Hrun _]; discriminate (Hrun eq_refl)|].
           simpl. split; discriminate.
        -- destruct Hrun as [_ Hrun]. rewrite (Hrun eq_refl).
           rewrite (IH (S pos) (String d rest')) by (simpl in *; lia).
           reflexivity.
    + apply IH. lia.
Qed.

Lemma sregex_iterator_nil (command : string) :
  sregex_iterator command = [] <-> ~ directive_token_in command.
Proof.
  unfold sregex_iterator.
  rewrite (regex_matches_nil _ 0 command (le_n _)), <- has_directive_spec.
  destruct (has_directive command); split; intros H; congruence.
Qed.

(** Every match is a direction character followed by a run of path-safe
    characters that is not empty. *)
Lemma path_safe_run_safe (s : string) :
  forall run tail, path_safe_run s = (run, tail) ->
    Forall (fun c => path_safe c = true) (list_ascii_of_string run).
Proof.
  induction s as [|c s IH]; intros run tail H; simpl in H.
  - inversion H. constructor.
  - destruct (path_safe c) eqn:Ec.
    + destruct (path_safe_run s) as [run' tail'] eqn:E.
      inversion H; subst. simpl. constructor; [exact Ec|].
      eapply IH. reflexivity.
    + inversion H. constructor.
Qed.

Lemma regex_matches_directives (fuel : nat) :
  forall (pos : nat) (s : string) (m : smatch),
    In m (regex_matches fuel pos s) ->
    is_direction (direction m) = true /\ path_pattern m <> "" /\
    Forall (fun c => path_safe c = true)
           (list_ascii_of_string (path_pattern m)).
Proof.
  induction fuel as [|fuel IH]; intros pos s m Hin; [destruct Hin|].
  destruct s as [|c rest]; [destruct Hin|]. simpl in Hin.
  destruct (is_direction c) eqn:Ec; [|apply (IH _ _ _ Hin)].
  destruct (path_safe_run rest) as [run tail] eqn:Er.
  destruct run as [|r run]; [apply (IH _ _ _ Hin)|].
  destruct Hin as [Hm|Hin]; [|apply (IH _ _ _ Hin)].
  subst m. simpl. split; [exact Ec|]. split; [discriminate|].
  apply (path_safe_run_safe rest _ tail Er).
Qed.

(** ** transform_command: the loop *)

Section TransformFacts.

Variable fs : filesystem.
Variable cwd : path.

Lemma default_limit_size_t : 0 <= default_limit < size_t_modulus.
Proof. unfold default_limit, size_t_modulus. lia. Qed.

(** Both searches return or throw: the loop never waits on them. *)
Lemma find_path_total (d : ascii) (p : string) :
  exists r lines, find_path fs cwd d p = Some (r, lines).
Proof.
  unfold find_path. destruct (Ascii.eqb d "<").
  - rewrite upfind_first_answer. eexists _, _; reflexivity.
  - destruct (Ascii.eqb d ">"); [|eexists _, _; reflexivity].
    destruct (downfind_total fs p cwd default_limit default_limit_size_t)
      as [r Hr].
    rewrite Hr. eexists _, _; reflexivity.
Qed.

Lemma replacement_total (m : smatch) :
  exists rep, replacement fs cwd m = Some rep.
Proof.
  unfold replacement.
  destruct (find_path_total (direction m) (path_pattern m))
    as (r & lines & H).
  rewrite H. destruct r; eauto.
Qed.

Lemma replacement_failed (m : smatch) (rep : string) :
  replacement fs cwd m = Some rep -> search_fails fs cwd m ->
  rep = str0 m.
Proof.
  unfold replacement, search_fails. intros H (e & lines & Hf).
  rewrite Hf in H. inversion H. reflexivity.
Qed.

(** One iteration on a match whose replacement is known. *)
Lemma transform_loop_cons (command : string) (m : smatch)
    (ms : list smatch) (result : string) (last_pos : nat)
    (console : list event) (rep : string) :
  replacement fs cwd m = Some rep ->
  exists console',
    transform_loop fs cwd command (m :: ms) result last_pos console =
    transform_loop fs cwd command ms
      ((result ++ substring last_pos (position m - last_pos) command)
       ++ rep)
      (position m + length0 m) console'.
Proof.
  unfold replacement. intros H. simpl.
  destruct (find_path fs cwd (direction m) (path_pattern m))
    as [[r lines]|]; [|discriminate].
  destruct r; inversion H; subst; eexists; reflexivity.
Qed.

(** The loop over the matches of a text [s] that follows, in the
    command, a part [a] already copied and a part [b] scanned since:
    the output is [b ++ s] with each match replaced. *)
Lemma transform_loop_scan (fuel : nat) :
  forall (s a b result : string) (console : list event),
    (String.length s <= fuel)%nat ->
    has_directive b = false ->
    (ends_in_direction b = true -> starts_path_safe s = false) ->
    rewrites fs cwd (a ++ b ++ s)
      (regex_matches fuel (String.length a + String.length b) s)
      result (String.length a) console (b ++ s).
Proof.
  assert (Hstop : forall a b result console,
            has_directive b = false ->
            rewrites fs cwd (a ++ b ++ "") [] result (String.length a)
                     console (b ++ "")).
  { intros a b result console Hb.
    exists [], [], (b ++ ""), console. simpl.
    rewrite append_nil_r.
    repeat split; try constructor; try assumption.
    rewrite length_append, Nat.add_comm, Nat.add_sub.
    rewrite <- (Nat.add_0_r (String.length a)) at 1.
    rewrite substring_skip_append, substring_0_length. reflexivity. }
  induction fuel as [|fuel IH]; intros s a b result console Hlen Hb Hedge.
  { destruct s; [apply Hstop, Hb|simpl in Hlen; lia]. }
  destruct s as [|c rest]; [apply Hstop, Hb|].
  simpl in Hlen.
  assert (Hskip :
    (is_direction c = true -> starts_path_safe rest = false) ->
    rewrites fs cwd (a ++ b ++ String c rest)
      (regex_matches fuel (S (String.length a + String.length b)) rest)
      result (String.length a) console (b ++ String c rest)).
  { intros Hc.
    replace (S (String.length a + String.length b))
      with (String.length a + String.length (b ++ String c ""))%nat
      by (rewrite length_append; simpl; lia).
    replace (b ++ String c rest) with ((b ++ String c "") ++ rest)
      by (rewrite append_assoc; reflexivity).
    apply IH; [lia| |].
    - rewrite has_directive_snoc, Hb. simpl.
      destruct (ends_in_direction b); [|reflexivity].
      simpl in Hedge. rewrite (Hedge eq_refl). reflexivity.
    - rewrite ends_in_direction_snoc. exact Hc. }
  simpl regex_matches.
  destruct (is_direction c) eqn:Ec; [|apply Hskip; discriminate].
  destruct (path_safe_run rest) as [run tail] eqn:Erun.
  destruct run as [|r run].
  { apply Hskip. intros _. destruct rest as [|d rest']; [reflexivity|].
    apply (path_safe_run_empty d rest'). rewrite Erun. reflexivity. }
  clear Hskip.
  apply path_safe_run_append in Erun. subst rest.
  set (m := mk_smatch (String.length a + String.length b) c (String r run)).
  destruct (replacement_total m) as [rep Hrep].
  destruct (transform_loop_cons
              (a ++ b ++ String c (String r run ++ tail)) m
              (regex_matches fuel
                 (String.length a + String.length b +
                  S (String.length (String r run))) tail)
              result (String.length a) console rep Hrep)
    as [console1 Hcons].
  destruct (IH tail (a ++ b ++ str0 m) "" ((result ++ b) ++ rep) console1)
    as (gaps1 & reps1 & last1 & console2 & G1 & G2 & G3 & G4 & G5 & G6);
    [rewrite length_append in Hlen; simpl in Hlen; lia
    |reflexivity|discriminate|].
  assert (Hlen' : (String.length (a ++ b ++ str0 m) + String.length "" =
                   String.length a + String.length b +
                   S (String.length (String r run)))%nat).
  { rewrite !length_append. simpl. lia. }
  rewrite Hlen' in G1, G2, G3, G4. clear Hlen'.
  assert (Hcmd : (a ++ b ++ str0 m) ++ "" ++ tail =
                 a ++ b ++ String c (String r run ++ tail)).
  { rewrite !append_assoc. reflexivity. }
  rewrite Hcmd in G1. clear Hcmd.
  assert (Hpos : String.length (a ++ b ++ str0 m) =
                 (position m + length0 m)%nat).
  { rewrite !length_append. unfold length0. simpl. lia. }
  rewrite Hpos in G1. clear Hpos.
  assert (Hsub : substring (String.length a)
                   (position m - String.length a)
                   (a ++ b ++ String c (String r run ++ tail)) = b).
  { replace (position m - String.length a)%nat with (String.length b)
      by (simpl; lia).
    rewrite <- (Nat.add_0_r (String.length a)) at 1.
    rewrite substring_skip_append. apply substring_0_append. }
  rewrite Hsub in Hcons. clear Hsub.
  exists (b :: gaps1), (rep :: reps1), last1, console2.
  split; [|split; [|split; [|split; [|split]]]].
  - rewrite Hcons, G1. cbn [interleave]. rewrite !append_assoc. reflexivity.
  - cbn [map interleave]. rewrite !append_assoc, <- G2. reflexivity.
  - simpl. rewrite G3. reflexivity.
  - constructor; assumption.
  - constructor; assumption.
  - exact G6.
Qed.

End TransformFacts.

(** * The claims *)

Lemma project_holds_tree : holds_tree example_fs project project_tree.
Proof.
  apply holds_intro; [reflexivity|].
  intros name sub [H|[H|[]]]; inversion H; subst.
  apply holds_intro; [reflexivity|].
  intros name sub [H'|[]]; inversion H'; subst.
  apply holds_intro; [reflexivity|].
  intros name sub [H''|[]]; inversion H''.
Qed.

(** C1. [upfind] returns the child [A / name] of the ancestor [A] of the
    start directory (the start directory included) at which the status
    queries report [name] as a directory, provided they report at every
    nearer ancestor that it is none; when they report so at every ancestor
    up to and including the root, [upfind] throws the not-found error;
    when the first query that does not report so throws, [upfind] throws
    that query's [filesystem_error], whatever the farther ancestors hold;
    the start directory and the root are among the directories tested. *)
Theorem upfind_closest_ancestor
  (fs : filesystem) (name : string) (start : path) :
  (forall (nearer : list path) (A : path) (farther : list path),
     ancestors start = (nearer ++ A :: farther)%list ->
     (forall B, In B nearer -> directory_at fs B name = inr false) ->
     directory_at fs A name = inr true ->
     upfind fs name start = Some (Ret (slash A name))) /\
  ((forall A, In A (ancestors start) -> directory_at fs A name = inr false) ->
   upfind fs name start = Some (Throw (upfind_not_found name start))) /\
  (forall (nearer : list path) (A : path) (farther : list path)
          (msg : string),
     ancestors start = (nearer ++ A :: farther)%list ->
     (forall B, In B nearer -> directory_at fs B name = inr false) ->
     directory_at fs A name = inl msg ->
     upfind fs name start = Some (Throw (filesystem_error msg))) /\
  In start (ancestors start) /\
  In [] (ancestors start).
Proof.
  split; [|split; [|split; [|split]]].
  - intros nearer A farther Hanc Hnear HA.
    rewrite upfind_first_answer, Hanc, (first_answer_skip _ _ _ _ _ Hnear).
    simpl. rewrite HA. reflexivity.
  - intros Hnone.
    rewrite upfind_first_answer, (first_answer_none _ _ _ _ Hnone).
    reflexivity.
  - intros nearer A farther msg Hanc Hnear HA.
    rewrite upfind_first_answer, Hanc, (first_answer_skip _ _ _ _ _ Hnear).
    simpl. rewrite HA. reflexivity.
  - destruct start as [|x rest].
    + left. reflexivity.
    + rewrite ancestors_step by discriminate. left. reflexivity.
  - apply root_in_ancestors.
Qed.

Lemma upfind_closest_ancestor_witness :
  upfind example_fs "project" deep = Some (Ret "/home/u/project") /\
  upfind example_fs "zzz" deep =
    Some (Throw (upfind_not_found "zzz" deep)) /\
  upfind (with_name_max example_fs) long_name deep =
    Some (Throw (filesystem_error
                   (name_too_long (slash deep long_name)))).
Proof.
  split; [|split].
  - apply (proj1 (upfind_closest_ancestor example_fs "project" deep)
             [deep; ["home"; "u"; "work"]] ["home"; "u"] [["home"]; []]).
    + reflexivity.
    + intros B [H|[H|[]]]; subst B; reflexivity.
    + reflexivity.
  - apply (proj1 (proj2 (upfind_closest_ancestor example_fs "zzz" deep))).
    intros A [H|[H|[H|[H|[H|[]]]]]]; subst A; reflexivity.
  - apply (proj1 (proj2 (proj2 (upfind_closest_ancestor
                                  (with_name_max example_fs) long_name deep)))
             [] deep
             [["home"; "u"; "work"]; ["home"; "u"]; ["home"]; []]).
    + reflexivity.
    + intros B [].
    + vm_compute. reflexivity.
Defined.

(** The claim without the proviso on the queries fails.  No directory of
    the table has a child named [long_name] (such a name cannot be
    created), so the name exists at no ancestor of [/home/u/work/deep];
    yet [upfind] does not throw the not-found error: the first
    [fs::exists] throws, and that [filesystem_error] is what the caller
    gets. *)
Lemma upfind_name_too_long :
  (forall A, In A (ancestors deep) ->
     table_exists example_table (slash A long_name) = false) /\
  upfind (with_name_max example_fs) long_name deep =
    Some (Throw (filesystem_error
                   (name_too_long (slash deep long_name)))) /\
  upfind (with_name_max example_fs) long_name deep <>
    Some (Throw (upfind_not_found long_name deep)).
Proof.
  split; [|split].
  - intros A [H|[H|[H|[H|[H|[]]]]]]; subst A; vm_compute; reflexivity.
  - vm_compute. reflexivity.
  - vm_compute. discriminate.
Qed.

Lemma Forall_firstn {A : Type} (P : A -> Prop) (n : nat) (l : list A) :
  Forall P l -> Forall P (firstn n l).
Proof.
  revert l. induction n as [|n IH]; intros l H; [constructor|].
  destruct H as [|x l Hx Hl]; [constructor|].
  simpl. constructor; [exact Hx|]. apply IH, Hl.
Qed.

Lemma no_file_matches (fs : filesystem) (pat : string) (start : path)
    (tree : list node) (efuel : nat) :
  holds_tree fs start tree ->
  (forall r, In r (all_files tree) ->
             ends_with (String.concat "/" r) pat = false) ->
  (S (total_entries tree) <= efuel)%nat ->
  List.length (bfs_order fs efuel [start]) = total_entries tree /\
  Forall (fun e => matches pat start e = false) (bfs_order fs efuel [start]).
Proof.
  intros Hholds Hnone Hfuel.
  destruct (bfs_order_forest fs efuel [(start, tree)]) as [Hlen Hfiles].
  - intros p cs [H|[]]. inversion H; subst. exact Hholds.
  - unfold forest_entries. simpl. lia.
  - simpl map in Hlen, Hfiles. split.
    + rewrite Hlen. unfold forest_entries. simpl. lia.
    + apply Forall_forall. intros e He. unfold matches.
      destruct (entry_is_directory e) eqn:Ed; [reflexivity|]. simpl.
      destruct (Hfiles e He Ed) as (p & cs & r & [Hin|[]] & Hr & Hp).
      inversion Hin; subst p cs. rewrite Hp.
      rewrite relative_string_below by (apply (all_files_nonempty tree), Hr).
      apply Hnone, Hr.
Qed.




(** C3. A non-directory entry matches exactly when the pattern is a
    suffix, byte for byte, of its path relative to the start directory
    ([a/b/c.txt] matches [c.txt] and [b/c.txt], not [x.txt]); directories
    never match; the loop returns a matching entry's full path at once;
    and the first match in the order of the FIFO queue, reached within the
    budget, is what the search returns.  That order is breadth-first: it
    lists entries by depth. *)
Theorem downfind_first_suffix_match :
  (forall (pat : string) (start : path) (e : directory_entry),
     matches pat start e = true <->
     entry_is_directory e = false /\
     exists pre, relative_string (entry_path e) start = pre ++ pat) /\
  (ends_with "a/b/c.txt" "c.txt" = true /\
   ends_with "a/b/c.txt" "b/c.txt" = true /\
   ends_with "a/b/c.txt" "x.txt" = false) /\
  (forall (pat : string) (start : path) (limit : Z) (e : directory_entry)
          (es : list directory_entry) (c : Z) (q : list path)
          (out : list string),
     matches pat start e = true ->
     exists out',
       for_each_entry pat start limit (e :: es) c q out =
       Exited (mk_downfind_result
                 (Ret (path_string (entry_path e))) c out')) /\
  (forall (fs : filesystem) (pat : string) (start : path) (limit : Z)
          (efuel : nat) (pre : list directory_entry) (e : directory_entry)
          (post : list directory_entry),
     0 <= limit < size_t_modulus ->
     bfs_order fs efuel [start] = (pre ++ e :: post)%list ->
     Forall (fun x => matches pat start x = false) pre ->
     matches pat start e = true ->
     Z.of_nat (List.length pre) < limit ->
     downfind fs pat start limit =
     Some (mk_downfind_result
             (Ret (path_string (entry_path e)))
             (Z.of_nat (List.length pre))
             (printed_lines pat start (pre ++ [e])))) /\
  (forall (fs : filesystem) (fuel : nat) (start : path),
     StronglySorted le (map depth (bfs_order fs fuel [start]))).
Proof.
  split; [|split; [|split; [|split]]];
    [| | | |intros fs fuel start; apply bfs_order_by_depth].
  - intros pat start e. unfold matches.
    rewrite andb_true_iff, negb_true_iff, ends_with_suffix. reflexivity.
  - repeat split; reflexivity.
  - intros pat start limit e es c q out He.
    rewrite for_each_entry_cons. cbv zeta. rewrite He. eexists. reflexivity.
  - intros fs pat start limit efuel pre e post Hlimit Hbfs Hno He Hlt.
    apply (downfind_found fs pat start limit Hlimit efuel pre e post);
      assumption.
Qed.

Lemma downfind_first_suffix_match_witness :
  downfind example_fs "b/c.txt" project default_limit =
  Some (mk_downfind_result
          (Ret "/home/u/project/a/b/c.txt") 3
          ["README | b/c.txt"; "a/b/c.txt | b/c.txt"]).
Proof.
  apply (proj1 (proj2 (proj2 (proj2 downfind_first_suffix_match)))
           example_fs "b/c.txt" project default_limit 4%nat
           [mk_entry ["home"; "u"; "project"; "a"] true;
            mk_entry ["home"; "u"; "project"; "README"] false;
            mk_entry ["home"; "u"; "project"; "a"; "b"] true]
           (mk_entry ["home"; "u"; "project"; "a"; "b"; "c.txt"] false)
           []).
  - unfold default_limit, size_t_modulus. lia.
  - reflexivity.
  - repeat constructor.
  - reflexivity.
  - unfold default_limit. simpl. lia.
Defined.

(** C4. From the seeded history [[P0]] (cursor 0), for a path [P1] other
    than [P0]: [add P1] gives entries [[P0; P1]] with cursor 1; [back]
    then returns [P0] and sets the cursor to 0; a second [back] throws
    "No previous directory in history" and leaves the cursor at 0;
    [forward] then returns [P1] and sets the cursor to 1; [forward] at the
    tail throws "No next directory in history" and leaves the state. *)
Theorem history_cursor_scenario (P0 P1 : string) :
  P0 <> P1 ->
  let h0 := DirectoryHistory.seeded P0 in
  let h1 := DirectoryHistory.add P1 h0 in
  let h2 := DirectoryHistory.mk [P0; P1] 0 in
  h0 = DirectoryHistory.mk [P0] 0 /\
  h1 = DirectoryHistory.mk [P0; P1] 1 /\
  DirectoryHistory.back h1 = Some (Ret P0, h2) /\
  DirectoryHistory.back h2 =
    Some (Throw (runtime_error "No previous directory in history"), h2) /\
  DirectoryHistory.forward h2 = Some (Ret P1, h1) /\
  DirectoryHistory.forward h1 =
    Some (Throw (runtime_error "No next directory in history"), h1).
Proof.
  intros Hneq h0 h1 h2.
  assert (E1 : h1 = DirectoryHistory.mk [P0; P1] 1).
  { subst h1 h0. rewrite HistoryFacts.seeded_eq.
    unfold DirectoryHistory.add, DirectoryHistory.differs_from_back. simpl.
    apply String.eqb_neq in Hneq. rewrite Hneq. reflexivity. }
  split; [reflexivity|]. split; [exact E1|].
  rewrite E1. repeat split; reflexivity.
Qed.

Lemma history_cursor_scenario_witness :
  "/home/u" <> "/tmp" /\
  DirectoryHistory.back
    (DirectoryHistory.add "/tmp" (DirectoryHistory.seeded "/home/u")) =
  Some (Ret "/home/u", DirectoryHistory.mk ["/home/u"; "/tmp"] 0).
Proof.
  split; [discriminate|].
  apply (history_cursor_scenario "/home/u" "/tmp"). discriminate.
Defined.

(** C5. In every state reachable from the seeded one by [add], [back] and
    [forward], the entries are not empty and the cursor is an index into
    them; [back] and [forward] are defined there (no out-of-range access)
    and leave the entries as they are. *)
Theorem history_invariant (p0 : string) (h : DirectoryHistory.t) :
  DirectoryHistory.reachable p0 h ->
  DirectoryHistory.history h <> [] /\
  0 <= DirectoryHistory.current_index h
    < Z.of_nat (List.length (DirectoryHistory.history h)) /\
  (exists r h', DirectoryHistory.back h = Some (r, h') /\
                DirectoryHistory.history h' = DirectoryHistory.history h) /\
  (exists r h', DirectoryHistory.forward h = Some (r, h') /\
                DirectoryHistory.history h' = DirectoryHistory.history h).
Proof.
  intros Hr. pose proof (HistoryFacts.reachable_valid _ _ Hr) as Hv.
  destruct Hv as [Hne Hidx]. split; [exact Hne|]. split; [exact Hidx|].
  split.
  - destruct (HistoryFacts.back_valid h (conj Hne Hidx)) as (r & h' & Hb & _).
    exists r, h'. split; [exact Hb|].
    exact (HistoryFacts.back_history _ _ _ Hb).
  - destruct (HistoryFacts.forward_valid h (conj Hne Hidx))
      as (r & h' & Hf & _).
    exists r, h'. split; [exact Hf|].
    exact (HistoryFacts.forward_history _ _ _ Hf).
Qed.

Lemma history_invariant_witness :
  DirectoryHistory.reachable "/home/u"
    (DirectoryHistory.mk ["/home/u"; "/tmp"] 0) /\
  0 <= 0 < Z.of_nat (List.length ["/home/u"; "/tmp"]).
Proof.
  assert (R : DirectoryHistory.reachable "/home/u"
                (DirectoryHistory.mk ["/home/u"; "/tmp"] 0)).
  { apply (DirectoryHistory.reach_back "/home/u"
             (DirectoryHistory.add "/tmp" (DirectoryHistory.seeded "/home/u"))
             (Ret "/home/u")).
    - apply DirectoryHistory.reach_add, DirectoryHistory.reach_seeded.
    - reflexivity. }
  split; [exact R|].
  exact (proj1 (proj2 (history_invariant "/home/u" _ R))).
Defined.

(** C6. A line that holds no directive token (no [<] or [>] immediately
    followed by a path-safe character) is returned as it is, character
    for character, and nothing is written to the console. *)
Theorem transform_plain_text
  (fs : filesystem) (cwd : path) (command : string) :
  ~ directive_token_in command ->
  transform_command fs cwd command = Some (command, []).
Proof.
  intros Hplain. unfold transform_command.
  rewrite (proj2 (sregex_iterator_nil command) Hplain). simpl.
  rewrite Nat.sub_0_r, substring_0_length. reflexivity.
Qed.

Lemma transform_plain_text_witness :
  ~ directive_token_in "ls -la < > src" /\
  transform_command example_fs deep "ls -la < > src" =
    Some ("ls -la < > src", []).
Proof.
  assert (H : ~ directive_token_in "ls -la < > src").
  { rewrite <- has_directive_spec. discriminate. }
  split; [exact H|].
  apply (transform_plain_text example_fs deep "ls -la < > src" H).
Defined.

Lemma Forall2_all_failed (fs : filesystem) (cwd : path)
    (ms : list smatch) (reps : list string) :
  Forall2 (fun m rep => replacement fs cwd m = Some rep) ms reps ->
  (forall m, In m ms -> search_fails fs cwd m) ->
  reps = map str0 ms.
Proof.
  induction 1 as [|m rep ms reps Hrep _ IH]; intros Hfail; [reflexivity|].
  simpl. f_equal.
  - apply (replacement_failed fs cwd m rep Hrep). apply Hfail. left.
    reflexivity.
  - apply IH. intros m' Hm'. apply Hfail. right. exact Hm'.
Qed.

(** C7. The command is the texts between its directives interleaved with
    the directives, and the output is the same texts, in the same places,
    interleaved with what each directive is replaced by.  A directive
    whose search throws, for either reason, is replaced by its own text,
    and the loop goes on to the directives and the text after it: no text
    that is copied holds a directive token.  When every search throws the
    output is the command. *)
Theorem transform_keeps_failed_directives
  (fs : filesystem) (cwd : path) (command : string) :
  exists (gaps reps : list string) (last : string) (console : list event),
    transform_command fs cwd command =
      Some (interleave gaps reps ++ last, console) /\
    command =
      interleave gaps (map str0 (sregex_iterator command)) ++ last /\
    List.length gaps = List.length (sregex_iterator command) /\
    Forall2 (fun m rep =>
               replacement fs cwd m = Some rep /\
               (search_fails fs cwd m -> rep = str0 m))
            (sregex_iterator command) reps /\
    (forall m, In m (sregex_iterator command) ->
       is_direction (direction m) = true /\ path_pattern m <> "") /\
    Forall (fun g => ~ directive_token_in g) gaps /\
    ~ directive_token_in last /\
    ((forall m, In m (sregex_iterator command) -> search_fails fs cwd m) ->
     interleave gaps reps ++ last = command).
Proof.
  destruct (transform_loop_scan fs cwd (String.length command)
              command "" "" "" [] (le_n _) eq_refl)
    as (gaps & reps & last & console & H1 & H2 & H3 & H4 & H5 & H6);
    [discriminate|].
  exists gaps, reps, last, console.
  change (regex_matches (String.length command)
            (String.length "" + String.length "") command)
    with (sregex_iterator command) in *.
  simpl in H1, H2.
  split; [exact H1|]. split; [exact H2|]. split; [exact H3|].
  split; [|split; [|split; [|split]]].
  - clear H1 H2 H3. induction H4 as [|m rep ms reps' Hrep _ IH];
      constructor; [|exact IH].
    split; [exact Hrep|]. apply replacement_failed, Hrep.
  - intros m Hm. unfold sregex_iterator in Hm.
    destruct (regex_matches_directives _ _ _ _ Hm) as (Hd & Hp & _).
    split; assumption.
  - apply Forall_forall. intros g Hg Htok.
    apply has_directive_spec in Htok.
    rewrite (proj1 (Forall_forall _ _) H5 g Hg) in Htok. discriminate.
  - intros Htok. apply has_directive_spec in Htok.
    rewrite H6 in Htok. discriminate.
  - intros Hfail. rewrite (Forall2_all_failed fs cwd _ _ H4 Hfail).
    symmetry. exact H2.
Qed.

(** A line with one directive that is found and two that are not: the
    second and the third stay as they were written. *)
Lemma transform_keeps_failed_directives_example :
  transform_command example_fs project "cat >b/c.txt <zzz >x.txt end" =
  Some ("cat /home/u/project/a/b/c.txt <zzz >x.txt end",
        [Stdout "README | b/c.txt"; Stdout "a/b/c.txt | b/c.txt";
         Stderr "[find error] Directory 'zzz' not found upwards from /home/u/project";
         Stdout "README | x.txt"; Stdout "a/b/c.txt | x.txt";
         Stderr "[find error] Target 'x.txt' not found."]).
Proof. vm_compute. reflexivity. Qed.

(** C8. [add P] on a history whose last entry is [P] changes nothing,
    neither the entries nor the cursor; so [add P] twice leaves the state
    [add P] once leaves, from any state; and no reachable history holds
    the same entry twice in a row. *)
Theorem add_duplicate_noop (h : DirectoryHistory.t) (P : string) :
  (DirectoryHistory.history h <> [] ->
   List.last (DirectoryHistory.history h) "" = P ->
   DirectoryHistory.add P h = h) /\
  DirectoryHistory.add P (DirectoryHistory.add P h) =
    DirectoryHistory.add P h /\
  (forall p0, DirectoryHistory.reachable p0 h ->
     DirectoryHistory.no_consecutive_duplicates (DirectoryHistory.history h)).
Proof.
  split; [|split].
  - intros Hne Hlast. apply HistoryFacts.add_same.
    unfold DirectoryHistory.differs_from_back.
    destruct (DirectoryHistory.history h); [contradiction|].
    rewrite Hlast, String.eqb_refl. reflexivity.
  - apply HistoryFacts.add_add.
  - intros p0. apply HistoryFacts.reachable_no_consecutive_duplicates.
Qed.

Lemma add_duplicate_noop_witness :
  DirectoryHistory.add "/tmp" (DirectoryHistory.mk ["/home/u"; "/tmp"] 0) =
  DirectoryHistory.mk ["/home/u"; "/tmp"] 0.
Proof.
  apply (proj1 (add_duplicate_noop
                  (DirectoryHistory.mk ["/home/u"; "/tmp"] 0) "/tmp")).
  - discriminate.
  - reflexivity.
Defined.

(** C9. When [chdir] rejects the target of a [cd], the error is written
    to [std::cerr], and neither the working directory nor the history
    (entries and cursor) changes; when [chdir] succeeds, the new working
    directory is added to the history, whose last entry it then is. *)
Theorem cd_failure_changes_nothing
  (fs : filesystem) (args : list string) (home : option string)
  (sh : shell) :
  (forall msg,
     fs_chdir fs (working_directory sh) (cd_target args home) = inl msg ->
     run_cd fs args home sh =
     Some (mk_shell (working_directory sh) (dir_history sh)
                    (console sh ++ [Stderr ("chdir failed: " ++ msg)]))) /\
  (forall new_cwd,
     fs_chdir fs (working_directory sh) (cd_target args home) = inr new_cwd ->
     DirectoryHistory.valid (dir_history sh) ->
     exists sh',
       run_cd fs args home sh = Some sh' /\
       working_directory sh' = new_cwd /\
       dir_history sh' =
         DirectoryHistory.add (path_string new_cwd) (dir_history sh) /\
       List.last (DirectoryHistory.history (dir_history sh')) "" =
         path_string new_cwd).
Proof.
  split.
  - intros msg Hch. unfold run_cd, change_directory. rewrite Hch.
    reflexivity.
  - intros new_cwd Hch Hvalid. unfold run_cd, change_directory.
    rewrite Hch. cbv iota beta.
    pose proof (HistoryFacts.add_valid (path_string new_cwd) _ Hvalid)
      as [_ Hidx].
    destruct (HistoryFacts.at_index_defined _ _ Hidx) as [dir Hdir].
    simpl dir_history. unfold DirectoryHistory.current. rewrite Hdir.
    eexists. split; [reflexivity|]. simpl.
    split; [reflexivity|]. split; [reflexivity|].
    destruct (DirectoryHistory.differs_from_back
                (DirectoryHistory.history (dir_history sh))
                (path_string new_cwd)) eqn:E.
    + rewrite (HistoryFacts.add_new _ _ E). simpl. apply last_last.
    + rewrite (HistoryFacts.add_same _ _ E).
      unfold DirectoryHistory.differs_from_back in E.
      destruct (DirectoryHistory.history (dir_history sh)) eqn:Eh;
        [discriminate|].
      apply negb_false_iff, String.eqb_eq in E. exact E.
Qed.

Lemma cd_failure_changes_nothing_witness :
  run_cd example_fs ["cd"; "/nowhere"] None
    (mk_shell deep (DirectoryHistory.seeded "/home/u/work/deep") []) =
  Some (mk_shell deep (DirectoryHistory.seeded "/home/u/work/deep")
                 [Stderr "chdir failed: No such file or directory"]).
Proof.
  apply (proj1 (cd_failure_changes_nothing
                  example_fs ["cd"; "/nowhere"] None
                  (mk_shell deep (DirectoryHistory.seeded "/home/u/work/deep")
                            []))
           "No such file or directory").
  reflexivity.
Defined.

(** A [cd] that succeeds: the working directory moves, the new directory
    joins the history and the cursor points at it. *)
Lemma cd_success_example :
  run_cd example_fs ["cd"; "/home/u/project"] None
    (mk_shell deep (DirectoryHistory.seeded "/home/u/work/deep") []) =
  Some (mk_shell project
          (DirectoryHistory.mk ["/home/u/work/deep"; "/home/u/project"] 1)
          [Stdout "Changed directory to: /home/u/project"]).
Proof. reflexivity. Qed.

(** C10. A matching entry is returned before [search_count] is
    incremented: the loop returns it with the count it found.  So when the
    entries before it in breadth-first order have used [limit - 1] units,
    a match on the next entry succeeds with [search_count = limit - 1],
    where an entry that does not match would have raised the search-limit
    error. *)
Theorem downfind_match_costs_nothing
  (fs : filesystem) (pat : string) (start : path) (limit : Z)
  (e : directory_entry) :
  0 <= limit < size_t_modulus ->
  (matches pat start e = true ->
   forall (es : list directory_entry) (c : Z) (q : list path)
          (out : list string),
     for_each_entry pat start limit (e :: es) c q out =
     Exited (mk_downfind_result
               (Ret (path_string (entry_path e))) c
               (out ++ printed_lines pat start [e]))) /\
  (forall (efuel : nat) (pre post : list directory_entry),
     bfs_order fs efuel [start] = (pre ++ e :: post)%list ->
     Forall (fun x => matches pat start x = false) pre ->
     Z.of_nat (List.length pre) = limit - 1 ->
     (matches pat start e = true ->
      downfind fs pat start limit =
      Some (mk_downfind_result
              (Ret (path_string (entry_path e))) (limit - 1)
              (printed_lines pat start (pre ++ [e])))) /\
     (matches pat start e = false ->
      downfind fs pat start limit =
      Some (mk_downfind_result
              (Throw search_limit_reached) limit
              (printed_lines pat start (pre ++ [e]))))).
Proof.
  intros Hlimit. split.
  - intros He es c q out. rewrite for_each_entry_cons. cbv zeta.
    rewrite He. reflexivity.
  - intros efuel pre post Hbfs Hno Hlen. split; intros He.
    + rewrite <- Hlen.
      apply (downfind_found fs pat start limit Hlimit efuel pre e post);
        try assumption. lia.
    + assert (Hfirst : firstn (Z.to_nat limit) (bfs_order fs efuel [start])
                       = (pre ++ [e])%list).
      { rewrite Hbfs.
        replace (Z.to_nat limit) with (List.length pre + 1)%nat by lia.
        rewrite firstn_app_2. reflexivity. }
      rewrite <- Hfirst.
      apply (downfind_limit fs pat start limit Hlimit efuel).
      * rewrite Hbfs, length_app. simpl List.length. lia.
      * rewrite Hfirst. apply Forall_app. split; [exact Hno|].
        constructor; [exact He|constructor].
Qed.

Lemma downfind_match_costs_nothing_witness :
  downfind example_fs "c.txt" project 4 =
  Some (mk_downfind_result
          (Ret "/home/u/project/a/b/c.txt") 3
          ["README | c.txt"; "a/b/c.txt | c.txt"]).
Proof.
  apply (proj1 (proj2 (downfind_match_costs_nothing
                         example_fs "c.txt" project 4
                         (mk_entry ["home"; "u"; "project"; "a"; "b"; "c.txt"]
                                   false)
                         ltac:(unfold size_t_modulus; lia))
                 4%nat
                 [mk_entry ["home"; "u"; "project"; "a"] true;
                  mk_entry ["home"; "u"; "project"; "README"] false;
                  mk_entry ["home"; "u"; "project"; "a"; "b"] true]
                 []
                 eq_refl
                 ltac:(repeat constructor)
                 eq_refl)).
  reflexivity.
Defined.

(** * Further properties of the code *)

(** ** DirectoryHistory: moving along the history *)

Module HistoryMoves.
Import DirectoryHistory.

Lemma reachable_index_size_t (p0 : string) (h : t) :
  reachable p0 h -> 0 <= current_index h < size_t_modulus.
Proof.
  induction 1 as [|p h _ IH|h r h' _ IH Hb|h r h' _ IH Hf].
  - rewrite HistoryFacts.seeded_eq. simpl. unfold size_t_modulus. lia.
  - unfold add. destruct (differs_from_back (history h) p); [|exact IH].
    simpl. apply wrap_range.
  - unfold back in Hb. destruct (0 <? current_index h).
    + cbv zeta in Hb. simpl in Hb. destruct (at_index _ _); [|discriminate].
      inversion Hb; subst. simpl. apply wrap_range.
    + inversion Hb; subst. exact IH.
  - unfold forward in Hf. destruct (current_index h <? _).
    + cbv zeta in Hf. simpl in Hf. destruct (at_index _ _); [|discriminate].
      inversion Hf; subst. simpl. apply wrap_range.
    + inversion Hf; subst. exact IH.
Qed.

Lemma size_pred (l : list string) :
  l <> [] -> Z.of_nat (List.length l) < size_t_modulus ->
  wrap (size l - 1) = Z.of_nat (List.length l) - 1.
Proof.
  intros Hne Hlen. unfold size. rewrite wrap_wrap_pred. apply wrap_small.
  destruct l; [contradiction|]. simpl List.length in *. lia.
Qed.

Lemma eta (h : t) : mk (history h) (current_index h) = h.
Proof. destruct h. reflexivity. Qed.

(** [back] that returns has moved the cursor one step down. *)
Lemma back_ret (h h' : t) (s : string) :
  0 <= current_index h < size_t_modulus ->
  back h = Some (Ret s, h') ->
  0 < current_index h /\
  h' = mk (history h) (current_index h - 1) /\
  at_index (history h) (current_index h - 1) = Some s.
Proof.
  intros Hidx Hb. unfold back in Hb.
  destruct (0 <? current_index h) eqn:E; [|discriminate].
  apply Z.ltb_lt in E. cbv zeta in Hb. simpl in Hb.
  rewrite (wrap_small (current_index h - 1)) in Hb by lia.
  destruct (at_index _ _) eqn:Ea; [|discriminate].
  inversion Hb; subst. auto.
Qed.

Lemma forward_ret (h h' : t) (s : string) :
  history h <> [] ->
  Z.of_nat (List.length (history h)) < size_t_modulus ->
  0 <= current_index h ->
  forward h = Some (Ret s, h') ->
  current_index h < Z.of_nat (List.length (history h)) - 1 /\
  h' = mk (history h) (current_index h + 1) /\
  at_index (history h) (current_index h + 1) = Some s.
Proof.
  intros Hne Hlen Hidx Hf. unfold forward in Hf.
  rewrite (size_pred _ Hne Hlen) in Hf.
  destruct (current_index h <? _) eqn:E; [|discriminate].
  apply Z.ltb_lt in E. cbv zeta in Hf. simpl in Hf.
  rewrite (wrap_small (current_index h + 1)) in Hf by lia.
  destruct (at_index _ _) eqn:Ea; [|discriminate].
  inversion Hf; subst. auto.
Qed.

Lemma back_forward (h h' : t) (s : string) :
  valid h -> current_index h < size_t_modulus ->
  Z.of_nat (List.length (history h)) < size_t_modulus ->
  back h = Some (Ret s, h') ->
  exists c, current h = Some c /\ forward h' = Some (Ret c, h).
Proof.
  intros [Hne Hidx] Hci Hlen Hb.
  destruct (back_ret h h' s ltac:(lia) Hb) as (Hpos & Hh' & _). subst h'.
  destruct (HistoryFacts.at_index_defined _ _ Hidx) as [c Hc].
  exists c. split; [exact Hc|].
  unfold forward. simpl. rewrite (size_pred _ Hne Hlen).
  destruct (current_index h - 1 <? Z.of_nat (List.length (history h)) - 1)
    eqn:E; [|apply Z.ltb_ge in E; lia].
  rewrite (wrap_small (current_index h - 1 + 1)) by lia.
  replace (current_index h - 1 + 1) with (current_index h) by lia.
  rewrite Hc, eta. reflexivity.
Qed.

Lemma forward_back (h h' : t) (s : string) :
  valid h ->
  Z.of_nat (List.length (history h)) < size_t_modulus ->
  forward h = Some (Ret s, h') ->
  exists c, current h = Some c /\ back h' = Some (Ret c, h).
Proof.
  intros [Hne Hidx] Hlen Hf.
  destruct (forward_ret h h' s Hne Hlen ltac:(lia) Hf) as (Hlt & Hh' & _).
  subst h'.
  destruct (HistoryFacts.at_index_defined _ _ Hidx) as [c Hc].
  exists c. split; [exact Hc|].
  unfold back. simpl.
  destruct (0 <? current_index h + 1) eqn:E; [|apply Z.ltb_ge in E; lia].
  rewrite (wrap_small (current_index h + 1 - 1)) by lia.
  replace (current_index h + 1 - 1) with (current_index h) by lia.
  rewrite Hc, eta. reflexivity.
Qed.

Lemma at_index_last (l : list string) (p : string) :
  l <> [] ->
  at_index (l ++ [p]) (Z.of_nat (List.length l) - 1) = Some (List.last l "").
Proof.
  intros Hne. unfold at_index.
  replace (Z.to_nat (Z.of_nat (List.length l) - 1))
    with (List.length l - 1)%nat by lia.
  rewrite nth_error_app1 by (destruct l; [contradiction|simpl; lia]).
  rewrite (app_removelast_last "" Hne) at 1 2.
  rewrite length_app. simpl List.length.
  replace (List.length (removelast l) + 1 - 1)%nat
    with (List.length (removelast l) + 0)%nat by lia.
  rewrite nth_error_app2 by lia.
  replace (List.length (removelast l) + 0 - List.length (removelast l))%nat
    with 0%nat by lia.
  reflexivity.
Qed.

(** [add] of a path other than the last entry, wherever the cursor is. *)
Lemma add_new_anywhere (h : t) (p : string) :
  history h <> [] ->
  Z.of_nat (List.length (history h)) < size_t_modulus ->
  differs_from_back (history h) p = true ->
  let h' := mk (history h ++ [p]) (Z.of_nat (List.length (history h))) in
  add p h = h' /\
  current h' = Some p /\
  forward h' =
    Some (Throw (runtime_error "No next directory in history"), h') /\
  back h' =
    Some (Ret (List.last (history h) ""),
          mk (history h ++ [p]) (Z.of_nat (List.length (history h)) - 1)).
Proof.
  intros Hne Hlen Hd h'.
  assert (Hadd : add p h = h').
  { rewrite (HistoryFacts.add_new _ _ Hd), wrap_small by lia. reflexivity. }
  assert (Hlen1 : List.length (history h) <> 0%nat)
    by (destruct (history h); [contradiction|discriminate]).
  split; [exact Hadd|]. split; [|split].
  - unfold current, at_index, h'. simpl. rewrite Nat2Z.id.
    rewrite nth_error_app2 by lia. rewrite Nat.sub_diag. reflexivity.
  - unfold forward, h'. simpl. unfold size. rewrite wrap_wrap_pred.
    rewrite length_app. simpl List.length.
    rewrite wrap_small by lia.
    destruct (_ <? _) eqn:E; [apply Z.ltb_lt in E; lia|reflexivity].
  - unfold back, h'. simpl.
    destruct (0 <? Z.of_nat (List.length (history h))) eqn:E;
      [|apply Z.ltb_ge in E; lia].
    rewrite wrap_small by lia. rewrite (at_index_last _ p Hne). reflexivity.
Qed.

End HistoryMoves.

(** ** The commands [bk] and [fw] *)

Section MainCommandFacts.

Variable fs : filesystem.

Lemma change_directory_keeps_history (target : string) (sh : shell) :
  dir_history (snd (change_directory fs target false sh)) = dir_history sh.
Proof.
  unfold change_directory.
  destruct (fs_chdir fs (working_directory sh) target); reflexivity.
Qed.

(** [bk] as a function of what [back] and [chdir] do. *)
Lemma bk_eq (args : list string) (sh : shell) r h :
  DirectoryHistory.back (dir_history sh) = Some (r, h) ->
  bk fs args sh =
  Some (Ret tt,
        match r with
        | Throw e =>
            mk_shell (working_directory sh) h
                     (console sh ++ [Stderr ("Cannot go back: " ++ what e)])
        | Ret prev_dir =>
            match fs_chdir fs (working_directory sh) prev_dir with
            | inr new_cwd =>
                mk_shell new_cwd h
                  (console sh ++
                   [Stdout ("Navigated back to: " ++ prev_dir)])
            | inl msg =>
                mk_shell (working_directory sh) h
                  ((console sh ++ [Stderr ("chdir failed: " ++ msg)]) ++
                   [Stderr "Failed to navigate back"])
            end
        end).
Proof.
  intros Hb. unfold bk. rewrite Hb. destruct r as [prev_dir|e].
  - unfold change_directory. simpl.
    destruct (fs_chdir fs (working_directory sh) prev_dir); reflexivity.
  - reflexivity.
Qed.

Lemma fw_eq (args : list string) (sh : shell) r h :
  DirectoryHistory.forward (dir_history sh) = Some (r, h) ->
  fw fs args sh =
  Some (Ret tt,
        match r with
        | Throw e =>
            mk_shell (working_directory sh) h
                     (console sh ++
                      [Stderr ("Cannot go forward: " ++ what e)])
        | Ret next_dir =>
            match fs_chdir fs (working_directory sh) next_dir with
            | inr new_cwd =>
                mk_shell new_cwd h
                  (console sh ++
                   [Stdout ("Navigated forward to: " ++ next_dir)])
            | inl msg =>
                mk_shell (working_directory sh) h
                  ((console sh ++ [Stderr ("chdir failed: " ++ msg)]) ++
                   [Stderr "Failed to navigate forward"])
            end
        end).
Proof.
  intros Hf. unfold fw. rewrite Hf. destruct r as [next_dir|e].
  - unfold change_directory. simpl.
    destruct (fs_chdir fs (working_directory sh) next_dir); reflexivity.
  - reflexivity.
Qed.

Lemma bk_history (args : list string) (sh : shell) r h :
  DirectoryHistory.back (dir_history sh) = Some (r, h) ->
  exists sh', bk fs args sh = Some (Ret tt, sh') /\ dir_history sh' = h.
Proof.
  intros Hb. rewrite (bk_eq args sh r h Hb). eexists. split; [reflexivity|].
  destruct r; [destruct (fs_chdir _ _ _)|]; reflexivity.
Qed.

Lemma fw_history (args : list string) (sh : shell) r h :
  DirectoryHistory.forward (dir_history sh) = Some (r, h) ->
  exists sh', fw fs args sh = Some (Ret tt, sh') /\ dir_history sh' = h.
Proof.
  intros Hf. rewrite (fw_eq args sh r h Hf). eexists. split; [reflexivity|].
  destruct r; [destruct (fs_chdir _ _ _)|]; reflexivity.
Qed.

End MainCommandFacts.

(** ** Tokens *)

Lemma contains_append (c : ascii) (a b : string) :
  contains c (a ++ b) = contains c a || contains c b.
Proof.
  induction a as [|x a IH]; simpl; [reflexivity|].
  rewrite IH, orb_assoc. reflexivity.
Qed.

Lemma c_str_no_NUL (s : string) : contains NUL (c_str s) = false.
Proof.
  induction s as [|c s IH]; simpl; [reflexivity|].
  destruct (Ascii.eqb c NUL) eqn:E; simpl; [reflexivity|].
  rewrite E, IH. reflexivity.
Qed.

Lemma c_str_without_NUL (s : string) :
  contains NUL s = false -> c_str s = s.
Proof.
  induction s as [|c s IH]; simpl; [reflexivity|].
  intros H. apply orb_false_iff in H. destruct H as [Hc Hs].
  rewrite Hc, (IH Hs). reflexivity.
Qed.

Lemma c_str_append (a b : string) :
  contains NUL a = false -> c_str (a ++ b) = a ++ c_str b.
Proof.
  induction a as [|c a IH]; simpl; [reflexivity|].
  intros H. apply orb_false_iff in H. destruct H as [Hc Ha].
  rewrite Hc, (IH Ha). reflexivity.
Qed.

Lemma append_snoc_nonempty (t : string) (c : ascii) : t ++ String c "" <> "".
Proof. destruct t; discriminate. Qed.

(** No token is empty, and none holds a character that neither the part
    already read nor the text holds; none holds a space. *)
Lemma strtok_loop_tokens (s : string) :
  forall (token t : string),
    In t (strtok_loop token s) ->
    t <> "" /\
    (contains " " token = false -> contains " " t = false) /\
    (forall c, contains c token = false -> contains c s = false ->
               contains c t = false).
Proof.
  induction s as [|x s IH]; intros token t Hin.
  - simpl in Hin. destruct token as [|y token]; [destruct Hin|].
    destruct Hin as [Ht|[]]. subst t. split; [discriminate|]. auto.
  - simpl in Hin. destruct (Ascii.eqb x " ") eqn:Ex.
    + assert (Hrest : In t (strtok_loop "" s) ->
                t <> "" /\
                (contains " " token = false -> contains " " t = false) /\
                (forall c, contains c token = false ->
                           contains c (String x s) = false ->
                           contains c t = false)).
      { intros H. destruct (IH "" t H) as (H1 & H2 & H3).
        split; [exact H1|]. split; [intros _; apply H2; reflexivity|].
        intros c _ Hc. simpl in Hc. apply orb_false_iff in Hc.
        apply H3; [reflexivity|apply Hc]. }
      destruct token as [|y token]; [apply Hrest, Hin|].
      destruct Hin as [Ht|Hin]; [|apply Hrest, Hin].
      subst t. split; [discriminate|]. auto.
    + destruct (IH _ t Hin) as (H1 & H2 & H3). split; [exact H1|].
      split.
      * intros Htok. apply H2. rewrite contains_append, Htok. simpl.
        rewrite Ex. reflexivity.
      * intros c Htok Hc. simpl in Hc. apply orb_false_iff in Hc.
        destruct Hc as [Hx Hs]. apply H3; [|exact Hs].
        rewrite contains_append, Htok. simpl. rewrite Hx. reflexivity.
Qed.

Lemma concat_cons (t : string) (l : list string) :
  String.concat "" (t :: l) = t ++ String.concat "" l.
Proof. destruct l; simpl; [rewrite append_nil_r|]; reflexivity. Qed.

(** The tokens, put back together, are the text without its spaces. *)
Lemma strtok_loop_concat (s : string) :
  forall token : string,
    String.concat "" (strtok_loop token s) = token ++ without_spaces s.
Proof.
  induction s as [|x s IH]; intros token.
  - simpl. destruct token; simpl; [reflexivity|].
    rewrite append_nil_r. reflexivity.
  - simpl. destruct (Ascii.eqb x " ").
    + destruct token as [|y token]; [apply IH|].
      rewrite concat_cons, IH. reflexivity.
    + rewrite IH, append_assoc. reflexivity.
Qed.

(** Cutting at a space: the tokens of [a ++ " " ++ b] are those of [a]
    followed by those of [b]. *)
Lemma strtok_loop_space (a b : string) :
  forall token : string,
    strtok_loop token (a ++ String " " b) =
    (strtok_loop token a ++ strtok_loop "" b)%list.
Proof.
  induction a as [|x a IH]; intros token.
  - simpl. destruct token; reflexivity.
  - simpl. destruct (Ascii.eqb x " ").
    + destruct token as [|y token]; [apply IH|].
      rewrite IH. reflexivity.
    + apply IH.
Qed.

(** ** The custom commands *)

Lemma find_filter_other {A : Type} (f g : A -> bool) (l : list A) :
  (forall x, f x = true -> g x = true) ->
  find f (filter g l) = find f l.
Proof.
  intros Hfg. induction l as [|x l IH]; [reflexivity|]. simpl.
  destruct (g x) eqn:Eg; simpl.
  - destruct (f x); [reflexivity|exact IH].
  - destruct (f x) eqn:Ef; [|exact IH].
    rewrite (Hfg x Ef) in Eg. discriminate.
Qed.

Lemma filter_filter_same {A : Type} (g : A -> bool) (l : list A) :
  filter g (filter g l) = filter g l.
Proof.
  induction l as [|x l IH]; [reflexivity|]. simpl.
  destruct (g x) eqn:Eg; simpl; [rewrite Eg, IH|]; auto.
Qed.

Lemma find_added (name : string) (func : handler) (cc : custom_commands_t) :
  find_custom_command name (add_custom_command name func cc) = Some func.
Proof.
  unfold find_custom_command, add_custom_command. simpl.
  rewrite String.eqb_refl. reflexivity.
Qed.

Lemma find_other (name other : string) (func : handler)
    (cc : custom_commands_t) :
  other <> name ->
  find_custom_command other (add_custom_command name func cc) =
  find_custom_command other cc.
Proof.
  intros Hne. unfold find_custom_command, add_custom_command. simpl.
  assert (E : String.eqb name other = false)
    by (apply String.eqb_neq; congruence).
  rewrite E. rewrite find_filter_other; [reflexivity|].
  intros x Hx. apply String.eqb_eq in Hx. apply negb_true_iff.
  apply String.eqb_neq. congruence.
Qed.

Lemma find_main_commands (fs : filesystem) (command : string) :
  find_custom_command command (main_commands fs) =
  if String.eqb command "fw" then Some (fw fs)
  else if String.eqb command "bk" then Some (bk fs)
  else None.
Proof.
  unfold main_commands.
  destruct (String.eqb command "fw") eqn:Efw.
  - apply String.eqb_eq in Efw. subst. apply find_added.
  - apply String.eqb_neq in Efw. rewrite find_other by exact Efw.
    destruct (String.eqb command "bk") eqn:Ebk.
    + apply String.eqb_eq in Ebk. subst. apply find_added.
    + apply String.eqb_neq in Ebk. rewrite find_other by exact Ebk.
      reflexivity.
Qed.

(** ** The loop *)

Section RunFacts.

Variable fs : filesystem.
Variable spawn : path -> list string -> spawned.
Variable home : option string.

Lemma transform_command_total (cwd : path) (line : string) :
  exists out events, transform_command fs cwd line = Some (out, events).
Proof.
  destruct (transform_loop_scan fs cwd (String.length line)
              line "" "" "" [] (le_n _) eq_refl)
    as (gaps & reps & last & console & H1 & _); [discriminate|].
  simpl in H1. eexists _, _. exact H1.
Qed.

Lemma transform_command_plain (cwd : path) (line : string) :
  ~ directive_token_in line ->
  transform_command fs cwd line = Some (line, []).
Proof.
  intros Hplain. unfold transform_command.
  rewrite (proj2 (sregex_iterator_nil line) Hplain). simpl.
  rewrite Nat.sub_0_r, substring_0_length. reflexivity.
Qed.

(** [cd] on a history whose cursor is an index: defined, and the history
    is the old one or the old one with the new directory added. *)
Lemma run_cd_history (args : list string) (sh : shell) :
  DirectoryHistory.valid (dir_history sh) ->
  exists sh',
    run_cd fs args home sh = Some sh' /\
    (dir_history sh' = dir_history sh \/
     exists p, dir_history sh' = DirectoryHistory.add p (dir_history sh)).
Proof.
  intros Hvalid. unfold run_cd, change_directory.
  destruct (fs_chdir fs (working_directory sh) (cd_target args home))
    as [msg|new_cwd].
  - eexists. split; [reflexivity|]. left. reflexivity.
  - cbv iota beta.
    pose proof (HistoryFacts.add_valid (path_string new_cwd) _ Hvalid)
      as [_ Hidx].
    destruct (HistoryFacts.at_index_defined _ _ Hidx) as [dir Hdir].
    simpl dir_history. unfold DirectoryHistory.current. rewrite Hdir.
    eexists. split; [reflexivity|]. right. eexists. reflexivity.
Qed.

Lemma dispatch_main (p0 : string) (args : list string) (sh : shell)
    (lines : list string) :
  DirectoryHistory.reachable p0 (dir_history sh) ->
  exists it,
    dispatch fs spawn home (main_commands fs) args sh lines = Some it /\
    DirectoryHistory.reachable p0 (dir_history (the_shell (session_of it))).
Proof.
  intros Hreach.
  pose proof (HistoryFacts.reachable_valid _ _ Hreach) as Hvalid.
  unfold dispatch. destruct args as [|command rest].
  { eexists. split; [reflexivity|exact Hreach]. }
  rewrite find_main_commands.
  destruct (String.eqb command "fw").
  { destruct (HistoryFacts.forward_valid _ Hvalid) as (r & h & Hf & _).
    destruct (fw_history fs (command :: rest) sh r h Hf) as (sh' & Hfw & Hh).
    rewrite Hfw. eexists. split; [reflexivity|]. simpl. rewrite Hh.
    apply (DirectoryHistory.reach_forward p0 _ r h Hreach Hf). }
  destruct (String.eqb command "bk").
  { destruct (HistoryFacts.back_valid _ Hvalid) as (r & h & Hb & _).
    destruct (bk_history fs (command :: rest) sh r h Hb) as (sh' & Hbk & Hh).
    rewrite Hbk. eexists. split; [reflexivity|]. simpl. rewrite Hh.
    apply (DirectoryHistory.reach_back p0 _ r h Hreach Hb). }
  destruct (String.eqb command "cd").
  { destruct (run_cd_history (command :: rest) sh Hvalid)
      as (sh' & Hcd & [Hsame|[p Hadd]]);
      rewrite Hcd; eexists; (split; [reflexivity|]); simpl.
    - rewrite Hsame. exact Hreach.
    - rewrite Hadd. apply DirectoryHistory.reach_add, Hreach. }
  destruct (String.eqb command "exit").
  { eexists. split; [reflexivity|exact Hreach]. }
  destruct (spawn (working_directory sh) (command :: rest));
    eexists; (split; [reflexivity|exact Hreach]).
Qed.

Lemma run_line_main (p0 : string) (line : string) (s : session) :
  DirectoryHistory.reachable p0 (dir_history (the_shell s)) ->
  exists it,
    run_line fs spawn home (main_commands fs) line s = Some it /\
    DirectoryHistory.reachable p0 (dir_history (the_shell (session_of it))).
Proof.
  intros Hreach. unfold run_line. destruct line as [|c line].
  { eexists. split; [reflexivity|exact Hreach]. }
  destruct (transform_command_total (working_directory (the_shell s))
              (String c line)) as (out & events & Ht).
  rewrite Ht. cbv zeta.
  apply dispatch_main.
  destruct (String.eqb out (String c line)); exact Hreach.
Qed.

Lemma run_main (p0 : string) (inputs : list turn) :
  forall s : session,
    DirectoryHistory.reachable p0 (dir_history (the_shell s)) ->
    exists e,
      run fs spawn home (main_commands fs) inputs s = Some e /\
      DirectoryHistory.reachable p0
        (dir_history (the_shell (final_session e))) /\
      ((forall msg, ~ In (current_path_throws msg) inputs) ->
       exists s', e = Returned s').
Proof.
  induction inputs as [|[line|msg] inputs IH]; intros s Hreach.
  - eexists. split; [reflexivity|]. split; [exact Hreach|]. eauto.
  - simpl. destruct (run_line_main p0 line s Hreach) as (it & Hit & Hr).
    rewrite Hit. destruct it as [s'|s'].
    + destruct (IH s' Hr) as (e & He & Hre & Hret).
      exists e. split; [exact He|]. split; [exact Hre|].
      intros Hno. apply Hret. intros m Hm. apply (Hno m). right. exact Hm.
    + eexists. split; [reflexivity|]. split; [exact Hr|]. eauto.
  - eexists. split; [reflexivity|]. split; [exact Hreach|].
    intros Hno. exfalso. apply (Hno msg). left. reflexivity.
Qed.

End RunFacts.

(** ** downfind: what a result means *)

Section DownfindSound.

Variable fs : filesystem.
Variable pat : string.
Variable start : path.
Variable limit : Z.
Hypothesis limit_size_t : 0 <= limit < size_t_modulus.

(** The [for] loop leaves early in two ways only: with the path of a
    matching entry of the directory, or with the limit error when the
    count reaches the limit. *)
Lemma for_each_entry_exited (es : list directory_entry) :
  forall (c : Z) (q : list path) (out : list string) (r : downfind_result),
    0 <= c < limit ->
    for_each_entry pat start limit es c q out = Exited r ->
    (exists e, In e es /\ matches pat start e = true /\
               found r = Ret (path_string (entry_path e)) /\
               c <= search_count r < limit) \/
    (found r = Throw search_limit_reached /\ search_count r = limit).
Proof.
  induction es as [|e es IH]; intros c q out r Hc H; [discriminate|].
  rewrite for_each_entry_cons in H. cbv zeta in H.
  destruct (matches pat start e) eqn:He.
  - inversion H; subst. left. exists e. simpl.
    repeat split; try lia; [left; reflexivity|exact He].
  - assert (Hw : wrap (c + 1) = c + 1) by (apply wrap_small; lia).
    rewrite Hw in H. destruct (limit <=? c + 1) eqn:E.
    + apply Z.leb_le in E. inversion H; subst. right. simpl. split; [auto|lia].
    + apply Z.leb_gt in E. apply IH in H; [|lia].
      destruct H as [(e' & Hin & Hm & Hf & Hcount)|H]; [left|right; exact H].
      exists e'. repeat split; try assumption; try lia. right. exact Hin.
Qed.

(** Whatever the search ends with, the count is within the budget; and a
    path it returns is the path of a matching entry met in the
    traversal. *)
Lemma while_directories_sound (dfuel : nat) :
  forall (c : Z) (q : list path) (out : list string) (r : downfind_result),
    0 <= c <= limit ->
    while_directories fs pat start limit dfuel c q out = Some r ->
    c <= search_count r <= limit /\
    (forall p, found r = Ret p ->
       exists e, In e (bfs_order fs dfuel q) /\
                 matches pat start e = true /\
                 p = path_string (entry_path e) /\
                 search_count r < limit).
Proof.
  induction dfuel as [|dfuel IH]; intros c q out r Hc H.
  - destruct q as [|dir q]; simpl in H.
    + inversion H; subst. simpl. split; [lia|discriminate].
    + destruct (c <? limit); [discriminate|].
      inversion H; subst. simpl. split; [lia|discriminate].
  - destruct q as [|dir q].
    { simpl in H. inversion H; subst. simpl. split; [lia|discriminate]. }
    destruct (Z_lt_ge_dec c limit) as [Hlt|Hge].
    2:{ simpl in H. destruct (c <? limit) eqn:E;
          [apply Z.ltb_lt in E; lia|].
        inversion H; subst. simpl. split; [lia|discriminate]. }
    rewrite (while_directories_step fs pat start limit) in H by exact Hlt.
    simpl bfs_order.
    destruct (directory_iterator fs dir) as [msg|es].
    { inversion H; subst. simpl. split; [lia|discriminate]. }
    destruct (for_each_entry pat start limit es c q out)
      as [c' q' out'|r'] eqn:E.
    + destruct (for_each_entry_inv pat start limit limit_size_t
                  es c q out c' q' out' ltac:(lia) E) as (Hc' & Hlt' & Hq').
      subst q'. destruct (IH c' _ out' r ltac:(lia) H) as [Hcount Hret].
      split; [lia|]. intros p Hp.
      destruct (Hret p Hp) as (e & Hin & Hrest).
      exists e. split; [apply in_or_app; right; exact Hin|exact Hrest].
    + inversion H; subst r'.
      destruct (for_each_entry_exited es c q out r ltac:(lia) E)
        as [(e & Hin & Hm & Hf & Hcount)|[Hf Hcount]].
      * split; [lia|]. intros p Hp. rewrite Hf in Hp. inversion Hp; subst.
        exists e. split; [apply in_or_app; left; exact Hin|].
        repeat split; try assumption; lia.
      * split; [lia|]. intros p Hp. rewrite Hf in Hp. discriminate.
Qed.

(** A traversal that starts from directories holding trees with no match
    and fewer entries than the budget has left ends with the not-found
    error, every entry counted. *)
Lemma while_directories_forest (efuel : nat) :
  forall (forest : list (path * list node)) (c : Z) (out : list string)
         (dfuel : nat),
    (forall p cs, In (p, cs) forest -> holds_tree fs p cs) ->
    (List.length forest + forest_entries forest <= efuel)%nat ->
    Forall (fun e => matches pat start e = false)
           (bfs_order fs efuel (map fst forest)) ->
    0 <= c ->
    c + Z.of_nat (forest_entries forest) < limit ->
    (List.length forest + Z.to_nat (limit - c) <= S dfuel)%nat ->
    while_directories fs pat start limit dfuel c (map fst forest) out =
    Some (mk_downfind_result
            (Throw (target_not_found pat))
            (c + Z.of_nat (forest_entries forest))
            (out ++ printed_lines pat start
                      (bfs_order fs efuel (map fst forest)))).
Proof.
  induction efuel as [|efuel IH];
    intros forest c out dfuel Hholds Hfuel Hno Hc Hlt Hd.
  - destruct forest as [|d forest]; [|simpl in Hfuel; lia].
    destruct dfuel; simpl; rewrite Z.add_0_r, app_nil_r; reflexivity.
  - destruct forest as [|[p cs] forest].
    { destruct dfuel; simpl; rewrite Z.add_0_r, app_nil_r; reflexivity. }
    assert (Hent : forest_entries ((p, cs) :: forest) =
                   (total_entries cs + forest_entries forest)%nat)
      by reflexivity.
    rewrite Hent in *.
    destruct dfuel as [|dfuel]; [simpl in Hd; lia|].
    simpl map in *. simpl bfs_order in *.
    rewrite while_directories_step by lia.
    rewrite (directory_iterator_tree fs p cs) in *
      by (apply Hholds; left; reflexivity).
    rewrite subdirectories_entries_of, <- map_app in *.
    apply Forall_app in Hno. destruct Hno as [Hno1 Hno2].
    pose proof (total_entries_children p cs) as Htot.
    pose proof (child_directories_length p cs) as Hkids.
    assert (Hes : List.length (entries_of p cs) = List.length cs)
      by (unfold entries_of; apply length_map).
    rewrite (for_each_entry_completed pat start limit limit_size_t)
      by (try assumption; lia).
    rewrite subdirectories_entries_of, <- map_app.
    rewrite (IH (forest ++ child_directories p cs)%list _ _ dfuel);
      try assumption.
    + rewrite forest_entries_app, (printed_lines_app pat start),
        <- app_assoc.
      f_equal. f_equal. lia.
    + intros p' cs' Hin. apply in_app_or in Hin. destruct Hin as [Hin|Hin].
      * apply Hholds. right. exact Hin.
      * apply (child_directories_in p cs) in Hin.
        destruct Hin as [name [Hp Hin]]. subst p'.
        assert (Hpcs : holds_tree fs p cs)
          by (apply Hholds; left; reflexivity).
        inversion Hpcs as [? ? _ Hsub]; subst.
        apply (Hsub name cs' Hin).
    + rewrite length_app, forest_entries_app. simpl in Hfuel. lia.
    + lia.
    + rewrite forest_entries_app. lia.
    + rewrite length_app. simpl in Hd. lia.
Qed.

End DownfindSound.

(** ** upfind: what a result means *)

Lemma slash_absolute (a : path) (name : string) :
  has_root_directory name = true -> slash a name = name.
Proof. intros H. unfold slash. rewrite H. reflexivity. Qed.

Lemma first_answer_absolute (fs : filesystem) (name : string)
    (start : path) (a : path) (l : list path) :
  has_root_directory name = true ->
  first_answer fs name start (a :: l) =
  match exists_and_is_directory fs name with
  | inl msg => Throw (filesystem_error msg)
  | inr true => Ret name
  | inr false => Throw (upfind_not_found name start)
  end.
Proof.
  intros Habs. revert a. induction l as [|b l IH]; intros a.
  - simpl. unfold directory_at. rewrite (slash_absolute a name Habs).
    destruct (exists_and_is_directory fs name) as [msg|[|]]; reflexivity.
  - change (first_answer fs name start (a :: b :: l))
      with (match directory_at fs a name with
            | inl msg => Throw (filesystem_error msg)
            | inr true => Ret (slash a name)
            | inr false => first_answer fs name start (b :: l)
            end).
    rewrite (IH b). unfold directory_at. rewrite (slash_absolute a name Habs).
    destruct (exists_and_is_directory fs name) as [msg|[|]]; reflexivity.
Qed.

Lemma ancestors_cons (d : path) : exists rest, ancestors d = d :: rest.
Proof.
  destruct d as [|x d].
  - exists []. reflexivity.
  - rewrite ancestors_step by discriminate. eauto.
Qed.

(** ** transform_command: diagnostics and positions *)

Lemma stderr_lines_app (e1 e2 : list event) :
  stderr_lines (e1 ++ e2) = (stderr_lines e1 ++ stderr_lines e2)%list.
Proof. unfold stderr_lines. apply flat_map_app. Qed.

Lemma stderr_lines_stdout (lines : list string) :
  stderr_lines (map Stdout lines) = [].
Proof. induction lines as [|l lines IH]; [reflexivity|exact IH]. Qed.

Lemma transform_loop_stderr (fs : filesystem) (cwd : path)
    (command : string) (ms : list smatch) :
  forall (result : string) (last_pos : nat) (console : list event)
         (out : string) (console' : list event),
    transform_loop fs cwd command ms result last_pos console =
      Some (out, console') ->
    stderr_lines console' =
    (stderr_lines console ++ flat_map (diagnostic fs cwd) ms)%list.
Proof.
  induction ms as [|m ms IH]; intros result last_pos console out console' H.
  - simpl in H. inversion H; subst. simpl. rewrite app_nil_r. reflexivity.
  - simpl in H. simpl flat_map. unfold diagnostic at 1.
    destruct (find_path fs cwd (direction m) (path_pattern m))
      as [[[found_path|e] lines]|]; [| |discriminate].
    + apply IH in H. rewrite H, stderr_lines_app, stderr_lines_stdout.
      rewrite app_nil_r. reflexivity.
    + apply IH in H.
      rewrite H, !stderr_lines_app, stderr_lines_stdout. simpl.
      rewrite <- app_assoc. reflexivity.
Qed.

Lemma path_safe_run_tail (s : string) :
  forall run tail, path_safe_run s = (run, tail) ->
    starts_path_safe tail = false.
Proof.
  induction s as [|c s IH]; intros run tail H; simpl in H.
  - inversion H. reflexivity.
  - destruct (path_safe c) eqn:Ec.
    + destruct (path_safe_run s) as [run' tail'] eqn:E.
      inversion H; subst. eapply IH. reflexivity.
    + inversion H; subst. simpl. exact Ec.
Qed.

Lemma starts_path_safe_first (t : string) :
  starts_path_safe (substring 0 1 t) = starts_path_safe t.
Proof. destruct t; reflexivity. Qed.

(** Each match stands in the command at its position, ends where the
    path-safe characters end, and comes after the text before the scan. *)
Lemma regex_matches_positions (fuel : nat) :
  forall (s pre : string) (m : smatch),
    In m (regex_matches fuel (String.length pre) s) ->
    (String.length pre <= position m)%nat /\
    (position m + length0 m <= String.length (pre ++ s))%nat /\
    substring (position m) (length0 m) (pre ++ s) = str0 m /\
    starts_path_safe (substring (position m + length0 m) 1 (pre ++ s))
      = false.
Proof.
  induction fuel as [|fuel IH]; intros s pre m Hin; [destruct Hin|].
  destruct s as [|c rest]; [destruct Hin|].
  assert (Hskip : In m (regex_matches fuel (S (String.length pre)) rest) ->
    (String.length pre <= position m)%nat /\
    (position m + length0 m <= String.length (pre ++ String c rest))%nat /\
    substring (position m) (length0 m) (pre ++ String c rest) = str0 m /\
    starts_path_safe
      (substring (position m + length0 m) 1 (pre ++ String c rest)) = false).
  { intros H.
    replace (S (String.length pre))
      with (String.length (pre ++ String c "")) in H
      by (rewrite length_append; simpl; lia).
    apply IH in H. rewrite append_assoc in H. simpl in H.
    rewrite length_append in H. simpl in H.
    destruct H as (H1 & H2 & H3 & H4). repeat split; try assumption; lia. }
  simpl in Hin. destruct (is_direction c); [|apply Hskip, Hin].
  destruct (path_safe_run rest) as [run tail] eqn:Erun.
  destruct run as [|r run]; [apply Hskip, Hin|]. clear Hskip.
  pose proof (path_safe_run_tail _ _ _ Erun) as Htail.
  apply path_safe_run_append in Erun. subst rest.
  destruct Hin as [Hm|Hin].
  - subst m. unfold length0, str0. simpl position. simpl direction.
    simpl path_pattern.
    split; [lia|]. split; [|split].
    + rewrite !length_append. simpl. rewrite length_append. simpl. lia.
    + rewrite <- (Nat.add_0_r (String.length pre)) at 1.
      rewrite substring_skip_append.
      change (String c (String r run ++ tail))
        with (String c (String r run) ++ tail).
      apply substring_0_append.
    + change (pre ++ String c (String r run ++ tail))
        with (pre ++ (String c (String r run) ++ tail)).
      rewrite <- append_assoc.
      replace (String.length pre + String.length (String c (String r run)))%nat
        with (String.length (pre ++ String c (String r run)) + 0)%nat
        by (rewrite length_append; lia).
      rewrite substring_skip_append, starts_path_safe_first. exact Htail.
  - replace (String.length pre + S (String.length (String r run)))%nat
      with (String.length (pre ++ String c (String r run))) in Hin
      by (rewrite length_append; simpl; lia).
    apply IH in Hin. rewrite append_assoc in Hin.
    rewrite length_append in Hin.
    destruct Hin as (H1 & H2 & H3 & H4).
    change ((String c (String r run)) ++ tail)
      with (String c (String r run ++ tail)) in *.
    repeat split; try assumption. lia.
Qed.

Lemma regex_matches_sorted (fuel : nat) :
  forall (s pre : string),
    StronglySorted precedes (regex_matches fuel (String.length pre) s).
Proof.
  induction fuel as [|fuel IH]; intros s pre; [constructor|].
  destruct s as [|c rest]; [constructor|].
  assert (Hskip :
    StronglySorted precedes (regex_matches fuel (S (String.length pre)) rest)).
  { replace (S (String.length pre))
      with (String.length (pre ++ String c ""))
      by (rewrite length_append; simpl; lia).
    apply IH. }
  simpl. destruct (is_direction c); [|exact Hskip].
  destruct (path_safe_run rest) as [run tail] eqn:Erun.
  destruct run as [|r run]; [exact Hskip|]. clear Hskip.
  assert (Hpos : (String.length pre + S (String.length (String r run)))%nat
                 = String.length (pre ++ String c (String r run)))
    by (rewrite length_append; simpl; lia).
  rewrite Hpos. constructor; [apply IH|].
  apply Forall_forall. intros m Hm.
  apply regex_matches_positions in Hm. destruct Hm as (H1 & _).
  unfold precedes, length0, str0. simpl. rewrite <- Hpos in H1. simpl in H1.
  lia.
Qed.

(** ** The loop: what it keeps of the lines, and lines whose directives
    fail or resolve *)

Section LineFacts.

Variable fs : filesystem.
Variable spawn : path -> list string -> spawned.
Variable home : option string.
Variable cc : custom_commands_t.

Lemma dispatch_input_history (args : list string) (sh : shell)
    (lines : list string) (it : iteration) :
  dispatch fs spawn home cc args sh lines = Some it ->
  input_history (session_of it) = lines.
Proof.
  unfold dispatch. destruct args as [|command rest].
  { intros H. inversion H. reflexivity. }
  destruct (find_custom_command command cc) as [func|].
  { destruct (func (command :: rest) sh) as [[[u|e] sh']|];
      intros H; inversion H; reflexivity. }
  destruct (String.eqb command "cd").
  { destruct (run_cd fs (command :: rest) home sh);
      intros H; inversion H; reflexivity. }
  destruct (String.eqb command "exit").
  { intros H; inversion H; reflexivity. }
  destruct (spawn (working_directory sh) (command :: rest));
    intros H; inversion H; reflexivity.
Qed.

Lemma run_line_input_history (line : string) (s : session) (it : iteration) :
  run_line fs spawn home cc line s = Some it ->
  input_history (session_of it) =
  (input_history s ++ if String.eqb line "" then [] else [line])%list.
Proof.
  unfold run_line. destruct line as [|c line].
  - intros H. inversion H. simpl. rewrite app_nil_r. reflexivity.
  - destruct (transform_command fs _ _) as [[out events]|]; [|discriminate].
    cbv zeta. intros H. apply dispatch_input_history in H. exact H.
Qed.

(** A line whose directives all fail is put back together as it was. *)
Lemma transform_command_all_failed (cwd : path) (line : string) :
  (forall m, In m (sregex_iterator line) -> search_fails fs cwd m) ->
  exists events, transform_command fs cwd line = Some (line, events).
Proof.
  intros Hfail.
  destruct (transform_loop_scan fs cwd (String.length line)
              line "" "" "" [] (le_n _) eq_refl)
    as (gaps & reps & last & console & H1 & H2 & _ & H4 & _);
    [discriminate|].
  change (regex_matches (String.length line)
            (String.length "" + String.length "") line)
    with (sregex_iterator line) in *.
  simpl in H1, H2.
  rewrite (Forall2_all_failed fs cwd _ _ H4 Hfail), <- H2 in H1.
  exists console. exact H1.
Qed.

End LineFacts.

(** A run of path-safe characters is taken whole. *)
Lemma path_safe_run_all (name : string) :
  Forall (fun c => path_safe c = true) (list_ascii_of_string name) ->
  path_safe_run name = (name, "").
Proof.
  induction name as [|c name IH]; intros H; [reflexivity|].
  simpl in H. inversion H as [|? ? Hc Hrest]; subst. simpl.
  rewrite Hc, (IH Hrest). reflexivity.
Qed.

Lemma slash_starts_with_slash (a : path) (name : string) :
  exists rest, slash a name = String "/" rest.
Proof.
  unfold slash. destruct (has_root_directory name) eqn:E.
  - destruct name as [|c name]; [discriminate|]. simpl in E.
    destruct (Ascii.eqb_spec c "/") as [->|Hne].
    + eauto.
    + destruct c as [[] [] [] [] [] [] [] []]; try discriminate.
      contradiction Hne. reflexivity.
  - destruct a; simpl; eauto.
Qed.

Lemma upfind_starts_with_slash (fs : filesystem) (name : string)
    (start : path) (p : string) :
  upfind fs name start = Some (Ret p) -> exists rest, p = String "/" rest.
Proof.
  rewrite upfind_first_answer. intros H. inversion H as [E]. clear H.
  induction (ancestors start) as [|a l IH]; [discriminate|].
  simpl in E. destruct (directory_at fs a name) as [msg|[|]].
  - discriminate.
  - inversion E. apply slash_starts_with_slash.
  - apply IH, E.
Qed.

(** * Properties beyond the claims *)

(** X1. Going back and then forward returns to where one was: after a
    [back] that returns, [forward] returns the entry that was current and
    restores the state, cursor included. *)
Theorem history_back_then_forward
  (p0 : string) (h h' : DirectoryHistory.t) (s : string) :
  DirectoryHistory.reachable p0 h ->
  Z.of_nat (List.length (DirectoryHistory.history h)) < size_t_modulus ->
  DirectoryHistory.back h = Some (Ret s, h') ->
  exists c, DirectoryHistory.current h = Some c /\
            DirectoryHistory.forward h' = Some (Ret c, h).
Proof.
  intros Hr Hlen Hb.
  apply (HistoryMoves.back_forward h h' s); try assumption.
  - apply (HistoryFacts.reachable_valid p0), Hr.
  - apply (HistoryMoves.reachable_index_size_t p0), Hr.
Qed.

Lemma history_back_then_forward_witness :
  exists c,
    DirectoryHistory.current (DirectoryHistory.mk ["/home/u"; "/tmp"] 1)
      = Some c /\
    DirectoryHistory.forward (DirectoryHistory.mk ["/home/u"; "/tmp"] 0)
      = Some (Ret c, DirectoryHistory.mk ["/home/u"; "/tmp"] 1).
Proof.
  apply (history_back_then_forward "/home/u"
           (DirectoryHistory.mk ["/home/u"; "/tmp"] 1)
           (DirectoryHistory.mk ["/home/u"; "/tmp"] 0) "/home/u").
  - apply (DirectoryHistory.reach_add "/home/u" "/tmp"
             (DirectoryHistory.seeded "/home/u")).
    apply DirectoryHistory.reach_seeded.
  - unfold size_t_modulus. simpl. lia.
  - reflexivity.
Defined.

(** X2. Going forward and then back returns to where one was. *)
Theorem history_forward_then_back
  (p0 : string) (h h' : DirectoryHistory.t) (s : string) :
  DirectoryHistory.reachable p0 h ->
  Z.of_nat (List.length (DirectoryHistory.history h)) < size_t_modulus ->
  DirectoryHistory.forward h = Some (Ret s, h') ->
  exists c, DirectoryHistory.current h = Some c /\
            DirectoryHistory.back h' = Some (Ret c, h).
Proof.
  intros Hr Hlen Hf.
  apply (HistoryMoves.forward_back h h' s); try assumption.
  apply (HistoryFacts.reachable_valid p0), Hr.
Qed.

Lemma history_forward_then_back_witness :
  exists c,
    DirectoryHistory.current (DirectoryHistory.mk ["/home/u"; "/tmp"] 0)
      = Some c /\
    DirectoryHistory.back (DirectoryHistory.mk ["/home/u"; "/tmp"] 1)
      = Some (Ret c, DirectoryHistory.mk ["/home/u"; "/tmp"] 0).
Proof.
  apply (history_forward_then_back "/home/u"
           (DirectoryHistory.mk ["/home/u"; "/tmp"] 0)
           (DirectoryHistory.mk ["/home/u"; "/tmp"] 1) "/tmp").
  - apply (DirectoryHistory.reach_back "/home/u"
             (DirectoryHistory.mk ["/home/u"; "/tmp"] 1) (Ret "/home/u")).
    + apply (DirectoryHistory.reach_add "/home/u" "/tmp"
               (DirectoryHistory.seeded "/home/u")).
      apply DirectoryHistory.reach_seeded.
    + reflexivity.
  - unfold size_t_modulus. simpl. lia.
  - reflexivity.
Defined.

(** X3. The directory the session started in stays the first entry of
    the history, whatever is added and however the cursor moves. *)
Theorem history_keeps_first_entry (p0 : string) (h : DirectoryHistory.t) :
  DirectoryHistory.reachable p0 h ->
  exists rest, DirectoryHistory.history h = p0 :: rest.
Proof.
  induction 1 as [|p h _ IH|h r h' _ IH Hb|h r h' _ IH Hf].
  - exists []. reflexivity.
  - destruct IH as [rest IH]. unfold DirectoryHistory.add.
    destruct (DirectoryHistory.differs_from_back (DirectoryHistory.history h) p); [|eauto].
    simpl. rewrite IH. exists (rest ++ [p])%list. reflexivity.
  - rewrite (HistoryFacts.back_history _ _ _ Hb). exact IH.
  - rewrite (HistoryFacts.forward_history _ _ _ Hf). exact IH.
Qed.

Lemma history_keeps_first_entry_witness :
  exists rest,
    DirectoryHistory.history
      (DirectoryHistory.add "/tmp" (DirectoryHistory.seeded "/home/u"))
    = "/home/u" :: rest.
Proof.
  apply (history_keeps_first_entry "/home/u").
  apply DirectoryHistory.reach_add, DirectoryHistory.reach_seeded.
Defined.

(** X4. [add] does not look at the cursor: a path other than the last
    entry is put after the last entry wherever the cursor is, so the
    entries after the cursor are kept; the cursor moves to the new entry,
    [forward] from there throws, and [back] from there leads to the entry
    that was last. *)
Theorem history_add_keeps_later_entries
  (p0 : string) (h : DirectoryHistory.t) (p : string) :
  DirectoryHistory.reachable p0 h ->
  Z.of_nat (List.length (DirectoryHistory.history h)) < size_t_modulus ->
  DirectoryHistory.differs_from_back (DirectoryHistory.history h) p = true ->
  let h' := DirectoryHistory.mk
              (DirectoryHistory.history h ++ [p])
              (Z.of_nat (List.length (DirectoryHistory.history h))) in
  DirectoryHistory.add p h = h' /\
  DirectoryHistory.current h' = Some p /\
  DirectoryHistory.forward h' =
    Some (Throw (runtime_error "No next directory in history"), h') /\
  DirectoryHistory.back h' =
    Some (Ret (List.last (DirectoryHistory.history h) ""),
          DirectoryHistory.mk
            (DirectoryHistory.history h ++ [p])
            (Z.of_nat (List.length (DirectoryHistory.history h)) - 1)).
Proof.
  intros Hr Hlen Hd.
  apply HistoryMoves.add_new_anywhere; try assumption.
  apply (HistoryFacts.reachable_valid p0 h Hr).
Qed.

Lemma history_add_keeps_later_entries_witness :
  DirectoryHistory.add "/var" (DirectoryHistory.mk ["/home/u"; "/tmp"] 0) =
  DirectoryHistory.mk ["/home/u"; "/tmp"; "/var"] 2.
Proof.
  apply (history_add_keeps_later_entries "/home/u"
           (DirectoryHistory.mk ["/home/u"; "/tmp"] 0) "/var").
  - apply (DirectoryHistory.reach_back "/home/u"
             (DirectoryHistory.mk ["/home/u"; "/tmp"] 1) (Ret "/home/u")).
    + apply (DirectoryHistory.reach_add "/home/u" "/tmp"
               (DirectoryHistory.seeded "/home/u")).
      apply DirectoryHistory.reach_seeded.
    + reflexivity.
  - unfold size_t_modulus. simpl. lia.
  - reflexivity.
Defined.

(** X5. What a successful [cd] reports is the history entry under the
    cursor.  That is the new directory when it differs from the last
    entry; when it equals the last entry the history is left as it is,
    cursor included, and the report names the entry the cursor was on,
    which after [bk] is not the directory just entered. *)
Theorem cd_reports_entry_under_cursor
  (fs : filesystem) (args : list string) (home : option string)
  (sh : shell) (new_cwd : path) :
  fs_chdir fs (working_directory sh) (cd_target args home) = inr new_cwd ->
  DirectoryHistory.valid (dir_history sh) ->
  Z.of_nat (List.length (DirectoryHistory.history (dir_history sh)))
    < size_t_modulus ->
  exists d,
    run_cd fs args home sh =
    Some (mk_shell new_cwd
            (DirectoryHistory.add (path_string new_cwd) (dir_history sh))
            (console sh ++ [Stdout ("Changed directory to: " ++ d)])) /\
    (DirectoryHistory.differs_from_back
       (DirectoryHistory.history (dir_history sh)) (path_string new_cwd)
     = true -> d = path_string new_cwd) /\
    (DirectoryHistory.differs_from_back
       (DirectoryHistory.history (dir_history sh)) (path_string new_cwd)
     = false ->
     DirectoryHistory.add (path_string new_cwd) (dir_history sh)
       = dir_history sh /\
     DirectoryHistory.current (dir_history sh) = Some d).
Proof.
  intros Hch Hvalid Hlen. unfold run_cd, change_directory. rewrite Hch.
  cbv iota beta. simpl dir_history. simpl working_directory. simpl console.
  destruct (DirectoryHistory.differs_from_back
              (DirectoryHistory.history (dir_history sh))
              (path_string new_cwd)) eqn:Ed.
  - destruct (HistoryMoves.add_new_anywhere (dir_history sh)
                (path_string new_cwd) (proj1 Hvalid) Hlen Ed)
      as (Hadd & Hcur & _).
    rewrite Hadd, Hcur. exists (path_string new_cwd).
    split; [reflexivity|]. split; [reflexivity|discriminate].
  - rewrite (HistoryFacts.add_same _ _ Ed).
    destruct (HistoryFacts.at_index_defined _ _ (proj2 Hvalid)) as [d Hd].
    unfold DirectoryHistory.current. rewrite Hd. exists d.
    split; [reflexivity|]. split; [discriminate|]. auto.
Qed.

Lemma cd_reports_entry_under_cursor_witness :
  exists d,
    run_cd example_fs ["cd"; "/home/u/project"] None
      (mk_shell deep
         (DirectoryHistory.mk ["/home/u/work/deep"; "/home/u/project"] 0)
         []) =
    Some (mk_shell project
            (DirectoryHistory.mk ["/home/u/work/deep"; "/home/u/project"] 0)
            [Stdout ("Changed directory to: " ++ d)]) /\
    d = "/home/u/work/deep".
Proof.
  destruct (cd_reports_entry_under_cursor example_fs
              ["cd"; "/home/u/project"] None
              (mk_shell deep
                 (DirectoryHistory.mk
                    ["/home/u/work/deep"; "/home/u/project"] 0) [])
              project eq_refl)
    as (d & Hrun & _ & Hsame).
  - split; [discriminate|simpl; lia].
  - unfold size_t_modulus. simpl. lia.
  - exists d. split; [exact Hrun|].
    destruct (Hsame eq_refl) as [_ Hd]. inversion Hd. reflexivity.
Defined.

(** X6. [bk] and [fw] are defined on every history whose cursor is an
    index, they never throw, and they leave the entries of the history as
    they are: only the cursor can move. *)
Theorem bk_fw_keep_entries
  (fs : filesystem) (args : list string) (sh : shell) :
  DirectoryHistory.valid (dir_history sh) ->
  (exists sh',
     bk fs args sh = Some (Ret tt, sh') /\
     DirectoryHistory.history (dir_history sh') =
       DirectoryHistory.history (dir_history sh) /\
     DirectoryHistory.valid (dir_history sh')) /\
  (exists sh',
     fw fs args sh = Some (Ret tt, sh') /\
     DirectoryHistory.history (dir_history sh') =
       DirectoryHistory.history (dir_history sh) /\
     DirectoryHistory.valid (dir_history sh')).
Proof.
  intros Hvalid. split.
  - destruct (HistoryFacts.back_valid _ Hvalid) as (r & h & Hb & Hv).
    destruct (bk_history fs args sh r h Hb) as (sh' & Hbk & Hh).
    exists sh'. rewrite Hh. split; [exact Hbk|]. split; [|exact Hv].
    apply (HistoryFacts.back_history _ _ _ Hb).
  - destruct (HistoryFacts.forward_valid _ Hvalid) as (r & h & Hf & Hv).
    destruct (fw_history fs args sh r h Hf) as (sh' & Hfw & Hh).
    exists sh'. rewrite Hh. split; [exact Hfw|]. split; [|exact Hv].
    apply (HistoryFacts.forward_history _ _ _ Hf).
Qed.

Lemma bk_fw_keep_entries_witness :
  exists sh',
    bk example_fs ["bk"]
       (mk_shell project
          (DirectoryHistory.mk ["/home/u/work/deep"; "/home/u/project"] 1)
          []) = Some (Ret tt, sh') /\
    DirectoryHistory.history (dir_history sh') =
      ["/home/u/work/deep"; "/home/u/project"].
Proof.
  destruct (proj1 (bk_fw_keep_entries example_fs ["bk"]
              (mk_shell project
                 (DirectoryHistory.mk
                    ["/home/u/work/deep"; "/home/u/project"] 1) [])
              ltac:(split; [discriminate|simpl; lia])))
    as (sh' & Hbk & Hh & _).
  exists sh'. split; [exact Hbk|exact Hh].
Defined.

(** X7. [bk] moves the cursor before it changes directory, and does not
    move it back when the change fails: after a failed [bk] the shell is
    still in the directory it was in, the two error lines are written,
    and the cursor is on the previous entry. *)
Theorem bk_failed_chdir_moves_cursor
  (fs : filesystem) (p0 : string) (args : list string) (sh : shell)
  (prev_dir msg : string) (h : DirectoryHistory.t) :
  DirectoryHistory.reachable p0 (dir_history sh) ->
  DirectoryHistory.back (dir_history sh) = Some (Ret prev_dir, h) ->
  fs_chdir fs (working_directory sh) prev_dir = inl msg ->
  bk fs args sh =
    Some (Ret tt,
          mk_shell (working_directory sh) h
            (console sh ++ [Stderr ("chdir failed: " ++ msg);
                            Stderr "Failed to navigate back"])) /\
  DirectoryHistory.current_index h =
    DirectoryHistory.current_index (dir_history sh) - 1 /\
  DirectoryHistory.current h = Some prev_dir.
Proof.
  intros Hr Hb Hch.
  pose proof (HistoryMoves.reachable_index_size_t _ _ Hr) as Hidx.
  destruct (HistoryMoves.back_ret _ _ _ Hidx Hb) as (_ & Hh & Hat).
  split; [|split].
  - rewrite (bk_eq fs args sh _ _ Hb), Hch, <- app_assoc. reflexivity.
  - subst h. reflexivity.
  - subst h. exact Hat.
Qed.

Lemma bk_failed_chdir_moves_cursor_witness :
  bk example_fs ["bk"]
     (mk_shell project
        (DirectoryHistory.mk ["/gone"; "/home/u/project"] 1) []) =
  Some (Ret tt,
        mk_shell project
          (DirectoryHistory.mk ["/gone"; "/home/u/project"] 0)
          [Stderr "chdir failed: No such file or directory";
           Stderr "Failed to navigate back"]).
Proof.
  apply (bk_failed_chdir_moves_cursor example_fs "/gone" ["bk"]
           (mk_shell project
              (DirectoryHistory.mk ["/gone"; "/home/u/project"] 1) [])
           "/gone" "No such file or directory"
           (DirectoryHistory.mk ["/gone"; "/home/u/project"] 0)).
  - apply (DirectoryHistory.reach_add "/gone" "/home/u/project"
             (DirectoryHistory.seeded "/gone")).
    apply DirectoryHistory.reach_seeded.
  - reflexivity.
  - reflexivity.
Defined.

(** X8. With the cursor past the first entry, [bk] followed by [fw]
    leaves the history as it was, cursor included, whether or not the two
    changes of directory succeed.  With the cursor on the first entry it
    does not: [bk] finds no previous directory and leaves the history
    alone, and [fw] then moves the cursor to the second entry when there
    is one. *)
Theorem bk_then_fw_restores_history
  (fs : filesystem) (p0 : string) (args args' : list string) (sh : shell) :
  DirectoryHistory.reachable p0 (dir_history sh) ->
  Z.of_nat (List.length (DirectoryHistory.history (dir_history sh)))
    < size_t_modulus ->
  (0 < DirectoryHistory.current_index (dir_history sh) ->
   exists sh1 sh2,
     bk fs args sh = Some (Ret tt, sh1) /\
     fw fs args' sh1 = Some (Ret tt, sh2) /\
     dir_history sh2 = dir_history sh) /\
  (DirectoryHistory.current_index (dir_history sh) = 0 ->
   (2 <= List.length (DirectoryHistory.history (dir_history sh)))%nat ->
   exists sh1 sh2,
     bk fs args sh = Some (Ret tt, sh1) /\
     dir_history sh1 = dir_history sh /\
     fw fs args' sh1 = Some (Ret tt, sh2) /\
     dir_history sh2 =
       DirectoryHistory.mk (DirectoryHistory.history (dir_history sh)) 1).
Proof.
  intros Hr Hlen.
  pose proof (HistoryFacts.reachable_valid p0 _ Hr) as Hv.
  pose proof (HistoryMoves.reachable_index_size_t p0 _ Hr) as Hci.
  split.
  - intros Hpos.
    assert (Hb : exists prev_dir h,
               DirectoryHistory.back (dir_history sh) =
               Some (Ret prev_dir, h)).
    { unfold DirectoryHistory.back.
      destruct (0 <? DirectoryHistory.current_index (dir_history sh))
        eqn:E; [|apply Z.ltb_ge in E; lia].
      cbv zeta. simpl. destruct Hv as [_ Hidx].
      rewrite (wrap_small
                 (DirectoryHistory.current_index (dir_history sh) - 1))
        by lia.
      destruct (HistoryFacts.at_index_defined
                  (DirectoryHistory.history (dir_history sh))
                  (DirectoryHistory.current_index (dir_history sh) - 1))
        as [s Hs]; [lia|].
      rewrite Hs. eauto. }
    destruct Hb as (prev_dir & h & Hb).
    destruct (bk_history fs args sh _ _ Hb) as (sh1 & Hbk & Hh1).
    destruct (HistoryMoves.back_forward (dir_history sh) h prev_dir Hv
                ltac:(lia) Hlen Hb) as (c & _ & Hf).
    rewrite <- Hh1 in Hf.
    destruct (fw_history fs args' sh1 _ _ Hf) as (sh2 & Hfw & Hh2).
    exists sh1, sh2. auto.
  - intros Hzero Htwo.
    assert (Hb : DirectoryHistory.back (dir_history sh) =
                 Some (Throw (runtime_error
                                "No previous directory in history"),
                       dir_history sh)).
    { unfold DirectoryHistory.back. rewrite Hzero. reflexivity. }
    destruct (bk_history fs args sh _ _ Hb) as (sh1 & Hbk & Hh1).
    assert (Hf : exists next_dir,
               DirectoryHistory.forward (dir_history sh) =
               Some (Ret next_dir,
                     DirectoryHistory.mk
                       (DirectoryHistory.history (dir_history sh)) 1)).
    { unfold DirectoryHistory.forward.
      destruct Hv as [Hne _].
      rewrite (HistoryMoves.size_pred _ Hne Hlen), Hzero.
      destruct (0 <? Z.of_nat
                       (List.length
                          (DirectoryHistory.history (dir_history sh))) - 1)
        eqn:E; [|apply Z.ltb_ge in E; lia].
      cbv zeta. simpl.
      destruct (HistoryFacts.at_index_defined
                  (DirectoryHistory.history (dir_history sh)) 1)
        as [s Hs]; [lia|].
      change (wrap 1) with 1. rewrite Hs. eauto. }
    destruct Hf as (next_dir & Hf).
    rewrite <- Hh1 in Hf at 1.
    destruct (fw_history fs args' sh1 _ _ Hf) as (sh2 & Hfw & Hh2).
    exists sh1, sh2. auto.
Qed.

Lemma bk_then_fw_restores_history_witness :
  (exists sh1 sh2,
     bk example_fs ["bk"]
        (mk_shell project
           (DirectoryHistory.mk
              ["/home/u/work/deep"; "/home/u/project"] 1) []) =
       Some (Ret tt, sh1) /\
     fw example_fs ["fw"] sh1 = Some (Ret tt, sh2) /\
     dir_history sh2 =
       DirectoryHistory.mk ["/home/u/work/deep"; "/home/u/project"] 1) /\
  (exists sh1 sh2,
     bk example_fs ["bk"]
        (mk_shell deep
           (DirectoryHistory.mk
              ["/home/u/work/deep"; "/home/u/project"] 0) []) =
       Some (Ret tt, sh1) /\
     dir_history sh1 =
       DirectoryHistory.mk ["/home/u/work/deep"; "/home/u/project"] 0 /\
     fw example_fs ["fw"] sh1 = Some (Ret tt, sh2) /\
     dir_history sh2 =
       DirectoryHistory.mk ["/home/u/work/deep"; "/home/u/project"] 1).
Proof.
  split.
  - apply (proj1 (bk_then_fw_restores_history example_fs "/home/u/work/deep"
                    ["bk"] ["fw"]
                    (mk_shell project
                       (DirectoryHistory.mk
                          ["/home/u/work/deep"; "/home/u/project"] 1) [])
                    (DirectoryHistory.reach_add
                       "/home/u/work/deep" "/home/u/project"
                       (DirectoryHistory.seeded "/home/u/work/deep")
                       (DirectoryHistory.reach_seeded "/home/u/work/deep"))
                    ltac:(unfold size_t_modulus; simpl; lia))).
    simpl. lia.
  - apply (proj2 (bk_then_fw_restores_history example_fs "/home/u/work/deep"
                    ["bk"] ["fw"]
                    (mk_shell deep
                       (DirectoryHistory.mk
                          ["/home/u/work/deep"; "/home/u/project"] 0) [])
                    (DirectoryHistory.reach_back "/home/u/work/deep"
                       (DirectoryHistory.mk
                          ["/home/u/work/deep"; "/home/u/project"] 1)
                       (Ret "/home/u/work/deep")
                       (DirectoryHistory.mk
                          ["/home/u/work/deep"; "/home/u/project"] 0)
                       (DirectoryHistory.reach_add
                          "/home/u/work/deep" "/home/u/project"
                          (DirectoryHistory.seeded "/home/u/work/deep")
                          (DirectoryHistory.reach_seeded
                             "/home/u/work/deep"))
                       eq_refl)
                    ltac:(unfold size_t_modulus; simpl; lia))).
    + reflexivity.
    + simpl. lia.
Defined.

(** X9. No token is empty, and no token holds a space or a NUL. *)
Theorem tokens_are_words (line t : string) :
  In t (tokenize line) ->
  t <> "" /\ contains " " t = false /\ contains NUL t = false.
Proof.
  intros Hin. unfold tokenize in Hin.
  destruct (strtok_loop_tokens _ _ _ Hin) as (H1 & H2 & H3).
  split; [exact H1|]. split; [apply H2; reflexivity|].
  apply H3; [reflexivity|apply c_str_no_NUL].
Qed.

Lemma tokens_are_words_witness :
  "-la" <> "" /\ contains " " "-la" = false /\ contains NUL "-la" = false.
Proof.
  apply (tokens_are_words "  ls   -la " "-la").
  right. left. reflexivity.
Defined.

(** X10. Tokenising loses nothing but spaces and what follows a NUL: the
    tokens put back together are the C string of the line without its
    spaces, in order; and there is no token exactly when that is empty. *)
Theorem tokens_concat (line : string) :
  String.concat "" (tokenize line) = without_spaces (c_str line) /\
  (tokenize line = [] <-> without_spaces (c_str line) = "").
Proof.
  assert (H : String.concat "" (tokenize line) = without_spaces (c_str line))
    by apply (strtok_loop_concat (c_str line) "").
  split; [exact H|]. split.
  - intros E. rewrite <- H, E. reflexivity.
  - intros E. rewrite E in H.
    destruct (tokenize line) as [|t l] eqn:Et; [reflexivity|].
    assert (Ht : t <> "").
    { apply (strtok_loop_tokens (c_str line) "" t).
      unfold tokenize in Et. rewrite Et. left. reflexivity. }
    rewrite concat_cons in H. destruct t; [contradiction|discriminate].
Qed.

(** X11. A space separates: the tokens of [a], a space and [b] are the
    tokens of [a] followed by the tokens of [b]. *)
Theorem tokens_of_space_separated (a b : string) :
  contains NUL a = false ->
  tokenize (a ++ " " ++ b) = (tokenize a ++ tokenize b)%list.
Proof.
  intros Ha. unfold tokenize.
  rewrite (c_str_append a (" " ++ b) Ha), (c_str_without_NUL a Ha).
  simpl c_str. apply strtok_loop_space.
Qed.

Lemma tokens_of_space_separated_witness :
  tokenize ("cd" ++ " " ++ "/home/u  x") = ["cd"; "/home/u"; "x"].
Proof.
  rewrite (tokens_of_space_separated "cd" "/home/u  x" eq_refl).
  reflexivity.
Defined.

(** X12. Registering a command under a name makes it the command found
    under that name, replaces what was registered under it before, and
    leaves the commands under other names as they were. *)
Theorem add_custom_command_overwrites
  (name : string) (func other_func : handler) (cc : custom_commands_t) :
  find_custom_command name (add_custom_command name func cc) = Some func /\
  add_custom_command name func (add_custom_command name other_func cc) =
    add_custom_command name func cc /\
  (forall other, other <> name ->
     find_custom_command other (add_custom_command name func cc) =
     find_custom_command other cc).
Proof.
  split; [apply find_added|]. split.
  - unfold add_custom_command. simpl. rewrite String.eqb_refl. simpl.
    rewrite filter_filter_same. reflexivity.
  - intros other Hne. apply find_other, Hne.
Qed.

(** X13. The custom commands are looked up first: a command registered
    under any name, [cd] and [exit] included, is what runs for that name;
    the loop goes on after it, also when it throws, which only adds an
    [Error:] line. *)
Theorem custom_command_shadows_builtin
  (fs : filesystem) (spawn : path -> list string -> spawned)
  (home : option string) (name : string) (func : handler)
  (cc : custom_commands_t) (rest : list string) (sh : shell)
  (lines : list string) :
  dispatch fs spawn home (add_custom_command name func cc)
           (name :: rest) sh lines =
  match func (name :: rest) sh with
  | None => None
  | Some (Ret _, sh') => Some (Continue (mk_session sh' lines))
  | Some (Throw e, sh') =>
      Some (Continue
              (mk_session (print (Stderr ("Error: " ++ what e)) sh') lines))
  end /\
  (forall s, dispatch fs spawn home (add_custom_command name func cc)
                      (name :: rest) sh lines <> Some (Break s)).
Proof.
  assert (E : dispatch fs spawn home (add_custom_command name func cc)
                (name :: rest) sh lines =
              match func (name :: rest) sh with
              | None => None
              | Some (Ret _, sh') => Some (Continue (mk_session sh' lines))
              | Some (Throw e, sh') =>
                  Some (Continue
                          (mk_session
                             (print (Stderr ("Error: " ++ what e)) sh')
                             lines))
              end).
  { unfold dispatch. rewrite find_added. reflexivity. }
  split; [exact E|]. intros s. rewrite E.
  destruct (func (name :: rest) sh) as [[[u|e] sh']|]; discriminate.
Qed.

(** X14. A session of [main] never indexes the history out of range.
    Whatever the file system, the programs run, the lines typed and the
    prompts at which [fs::current_path()] throws, the session either
    returns or is terminated by that exception at a prompt; in both cases
    the history of the state it stops in is one [add], [back] and
    [forward] reach from the starting directory, so its cursor is an
    index into its entries; and it returns when no prompt throws. *)
Theorem main_session_is_defined
  (fs : filesystem) (spawn : path -> list string -> spawned)
  (home : option string) (cwd : path) (inputs : list turn) :
  exists e,
    main fs spawn home cwd inputs = Some e /\
    DirectoryHistory.reachable (path_string cwd)
      (dir_history (the_shell (final_session e))) /\
    DirectoryHistory.valid (dir_history (the_shell (final_session e))) /\
    ((forall msg, ~ In (current_path_throws msg) inputs) ->
     exists s, e = Returned s).
Proof.
  destruct (run_main fs spawn home (path_string cwd) inputs
              (mk_session (Shell_new cwd) []))
    as (e & Hrun & Hreach & Hret).
  - apply DirectoryHistory.reach_seeded.
  - exists e. split; [exact Hrun|]. split; [exact Hreach|].
    split; [|exact Hret].
    apply (HistoryFacts.reachable_valid _ _ Hreach).
Qed.

(** X15. A line without directives whose first token is [exit], when no
    custom command has that name, ends the session: the rest of the line
    is ignored, the lines after it are not read, and the shell is left as
    it was but for the line kept by the line editor and the farewell. *)
Theorem exit_ends_session
  (fs : filesystem) (spawn : path -> list string -> spawned)
  (home : option string) (cc : custom_commands_t)
  (line : string) (rest : list string) (inputs : list turn) (s : session) :
  find_custom_command "exit" cc = None ->
  ~ directive_token_in line ->
  tokenize line = "exit" :: rest ->
  run fs spawn home cc (readline_returns line :: inputs) s =
  Some (Returned
          (mk_session
             (mk_shell (working_directory (the_shell s))
                       (dir_history (the_shell s))
                       (console (the_shell s) ++ [Stdout "Exiting tbsh."]))
             (input_history s ++ [line]))).
Proof.
  intros Hfind Hplain Htok. simpl run. unfold run_line.
  destruct line as [|c line]; [discriminate|].
  rewrite (transform_command_plain fs _ _ Hplain). cbv zeta.
  rewrite String.eqb_refl, Htok. unfold dispatch. rewrite Hfind.
  simpl. rewrite app_nil_r. reflexivity.
Qed.

Lemma exit_ends_session_witness :
  run example_fs (fun _ _ => child_ran []) None (main_commands example_fs)
      [readline_returns "  exit now"; readline_returns "cd /home"]
      (mk_session (Shell_new deep) []) =
  Some (Returned
          (mk_session
             (mk_shell deep (DirectoryHistory.mk ["/home/u/work/deep"] 0)
                       [Stdout "Exiting tbsh."])
             ["  exit now"])).
Proof.
  apply (exit_ends_session example_fs (fun _ _ => child_ran []) None
           (main_commands example_fs) "  exit now" ["now"]
           [readline_returns "cd /home"]
           (mk_session (Shell_new deep) [])).
  - reflexivity.
  - rewrite <- has_directive_spec. discriminate.
  - reflexivity.
Defined.





(** X18. [downfind] never counts past its limit, and what it returns is
    always the full path of an entry met in the traversal that is not a
    directory and whose path relative to the start ends with the pattern;
    it returns only while the count is below the limit. *)
Theorem downfind_result_is_a_match
  (fs : filesystem) (pat : string) (start : path) (limit : Z)
  (r : downfind_result) :
  0 <= limit < size_t_modulus ->
  downfind fs pat start limit = Some r ->
  0 <= search_count r <= limit /\
  (forall p, found r = Ret p ->
     search_count r < limit /\
     exists e,
       In e (bfs_order fs (Z.to_nat limit) [start]) /\
       entry_is_directory e = false /\
       (exists pre, relative_string (entry_path e) start = pre ++ pat) /\
       p = path_string (entry_path e)).
Proof.
  intros Hlimit H. unfold downfind, absolute in H.
  destruct (while_directories_sound fs pat start limit Hlimit
              _ 0 _ _ r ltac:(lia) H) as [Hcount Hret].
  split; [exact Hcount|]. intros p Hp.
  destruct (Hret p Hp) as (e & Hin & Hm & Hpe & Hlt).
  split; [exact Hlt|]. exists e. split; [exact Hin|].
  unfold matches in Hm. apply andb_true_iff in Hm. destruct Hm as [Hd Hs].
  apply negb_true_iff in Hd. apply ends_with_suffix in Hs. auto.
Qed.

Lemma downfind_result_is_a_match_witness :
  0 <= 3 <= default_limit.
Proof.
  apply (downfind_result_is_a_match example_fs "c.txt" project default_limit
           (mk_downfind_result (Ret "/home/u/project/a/b/c.txt") 3
              ["README | c.txt"; "a/b/c.txt | c.txt"])).
  - unfold default_limit, size_t_modulus. lia.
  - reflexivity.
Defined.

(** X19. What [upfind] returns is always the child, reported as a
    directory, of an ancestor of the start directory, every nearer
    ancestor having been reported without one; an error it throws is the
    not-found error, when every ancestor up to the root was reported
    without such a child, or else the [filesystem_error] of the status
    query that failed, every nearer ancestor having been reported without
    such a child. *)
Theorem upfind_result_is_nearest
  (fs : filesystem) (name : string) (start : path) :
  (forall p, upfind fs name start = Some (Ret p) ->
     exists nearer A farther,
       ancestors start = (nearer ++ A :: farther)%list /\
       p = slash A name /\
       directory_at fs A name = inr true /\
       forall B, In B nearer -> directory_at fs B name = inr false) /\
  (forall e, upfind fs name start = Some (Throw e) ->
     (e = upfind_not_found name start /\
      forall A, In A (ancestors start) ->
                directory_at fs A name = inr false) \/
     (exists nearer A farther msg,
        ancestors start = (nearer ++ A :: farther)%list /\
        e = filesystem_error msg /\
        directory_at fs A name = inl msg /\
        forall B, In B nearer -> directory_at fs B name = inr false)).
Proof.
  rewrite upfind_first_answer.
  destruct (first_answer_inv fs name start (ancestors start))
    as [(pre & a & post & Hl & Hpre & [[Ha Hr]|(msg & Ha & Hr)])|[Hall Hr]];
    rewrite Hr; split.
  - intros p Hp. inversion Hp; subst p. exists pre, a, post. auto.
  - intros e He. discriminate.
  - intros p Hp. discriminate.
  - intros e He. inversion He; subst e. right.
    exists pre, a, post, msg. auto.
  - intros p Hp. discriminate.
  - intros e He. inversion He; subst e. left. auto.
Qed.

Lemma upfind_result_is_nearest_witness :
  (exists nearer A farther,
     ancestors deep = (nearer ++ A :: farther)%list /\
     "/home/u/project" = slash A "project" /\
     directory_at example_fs A "project" = inr true /\
     forall B, In B nearer ->
               directory_at example_fs B "project" = inr false) /\
  ((filesystem_error (name_too_long (slash deep long_name)) =
      upfind_not_found long_name deep /\
    forall A, In A (ancestors deep) ->
      directory_at (with_name_max example_fs) A long_name = inr false) \/
   (exists nearer A farther msg,
      ancestors deep = (nearer ++ A :: farther)%list /\
      filesystem_error (name_too_long (slash deep long_name)) =
        filesystem_error msg /\
      directory_at (with_name_max example_fs) A long_name = inl msg /\
      forall B, In B nearer ->
        directory_at (with_name_max example_fs) B long_name = inr false)).
Proof.
  split.
  - apply (proj1 (upfind_result_is_nearest example_fs "project" deep)).
    reflexivity.
  - apply (proj2 (upfind_result_is_nearest
                    (with_name_max example_fs) long_name deep)).
    vm_compute. reflexivity.
Defined.

(** X20. A name that starts with [/] is not looked for upwards at all:
    joined to any ancestor it is itself, so wherever the search starts
    [upfind] returns the name when the queries report it as a directory,
    throws the not-found error when they report that it is none, and
    throws the [filesystem_error] of the query when that fails. *)
Theorem upfind_absolute_name
  (fs : filesystem) (name : string) (start : path) :
  has_root_directory name = true ->
  upfind fs name start =
  match exists_and_is_directory fs name with
  | inl msg => Some (Throw (filesystem_error msg))
  | inr true => Some (Ret name)
  | inr false => Some (Throw (upfind_not_found name start))
  end.
Proof.
  intros Habs. rewrite upfind_first_answer.
  destruct (ancestors_cons start) as [rest Hanc]. rewrite Hanc.
  rewrite (first_answer_absolute fs name start start rest Habs).
  destruct (exists_and_is_directory fs name) as [msg|[|]]; reflexivity.
Qed.

Lemma upfind_absolute_name_witness :
  upfind example_fs "/home/u/project" deep = Some (Ret "/home/u/project") /\
  upfind (with_name_max example_fs) (String "/" long_name) deep =
    Some (Throw (filesystem_error
                   (name_too_long (String "/" long_name)))).
Proof.
  split.
  - apply (upfind_absolute_name example_fs "/home/u/project" deep eq_refl).
  - apply (upfind_absolute_name (with_name_max example_fs)
             (String "/" long_name) deep eq_refl).
Defined.

(** X21. [transform_command] writes one [[find error]] line to
    [std::cerr] for each directive whose search throws, in the order of
    the directives, and nothing there for the directives it resolves. *)
Theorem transform_diagnostics
  (fs : filesystem) (cwd : path) (command out : string)
  (events : list event) :
  transform_command fs cwd command = Some (out, events) ->
  stderr_lines events =
    flat_map (diagnostic fs cwd) (sregex_iterator command).
Proof.
  intros H. unfold transform_command in H.
  apply transform_loop_stderr in H. exact H.
Qed.

Lemma transform_diagnostics_witness :
  stderr_lines
    [Stdout "README | b/c.txt"; Stdout "a/b/c.txt | b/c.txt";
     Stderr "[find error] Directory 'zzz' not found upwards from /home/u/project"]
  = flat_map (diagnostic example_fs project)
             (sregex_iterator "cat >b/c.txt <zzz").
Proof.
  apply (transform_diagnostics example_fs project "cat >b/c.txt <zzz"
           "cat /home/u/project/a/b/c.txt <zzz").
  vm_compute. reflexivity.
Defined.

(** X22. The matches of a command do not overlap and come in the order
    of their positions; each stands in the command at its position, and
    takes every path-safe character that follows its marker: the
    character after a match, if there is one, is not path-safe. *)
Theorem matches_in_order_and_maximal (command : string) :
  StronglySorted precedes (sregex_iterator command) /\
  (forall m, In m (sregex_iterator command) ->
     (position m + length0 m <= String.length command)%nat /\
     substring (position m) (length0 m) command = str0 m /\
     starts_path_safe (substring (position m + length0 m) 1 command)
       = false).
Proof.
  split.
  - apply (regex_matches_sorted (String.length command) command "").
  - intros m Hm.
    destruct (regex_matches_positions (String.length command) command "" m
                Hm) as (_ & H2 & H3 & H4).
    auto.
Qed.

(** X23. The line editor is given every line that is not empty, as it
    was typed and before any directive is resolved, in the order typed,
    up to and including the line that ends the session; it is given
    nothing else.  The session stops in one of three ways: at the end of
    input, every line having been read; at the first line that breaks
    the loop, which is kept and after which nothing is read; or at the
    first prompt at which [fs::current_path()] throws, the lines before
    it having been read. *)
Theorem line_editor_keeps_typed_lines
  (fs : filesystem) (spawn : path -> list string -> spawned)
  (home : option string) (cc : custom_commands_t)
  (inputs : list turn) (s : session) (e : ending) :
  run fs spawn home cc inputs s = Some e ->
  exists (lines : list string) (s1 : session),
    reads fs spawn home cc lines s s1 /\
    input_history s1 = (input_history s ++ typed lines)%list /\
    ((inputs = map readline_returns lines /\
      e = Returned
            (exiting (mk_session (print (Stdout "") (the_shell s1))
                                 (input_history s1))) /\
      input_history (final_session e) =
        (input_history s ++ typed lines)%list) \/
     (exists line s2 rest,
        inputs =
          (map readline_returns lines ++ readline_returns line :: rest)%list /\
        run_line fs spawn home cc line s1 = Some (Break s2) /\
        e = Returned (exiting s2) /\
        line <> "" /\
        input_history (final_session e) =
          (input_history s ++ typed lines ++ [line])%list) \/
     (exists msg rest,
        inputs =
          (map readline_returns lines ++ current_path_throws msg :: rest)%list /\
        e = Terminated (filesystem_error msg) s1 /\
        input_history (final_session e) =
          (input_history s ++ typed lines)%list)).
Proof.
  revert s e. induction inputs as [|[line|msg] inputs IH]; intros s e H.
  - simpl in H. inversion H; subst e. exists [], s.
    split; [constructor|]. unfold typed. simpl. rewrite app_nil_r.
    split; [reflexivity|]. left. auto.
  - simpl in H.
    destruct (run_line fs spawn home cc line s) as [it|] eqn:E;
      [|discriminate].
    pose proof (run_line_input_history fs spawn home cc line s it E) as Eh.
    destruct it as [s'|s']; simpl in Eh.
    + destruct (IH _ _ H) as (lines & s1 & Hreads & Hh & Hcases).
      assert (Happ : forall tail : list string,
                 ((input_history s' ++ typed lines) ++ tail)%list =
                 (input_history s ++ typed (line :: lines) ++ tail)%list).
      { intros tail. rewrite Eh. unfold typed. simpl filter.
        destruct (String.eqb line ""); simpl;
          repeat rewrite <- app_assoc; reflexivity. }
      assert (Happ0 : (input_history s' ++ typed lines)%list =
                      (input_history s ++ typed (line :: lines))%list).
      { pose proof (Happ []) as H0. repeat rewrite app_nil_r in H0.
        exact H0. }
      exists (line :: lines), s1.
      split; [exact (reads_cons fs spawn home cc line lines s s' s1 E Hreads)|].
      split; [rewrite Hh; exact Happ0|].
      destruct Hcases
        as [(Hin & He & Hf)
           |[(l & s2 & rest & Hin & Hb & He & Hne & Hf)
            |(m & rest & Hin & He & Hf)]].
      * left. split; [rewrite Hin; reflexivity|]. split; [exact He|].
        rewrite Hf. exact Happ0.
      * right. left. exists l, s2, rest.
        split; [rewrite Hin; reflexivity|]. split; [exact Hb|].
        split; [exact He|]. split; [exact Hne|].
        rewrite Hf. rewrite app_assoc. rewrite (Happ [l]). reflexivity.
      * right. right. exists m, rest.
        split; [rewrite Hin; reflexivity|]. split; [exact He|].
        rewrite Hf. exact Happ0.
    + inversion H; subst e. exists [], s.
      split; [constructor|]. unfold typed. simpl. rewrite app_nil_r.
      split; [reflexivity|]. right. left. exists line, s', inputs.
      split; [reflexivity|]. split; [exact E|]. split; [reflexivity|].
      assert (Hne : line <> "").
      { intros ->. unfold run_line in E. discriminate. }
      split; [exact Hne|]. simpl. rewrite Eh.
      destruct (String.eqb_spec line ""); [contradiction|reflexivity].
  - simpl in H. inversion H; subst e. exists [], s.
    split; [constructor|]. unfold typed. simpl. rewrite app_nil_r.
    split; [reflexivity|]. right. right. exists msg, inputs. auto.
Qed.

Lemma line_editor_keeps_typed_lines_witness :
  exists (lines : list string) (s1 : session),
    reads example_fs (fun _ _ => child_ran []) None
          (main_commands example_fs) lines
          (mk_session (Shell_new deep) []) s1 /\
    input_history s1 = ([] ++ typed lines)%list /\
    (([readline_returns "cd <project"; readline_returns "";
       readline_returns "exit"; readline_returns "ls"] =
        map readline_returns lines /\
      Returned
        (mk_session
           (mk_shell project
              (DirectoryHistory.mk
                 ["/home/u/work/deep"; "/home/u/project"] 1)
              [Stdout ("[Transformed] cd <project" ++ arrow ++
                       "cd /home/u/project");
               Stdout "Changed directory to: /home/u/project";
               Stdout "Exiting tbsh."])
           ["cd <project"; "exit"]) =
        Returned
          (exiting (mk_session (print (Stdout "") (the_shell s1))
                               (input_history s1))) /\
      ["cd <project"; "exit"] = ([] ++ typed lines)%list) \/
     (exists line s2 rest,
        [readline_returns "cd <project"; readline_returns "";
         readline_returns "exit"; readline_returns "ls"] =
          (map readline_returns lines ++ readline_returns line :: rest)%list /\
        run_line example_fs (fun _ _ => child_ran []) None
                 (main_commands example_fs) line s1 = Some (Break s2) /\
        Returned
          (mk_session
             (mk_shell project
                (DirectoryHistory.mk
                   ["/home/u/work/deep"; "/home/u/project"] 1)
                [Stdout ("[Transformed] cd <project" ++ arrow ++
                         "cd /home/u/project");
                 Stdout "Changed directory to: /home/u/project";
                 Stdout "Exiting tbsh."])
             ["cd <project"; "exit"]) = Returned (exiting s2) /\
        line <> "" /\
        ["cd <project"; "exit"] = ([] ++ typed lines ++ [line])%list) \/
     (exists msg rest,
        [readline_returns "cd <project"; readline_returns "";
         readline_returns "exit"; readline_returns "ls"] =
          (map readline_returns lines ++ current_path_throws msg :: rest)%list /\
        Returned
          (mk_session
             (mk_shell project
                (DirectoryHistory.mk
                   ["/home/u/work/deep"; "/home/u/project"] 1)
                [Stdout ("[Transformed] cd <project" ++ arrow ++
                         "cd /home/u/project");
                 Stdout "Changed directory to: /home/u/project";
                 Stdout "Exiting tbsh."])
             ["cd <project"; "exit"]) =
          Terminated (filesystem_error msg) s1 /\
        ["cd <project"; "exit"] = ([] ++ typed lines)%list)).
Proof.
  apply (line_editor_keeps_typed_lines example_fs (fun _ _ => child_ran [])
           None (main_commands example_fs)
           [readline_returns "cd <project"; readline_returns "";
            readline_returns "exit"; readline_returns "ls"]
           (mk_session (Shell_new deep) [])
           (Returned
              (mk_session
                 (mk_shell project
                    (DirectoryHistory.mk
                       ["/home/u/work/deep"; "/home/u/project"] 1)
                    [Stdout ("[Transformed] cd <project" ++ arrow ++
                             "cd /home/u/project");
                     Stdout "Changed directory to: /home/u/project";
                     Stdout "Exiting tbsh."])
                 ["cd <project"; "exit"]))).
  vm_compute. reflexivity.
Defined.

(** X24. A line whose directives all fail runs as it was typed: the
    transformer gives the line back, no [[Transformed]] report is
    written, and the command is dispatched on the tokens of the line
    itself, after the diagnostics of the searches. *)
Theorem failed_directives_run_as_typed
  (fs : filesystem) (spawn : path -> list string -> spawned)
  (home : option string) (cc : custom_commands_t)
  (line : string) (s : session) :
  line <> "" ->
  (forall m, In m (sregex_iterator line) ->
             search_fails fs (working_directory (the_shell s)) m) ->
  exists events,
    transform_command fs (working_directory (the_shell s)) line =
      Some (line, events) /\
    run_line fs spawn home cc line s =
    dispatch fs spawn home cc (tokenize line)
      (mk_shell (working_directory (the_shell s))
                (dir_history (the_shell s))
                (console (the_shell s) ++ events))
      (input_history s ++ [line]).
Proof.
  intros Hne Hfail.
  destruct (transform_command_all_failed fs _ line Hfail) as [events Ht].
  exists events. split; [exact Ht|].
  unfold run_line. destruct line as [|c line]; [contradiction|].
  rewrite Ht. cbv zeta. rewrite String.eqb_refl. reflexivity.
Qed.

Lemma failed_directives_run_as_typed_witness :
  exists events,
    transform_command example_fs deep "ls >x.txt" =
      Some ("ls >x.txt", events) /\
    run_line example_fs (fun _ _ => child_ran []) None
             (main_commands example_fs) "ls >x.txt"
             (mk_session (Shell_new deep) []) =
    dispatch example_fs (fun _ _ => child_ran []) None
             (main_commands example_fs) ["ls"; ">x.txt"]
             (mk_shell deep (DirectoryHistory.mk ["/home/u/work/deep"] 0)
                       ([] ++ events))
             ["ls >x.txt"].
Proof.
  apply (failed_directives_run_as_typed example_fs
           (fun _ _ => child_ran []) None (main_commands example_fs)
           "ls >x.txt" (mk_session (Shell_new deep) [])).
  - discriminate.
  - intros m [Hm|[]]. subst m. eexists _, _. vm_compute. reflexivity.
Defined.

Lemma substring_none (n : nat) (s : string) : substring n 0 s = "".
Proof.
  revert s. induction n as [|n IH]; intros s; destruct s; simpl; auto.
Qed.

Lemma regex_matches_end (fuel pos : nat) : regex_matches fuel pos "" = [].
Proof. destruct fuel; reflexivity. Qed.

(** X25. [cd <name]: the directive is resolved first and the line cut
    into tokens afterwards, so what [cd] is given is not the directory
    found but the tokens of its path: after the [[Transformed]] report,
    the command run has the arguments [cd] and the space-free pieces of
    the path. *)
Theorem cd_upward_directive
  (fs : filesystem) (spawn : path -> list string -> spawned)
  (home : option string) (cc : custom_commands_t)
  (name p : string) (s : session) :
  name <> "" ->
  Forall (fun c => path_safe c = true) (list_ascii_of_string name) ->
  upfind fs name (working_directory (the_shell s)) = Some (Ret p) ->
  run_line fs spawn home cc ("cd <" ++ name) s =
  dispatch fs spawn home cc ("cd" :: tokenize p)
    (mk_shell (working_directory (the_shell s))
              (dir_history (the_shell s))
              (console (the_shell s) ++
               [Stdout ("[Transformed] " ++ ("cd <" ++ name) ++ arrow ++
                        ("cd " ++ p))]))
    (input_history s ++ ["cd <" ++ name]).
Proof.
  intros Hne Hsafe Hup.
  destruct (upfind_starts_with_slash _ _ _ _ Hup) as [rest Hp].
  assert (Ht : transform_command fs (working_directory (the_shell s))
                 ("cd <" ++ name) = Some ("cd " ++ p, [])).
  { unfold transform_command, sregex_iterator. simpl.
    rewrite (path_safe_run_all name Hsafe).
    destruct name as [|c name]; [contradiction|].
    rewrite regex_matches_end. simpl transform_loop.
    unfold find_path. simpl direction. simpl path_pattern.
    change (Ascii.eqb "<" "<") with true. cbv iota. rewrite Hup.
    simpl. rewrite Nat.sub_diag, substring_none, append_nil_r.
    reflexivity. }
  unfold run_line. change ("cd <" ++ name) with (String "c" ("d <" ++ name)).
  cbv iota. change (String "c" ("d <" ++ name)) with ("cd <" ++ name).
  rewrite Ht. cbv zeta.
  assert (Hneq : String.eqb ("cd " ++ p) ("cd <" ++ name) = false).
  { subst p. reflexivity. }
  rewrite Hneq.
  assert (Htok : tokenize ("cd " ++ p) = "cd" :: tokenize p) by reflexivity.
  rewrite Htok. unfold print. simpl. rewrite app_nil_r. reflexivity.
Qed.

Lemma cd_upward_directive_witness :
  run_line example_fs (fun _ _ => child_ran []) None
           (main_commands example_fs) ("cd <" ++ "project")
           (mk_session (Shell_new deep) []) =
  Some (Continue
          (mk_session
             (mk_shell project
                (DirectoryHistory.mk
                   ["/home/u/work/deep"; "/home/u/project"] 1)
                [Stdout ("[Transformed] cd <project" ++ arrow ++
                         "cd /home/u/project");
                 Stdout "Changed directory to: /home/u/project"])
             ["cd <project"])).
Proof.
  rewrite (cd_upward_directive example_fs (fun _ _ => child_ran []) None
             (main_commands example_fs) "project" "/home/u/project"
             (mk_session (Shell_new deep) [])
             ltac:(discriminate) ltac:(repeat constructor) eq_refl).
  reflexivity.
Defined.

Lemma sorted_after {A : Type} (R : A -> A -> Prop) (l1 l2 : list A) (x : A) :
  StronglySorted R (l1 ++ x :: l2) -> Forall (R x) l2.
Proof.
  induction l1 as [|y l1 IH]; simpl; intros H.
  - apply StronglySorted_inv in H. apply H.
  - apply StronglySorted_inv in H. apply IH, H.
Qed.

(** X26. The match [downfind] returns is one of least depth: when the
    first match of the traversal is within the budget, it is returned,
    and no matching entry of the traversal lies less deep than it. *)
Theorem downfind_returns_a_shallowest_match
  (fs : filesystem) (pat : string) (start : path) (limit : Z)
  (efuel : nat) (pre : list directory_entry) (e : directory_entry)
  (post : list directory_entry) :
  0 <= limit < size_t_modulus ->
  bfs_order fs efuel [start] = (pre ++ e :: post)%list ->
  Forall (fun x => matches pat start x = false) pre ->
  matches pat start e = true ->
  Z.of_nat (List.length pre) < limit ->
  (exists r, downfind fs pat start limit = Some r /\
             found r = Ret (path_string (entry_path e))) /\
  (forall e', In e' (bfs_order fs efuel [start]) ->
              matches pat start e' = true ->
              (depth e <= depth e')%nat).
Proof.
  intros Hlimit Hbfs Hno He Hlt. split.
  - rewrite (downfind_found fs pat start limit Hlimit efuel pre e post)
      by assumption.
    eexists. split; reflexivity.
  - intros e' Hin He'. rewrite Hbfs in Hin. apply in_app_or in Hin.
    destruct Hin as [Hin|[Hin|Hin]].
    + rewrite (proj1 (Forall_forall _ _) Hno e' Hin) in He'. discriminate.
    + subst e'. lia.
    + pose proof (bfs_order_by_depth fs efuel start) as Hsorted.
      rewrite Hbfs, map_app in Hsorted. simpl map in Hsorted.
      apply sorted_after in Hsorted.
      apply (proj1 (Forall_forall _ _) Hsorted (depth e')).
      apply in_map, Hin.
Qed.

Lemma downfind_returns_a_shallowest_match_witness :
  exists r,
    downfind example_fs "E" ["home"; "u"] default_limit = Some r /\
    found r = Ret "/home/u/project/README".
Proof.
  apply (downfind_returns_a_shallowest_match
           example_fs "E" ["home"; "u"] default_limit 3%nat
           [mk_entry ["home"; "u"; "project"] true;
            mk_entry ["home"; "u"; "work"] true;
            mk_entry ["home"; "u"; "project"; "a"] true]
           (mk_entry ["home"; "u"; "project"; "README"] false)
           [mk_entry ["home"; "u"; "work"; "deep"] true]).
  - unfold default_limit, size_t_modulus. lia.
  - reflexivity.
  - repeat constructor.
  - reflexivity.
  - unfold default_limit. simpl. lia.
Defined.
